(** * RKO Takeaway Studio: the generation pipeline

    A shallow embedding of the generation core of the repository
    (src/lib/generation/{rag,guardrails,planner,scriptGenerator,orchestrator}.ts
    and the utilities they import: utils/constants.ts, utils/retry.ts,
    utils/errors.ts) and of the code around it (retryWithBackoff, chunkText
    of providers/openai.ts, the level filter of utils/logger.ts,
    credits/manager.ts, the handlers of api/generate and api/render, the
    polling loops of the media providers), followed by the properties of
    the specification that concern it and by further properties of the
    code.

    Conventions of the embedding.
    - A JavaScript string is a [string]; each character stands for one
      code unit (so the strings of the model are those whose code units
      are below 256).
    - A JavaScript number that counts things is a [Z]; a similarity score
      is a [Q].
    - A function that may throw returns a [completion]: either the value
      returned or the error thrown.
    - The replies of the collaborators (chat completion, embedding,
      similarity search) are inputs of the model.  The persisted run is
      the state threaded through the orchestrator. *)

From Stdlib Require Import Bool List Arith ZArith QArith Lia.
From Stdlib Require Import Ascii String DecimalString.
From Stdlib Require Import Permutation Sorted.
Import ListNotations.

Set Implicit Arguments.
Unset Strict Implicit.

Local Open Scope string_scope.
Local Open Scope Z_scope.
Local Open Scope list_scope.

(* ================================================================== *)
(** * JavaScript strings *)
(* ================================================================== *)

Module JsString.

Definition chars (s : string) : list ascii := list_ascii_of_string s.
Definition unchars (l : list ascii) : string := string_of_list_ascii l.

Definition code (c : ascii) : nat := nat_of_ascii c.

Definition between (lo hi : nat) (c : ascii) : bool :=
  (lo <=? code c)%nat && (code c <=? hi)%nat.

(** [\d] *)
Definition is_digit (c : ascii) : bool := between 48 57 c.

(** [\w] without the unicode flag: [A-Za-z0-9_]. *)
Definition is_word (c : ascii) : bool :=
  between 65 90 c || between 97 122 c || is_digit c || (code c =? 95)%nat.

(** WhiteSpace and LineTerminator code units below 256: TAB, LF, VT, FF,
    CR, SP and NBSP.  This is both [\s] and what [trim] strips. *)
Definition is_space (c : ascii) : bool :=
  between 9 13 c || (code c =? 32)%nat || (code c =? 160)%nat.

(** Canonicalize of a case-insensitive, non-unicode regular expression,
    as far as the pattern characters of this program (all ASCII) can
    tell: a lower-case ASCII letter folds to its upper-case form, and no
    other code unit folds onto an ASCII one. *)
Definition canonicalize (c : ascii) : ascii :=
  if between 97 122 c then ascii_of_nat (code c - 32) else c.

Definition same_ci (a b : ascii) : bool :=
  Ascii.eqb (canonicalize a) (canonicalize b).

(** [String.prototype.trim] *)
Fixpoint trimStart (l : list ascii) : list ascii :=
  match l with
  | c :: l' => if is_space c then trimStart l' else l
  | [] => []
  end.

Definition trim (s : string) : string :=
  unchars (rev (trimStart (rev (trimStart (chars s))))).

(** [String.prototype.startsWith] *)
Definition startsWith (s p : string) : bool := String.prefix p s.

(** [s.replace(p, '')] for a string pattern [p]: only the first
    occurrence is removed. *)
Fixpoint strip_prefix (p l : list ascii) : option (list ascii) :=
  match p, l with
  | [], _ => Some l
  | a :: p', b :: l' => if Ascii.eqb a b then strip_prefix p' l' else None
  | _ :: _, [] => None
  end.

Fixpoint remove_first (p l : list ascii) : list ascii :=
  match strip_prefix p l with
  | Some rest => rest
  | None => match l with
            | [] => []
            | c :: l' => c :: remove_first p l'
            end
  end.

Definition replace_with_empty (s p : string) : string :=
  unchars (remove_first (chars p) (chars s)).

(** [a || b] on strings: the empty string is falsy. *)
Definition or_else (a b : string) : string :=
  if String.eqb a EmptyString then b else a.

(** [segments.join(sep)] *)
Definition join (sep : string) (l : list string) : string := String.concat sep l.

End JsString.

(* ================================================================== *)
(** * Regular expressions ([RegExp.prototype.test], flag [i], no flag [g]) *)
(* ================================================================== *)

Module Regex.
Import JsString.

Inductive regex : Type :=
| Eps
| Lit (c : ascii)              (* a pattern character *)
| Digit                        (* \d *)
| Space                        (* \s *)
| Range (lo hi : ascii)        (* [lo-hi], a range of digits *)
| OneOf (cs : list ascii)      (* [abc] *)
| Cat (r1 r2 : regex)
| Or (r1 r2 : regex)
| Opt (r : regex)              (* r? *)
| Star (r : regex)             (* r* *)
| WordB.                       (* \b *)

Definition is_word_at (c : option ascii) : bool :=
  match c with Some x => is_word x | None => false end.

(** Backtracking matcher in continuation-passing style: [exec r prev s k]
    matches [r] at the head of [s], [prev] being the character before
    it, and hands the rest to [k].  An iteration of [Star] that
    consumes nothing is not repeated. *)
Fixpoint exec (r : regex) (prev : option ascii) (s : list ascii)
         (k : option ascii -> list ascii -> bool) {struct r} : bool :=
  match r with
  | Eps => k prev s
  | Lit c =>
      match s with
      | x :: s' => if same_ci c x then k (Some x) s' else false
      | [] => false
      end
  | Digit =>
      match s with
      | x :: s' => if is_digit x then k (Some x) s' else false
      | [] => false
      end
  | Space =>
      match s with
      | x :: s' => if is_space x then k (Some x) s' else false
      | [] => false
      end
  | Range lo hi =>
      match s with
      | x :: s' => if between (code lo) (code hi) x then k (Some x) s' else false
      | [] => false
      end
  | OneOf cs =>
      match s with
      | x :: s' => if existsb (fun c => same_ci c x) cs then k (Some x) s' else false
      | [] => false
      end
  | Cat r1 r2 => exec r1 prev s (fun p s' => exec r2 p s' k)
  | Or r1 r2 => if exec r1 prev s k then true else exec r2 prev s k
  | Opt r1 => if exec r1 prev s k then true else k prev s
  | Star r1 =>
      (fix loop (n : nat) (p : option ascii) (t : list ascii) {struct n} : bool :=
         match n with
         | O => k p t
         | S n' =>
             if exec r1 p t
                     (fun p' t' =>
                        if (List.length t' <? List.length t)%nat
                        then loop n' p' t' else false)
             then true else k p t
         end) (List.length s) prev s
  | WordB =>
      if xorb (is_word_at prev) (is_word_at (hd_error s)) then k prev s else false
  end.

(** The match may start at any position. *)
Fixpoint search (r : regex) (prev : option ascii) (s : list ascii) : bool :=
  if exec r prev s (fun _ _ => true) then true
  else match s with
       | [] => false
       | x :: s' => search r (Some x) s'
       end.

Definition test (r : regex) (s : string) : bool := search r None (chars s).

(** Pattern text. *)
Fixpoint lits (l : list ascii) : regex :=
  match l with
  | [] => Eps
  | [c] => Lit c
  | c :: l' => Cat (Lit c) (lits l')
  end.

Definition text (s : string) : regex := lits (chars s).

Fixpoint alt (l : list regex) : regex :=
  match l with
  | [] => Eps
  | [r] => r
  | r :: l' => Or r (alt l')
  end.

Definition plus (r : regex) : regex := Cat r (Star r).

End Regex.

(* ================================================================== *)
(** * utils/constants.ts *)
(* ================================================================== *)

Module Constants.
Import Regex.

Definition MAX_RETRIES : Z := 3.

Definition TOP_K_CHUNKS : Z := 10.

Record ProhibitedPattern := {
  pattern : regex;
  description : string
}.

(** [/\$\d+(?:\.\d{1,2})?[KMB]/i] *)
Definition financial : regex :=
  Cat (Lit "$")
      (Cat (plus Digit)
           (Cat (Opt (Cat (Lit ".") (Cat Digit (Opt Digit))))
                (OneOf ["K"; "M"; "B"]%char))).

(** [/Q[1-4]\s*(?:20|FY)\d{2}/i] *)
Definition quarterly : regex :=
  Cat (Lit "Q")
      (Cat (Range "1" "4")
           (Cat (Star Space)
                (Cat (Or (text "20") (text "FY"))
                     (Cat Digit Digit)))).

(** [/\b(?:competitor|versus|vs\.?|compared to)\b/i] *)
Definition competitor : regex :=
  Cat WordB
      (Cat (alt [text "competitor"; text "versus";
                 Cat (text "vs") (Opt (Lit "."));
                 text "compared to"])
           WordB).

(** [/\b(?:coming soon|roadmap|future release|will launch|planning to)\b/i] *)
Definition forward_looking : regex :=
  Cat WordB
      (Cat (alt [text "coming soon"; text "roadmap"; text "future release";
                 text "will launch"; text "planning to"])
           WordB).

(** [/\b(?:guaranteed|promise|ensure)\b/i] *)
Definition guarantees : regex :=
  Cat WordB
      (Cat (alt [text "guaranteed"; text "promise"; text "ensure"]) WordB).

Definition PROHIBITED_PATTERNS : list ProhibitedPattern :=
  [ {| pattern := financial;       description := "Financial figures" |};
    {| pattern := quarterly;       description := "Quarterly projections" |};
    {| pattern := competitor;      description := "Competitor mentions" |};
    {| pattern := forward_looking; description := "Forward-looking statements" |};
    {| pattern := guarantees;      description := "Guarantees" |} ].

End Constants.

(* ================================================================== *)
(** * utils/errors.ts and thrown values *)
(* ================================================================== *)

Module Errors.

(** The classes an [instanceof] test of this program can tell apart, and
    the errors of the collaborators, known by their [name]. *)
Inductive error_class : Type :=
| PlainError                    (* new Error(...) *)
| TypeError
| GuardrailViolation            (* AppError, code GUARDRAIL_VIOLATION, 400 *)
| GenerationError               (* AppError, code GENERATION_ERROR, 500 *)
| Foreign (name : string).      (* thrown by a provider library *)

Record JsError : Type := {
  cls : error_class;
  message : string
}.

Definition name (e : JsError) : string :=
  match cls e with
  | PlainError => "Error"
  | TypeError => "TypeError"
  | GuardrailViolation => "GuardrailViolation"
  | GenerationError => "GenerationError"
  | Foreign n => n
  end.

(** [Error.prototype.toString] *)
Definition toString (e : JsError) : string :=
  if String.eqb (message e) EmptyString then name e
  else if String.eqb (name e) EmptyString then message e
  else (name e ++ ": " ++ message e)%string.

Definition is_GuardrailViolation (e : JsError) : bool :=
  match cls e with GuardrailViolation => true | _ => false end.

Definition new_Error (m : string) : JsError :=
  {| cls := PlainError; message := m |}.
Definition new_TypeError (m : string) : JsError :=
  {| cls := TypeError; message := m |}.
Definition new_GuardrailViolation (m : string) : JsError :=
  {| cls := GuardrailViolation; message := m |}.
Definition new_GenerationError (m : string) : JsError :=
  {| cls := GenerationError; message := m |}.

(** What a call yields: the value it returns or the error it throws. *)
Inductive completion (A : Type) : Type :=
| Returned (a : A)
| Thrown (e : JsError).

Arguments Returned {A} a.
Arguments Thrown {A} e.

End Errors.

(* ================================================================== *)
(** * utils/retry.ts *)
(* ================================================================== *)

Module Retry.
Import JsString Regex Errors.

Definition retriablePatterns : list regex :=
  [ text "timeout";
    text "ECONNRESET";
    text "ECONNREFUSED";
    text "rate limit";
    text "too many requests";
    text "503";
    text "502";
    text "500";
    text "network";
    text "temporarily unavailable" ].

Definition isRetriableError (error : JsError) : bool :=
  let errorMessage := or_else (message error) (toString error) in
  existsb (fun pattern => test pattern errorMessage) retriablePatterns.

End Retry.

(* ================================================================== *)
(** * Arrays and plain objects *)
(* ================================================================== *)

Module JsObject.
Import JsString.

Section Sort.
Variable A : Type.
(** [first x y]: [x] need not move behind [y]. *)
Variable first : A -> A -> bool.

Fixpoint insert (x : A) (l : list A) : list A :=
  match l with
  | [] => [x]
  | y :: l' => if first x y then x :: l else y :: insert x l'
  end.

(** A stable sort, as [Array.prototype.sort] is: elements that compare
    equal keep their order. *)
Definition sort (l : list A) : list A := fold_right insert [] l.
End Sort.

(** [l.splice(i, 1)] *)
Definition splice1 (A : Type) (i : nat) (l : list A) : list A :=
  firstn i l ++ skipn (S i) l.

(** The own properties of a plain object, in creation order. *)
Definition obj (V : Type) : Type := list (string * V).

(** What a plain object [{}] inherits from [Object.prototype], with the
    [length] of each inherited value ([None] where it has none). *)
Definition Object_prototype : list (string * option Z) :=
  [ ("constructor", Some 1);
    ("__defineGetter__", Some 2);
    ("__defineSetter__", Some 2);
    ("hasOwnProperty", Some 1);
    ("__lookupGetter__", Some 1);
    ("__lookupSetter__", Some 1);
    ("isPrototypeOf", Some 1);
    ("propertyIsEnumerable", Some 1);
    ("toString", Some 0);
    ("valueOf", Some 0);
    ("__proto__", None);
    ("toLocaleString", Some 0) ].

Fixpoint assoc (V : Type) (k : string) (o : list (string * V)) : option V :=
  match o with
  | [] => None
  | (k', v) :: o' => if String.eqb k k' then Some v else assoc k o'
  end.

Definition inherited (k : string) : bool :=
  match assoc k Object_prototype with Some _ => true | None => false end.

(** The value of [o[k]]. *)
Inductive lookup (V : Type) : Type :=
| Own (v : V)
| Inherited (length : option Z)
| Undefined.

Arguments Own {V} v.
Arguments Inherited {V} length.
Arguments Undefined {V}.

Definition get (V : Type) (o : obj V) (k : string) : lookup V :=
  match assoc k o with
  | Some v => Own v
  | None =>
      match assoc k Object_prototype with
      | Some len => Inherited len
      | None => Undefined
      end
  end.

(** [o[k] = v] for a key that is own or not inherited: an own property
    keeps its place, a new one goes last. *)
Fixpoint set (V : Type) (o : obj V) (k : string) (v : V) : obj V :=
  match o with
  | [] => [(k, v)]
  | (k', v') :: o' =>
      if String.eqb k k' then (k', v) :: o' else (k', v') :: set o' k v
  end.

(** Array indices: the canonical numeric strings below 2^32 - 1. *)
Fixpoint digits_value (l : list ascii) (acc : N) : option N :=
  match l with
  | [] => Some acc
  | c :: l' =>
      if is_digit c
      then digits_value l' (acc * 10 + N.of_nat (code c - 48))%N
      else None
  end.

Definition array_index (k : string) : option N :=
  match chars k with
  | [] => None
  | c :: l =>
      if (code c =? 48)%nat && negb (Nat.eqb (List.length l) 0) then None
      else if (10 <? List.length (c :: l))%nat then None
      else match digits_value (c :: l) 0%N with
           | Some n => if (n <? 4294967295)%N then Some n else None
           | None => None
           end
  end.

Definition is_index (k : string) : bool :=
  match array_index k with Some _ => true | None => false end.

Definition index_first (a b : string) : bool :=
  match array_index a, array_index b with
  | Some x, Some y => (x <=? y)%N
  | _, _ => true
  end.

(** [Object.keys(o)]: array indices in ascending numeric order, then the
    other names in creation order. *)
Definition keys (V : Type) (o : obj V) : list string :=
  sort index_first (filter is_index (map fst o))
  ++ filter (fun k => negb (is_index k)) (map fst o).

End JsObject.

(* ================================================================== *)
(** * types/generation.ts, types/user.ts *)
(* ================================================================== *)

Module Types.

Inductive GenerationFormat := video | podcast | slides.
Inductive GenerationStatus := queued | processing | rendering | completed | failed.
Inductive TonePreset := professional | casual | inspiring | technical | executive.
Inductive LengthPreset := short | medium | long.

Definition format_text (f : GenerationFormat) : string :=
  match f with video => "video" | podcast => "podcast" | slides => "slides" end.

Definition tone_text (t : TonePreset) : string :=
  match t with
  | professional => "professional" | casual => "casual"
  | inspiring => "inspiring" | technical => "technical"
  | executive => "executive"
  end.

Record GenerationCustomization := {
  language : string;
  tone : TonePreset;
  length : LengthPreset;
  extra_instruction : option string
}.

Record UserProfile := {
  user_id : string;
  role : option string;
  segment : option string;
  geo : option string;
  function : option string
}.

Record RAGChunk := {
  id : string;
  transcript_id : string;
  theme : string;
  content : string;
  token_count : Z;
  similarity : Q
}.

Record RAGContext := {
  chunks : list RAGChunk;
  query : string;
  total_tokens : Z
}.

(** A value made by [JSON.parse]. *)
#[local] Set Warnings "-register-all".
Inductive Json : Type :=
| JNull
| JBool (b : bool)
| JNumber (n : Z)
| JString (s : string)
| JArray (l : list Json)
| JObject (fields : list (string * Json)).

End Types.

(* ================================================================== *)
(** * generation/rag.ts *)
(* ================================================================== *)

Module Rag.
Import JsString JsObject Errors Types Constants.

Record RetrievalParams := {
  userProfile : UserProfile;
  format : GenerationFormat;
  customization : GenerationCustomization;
  topK : option Z
}.

(** The reply of [supabase.rpc('match_transcript_chunks', ...)]. *)
Record RpcReply := {
  data : option (list RAGChunk);
  error : option string          (* error.message *)
}.

Definition truthy (s : option string) : bool :=
  match s with
  | Some t => negb (String.eqb t EmptyString)
  | None => false
  end.

Definition push_if (b : bool) (seg : string) (segments : list string) : list string :=
  if b then segments ++ [seg] else segments.

Definition text_of (s : option string) : string :=
  match s with Some t => t | None => EmptyString end.

Definition buildSemanticQuery (params : RetrievalParams) : string :=
  let p := userProfile params in
  let c := customization params in
  let segments :=
    [("Create a " ++ tone_text (tone c) ++ " " ++ format_text (format params)
        ++ " takeaway")%string] in
  let segments := push_if (truthy (role p)) ("for " ++ text_of (role p))%string segments in
  let segments :=
    push_if (truthy (segment p)) ("in " ++ text_of (segment p) ++ " segment")%string
            segments in
  let segments :=
    push_if (truthy (function p))
            ("from " ++ text_of (function p) ++ " perspective")%string segments in
  let segments :=
    push_if (truthy (geo p)) ("in " ++ text_of (geo p) ++ " region")%string segments in
  let segments :=
    push_if (truthy (extra_instruction c)) (text_of (extra_instruction c)) segments in
  let segments :=
    segments ++
    [match format params with
     | video => "focusing on visual storytelling and key messages"
     | podcast => "emphasizing conversational insights and context"
     | slides => "highlighting strategic takeaways and actionable insights"
     end] in
  join " " segments.

(** ** diversifyByTheme *)

Definition groups := obj (list RAGChunk).

Definition not_a_function : JsError :=
  new_TypeError "themeGroups[chunk.theme].push is not a function".

(** The grouping loop.  [themeGroups[chunk.theme]] is read through the
    prototype chain: a theme that names an inherited property finds a
    value that is truthy and has no [push]. *)
Fixpoint group_chunks (chunks : list RAGChunk) (themeGroups : groups)
  : completion groups :=
  match chunks with
  | [] => Returned themeGroups
  | chunk :: rest =>
      let themeGroups :=
        match get themeGroups (theme chunk) with
        | Undefined => set themeGroups (theme chunk) []
        | _ => themeGroups
        end in
      match get themeGroups (theme chunk) with
      | Own l => group_chunks rest (set themeGroups (theme chunk) (l ++ [chunk]))
      | _ => Thrown not_a_function
      end
  end.

(** [(a, b) => b.similarity - a.similarity] is not positive. *)
Definition by_similarity (a b : RAGChunk) : bool :=
  Qle_bool (similarity b) (similarity a).

Definition sort_groups (themeGroups : groups) : groups :=
  map (fun g => (fst g, sort by_similarity (snd g))) themeGroups.

Record selection := {
  result : list RAGChunk;
  themeKeys : list string;
  themeIndex : nat;
  themeGroups : groups
}.

Definition continue (limit : Z) (st : selection) : bool :=
  (Z.of_nat (List.length (result st)) <? limit)
  && negb (Nat.eqb (List.length (themeKeys st)) 0).

Definition remove_theme (st : selection) (res : list RAGChunk) (g : groups) : selection :=
  let themeKeys' := splice1 (themeIndex st) (themeKeys st) in
  {| result := res;
     themeKeys := themeKeys';
     themeIndex := if (List.length themeKeys' <=? themeIndex st)%nat
                   then O else themeIndex st;
     themeGroups := g |}.

Definition next_theme (st : selection) (res : list RAGChunk) (g : groups) : selection :=
  {| result := res;
     themeKeys := themeKeys st;
     themeIndex := (S (themeIndex st)) mod (List.length (themeKeys st));
     themeGroups := g |}.

(** One turn of the [while] body. *)
Definition turn (st : selection) : completion selection :=
  let theme := nth (themeIndex st) (themeKeys st) "undefined" in
  match get (themeGroups st) theme with
  | Own (chunk :: themeChunks) =>
      (* themeChunks.shift() works on the array held by the object *)
      let g := set (themeGroups st) theme themeChunks in
      let res := result st ++ [chunk] in
      match themeChunks with
      | [] => Returned (remove_theme st res g)
      | _ :: _ => Returned (next_theme st res g)
      end
  | Own [] => Returned (remove_theme st (result st) (themeGroups st))
  | Undefined => Returned (remove_theme st (result st) (themeGroups st))
  | Inherited (Some len) =>
      if 0 <? len
      then Thrown (new_TypeError "themeChunks.shift is not a function")
      else if len =? 0
           then Returned (remove_theme st (result st) (themeGroups st))
           else Returned (next_theme st (result st) (themeGroups st))
  | Inherited None => Returned (next_theme st (result st) (themeGroups st))
  end.

(** The [while] loop; [None] when [fuel] turns do not reach its end. *)
Fixpoint round_robin (fuel : nat) (limit : Z) (st : selection)
  : option (completion (list RAGChunk)) :=
  if continue limit st then
    match fuel with
    | O => None
    | S fuel' =>
        match turn st with
        | Returned st' => round_robin fuel' limit st'
        | Thrown e => Some (Thrown e)
        end
    end
  else Some (Returned (result st)).

(** Every turn on the state built by the grouping takes a chunk, so the
    loop ends within [length chunks] turns and the last branch is never
    taken (lemma [round_robin_ends]). *)
Definition diversifyByTheme (chunks : list RAGChunk) (limit : Z)
  : completion (list RAGChunk) :=
  match group_chunks chunks [] with
  | Thrown e => Thrown e
  | Returned themeGroups =>
      let themeGroups := sort_groups themeGroups in
      let st := {| result := [];
                   themeKeys := keys themeGroups;
                   themeIndex := O;
                   themeGroups := themeGroups |} in
      match round_robin (List.length chunks) limit st with
      | Some c => c
      | None => Returned []
      end
  end.

(** ** retrieveRelevantContext

    [embedding] is what [createEmbedding(query)] yields (the vector does
    not matter here) and [reply] what the similarity search answers. *)
Definition retrieveRelevantContext (params : RetrievalParams)
           (embedding : completion unit) (reply : RpcReply)
  : completion RAGContext :=
  let topK := match topK params with Some k => k | None => TOP_K_CHUNKS end in
  let query := buildSemanticQuery params in
  match embedding with
  | Thrown e => Thrown e
  | Returned _ =>
      match error reply with
      | Some m => Thrown (new_Error ("Failed to retrieve context: " ++ m)%string)
      | None =>
          match data reply with
          | None | Some [] =>
              Thrown (new_Error "No relevant content found for this query")
          | Some chunks =>
              match diversifyByTheme chunks topK with
              | Thrown e => Thrown e
              | Returned diversifiedChunks =>
                  Returned
                    {| chunks := diversifiedChunks;
                       query := query;
                       total_tokens :=
                         fold_left (fun sum chunk => sum + token_count chunk)
                                   diversifiedChunks 0 |}
              end
          end
      end
  end.

End Rag.

(* ================================================================== *)
(** * providers/openai.ts *)
(* ================================================================== *)

Module OpenAI.
Import Errors.

(** What [openai.chat.completions.create] yields, reduced to the content
    of the first choice ([None]: no choice, or a choice without
    content). *)
Definition create_reply : Type := completion (option string).

(** [chat(params)]: its [content]. *)
Definition chat (reply : create_reply) : completion string :=
  match reply with
  | Thrown e => Thrown e
  | Returned None => Thrown (new_Error "No content in OpenAI response")
  | Returned (Some content) =>
      if String.eqb content EmptyString
      then Thrown (new_Error "No content in OpenAI response")
      else Returned content
  end.

End OpenAI.

(* ================================================================== *)
(** * JSON.stringify *)
(* ================================================================== *)

Module JSON.
Import JsString Types.

Definition hex_digit (n : nat) : ascii :=
  if (n <? 10)%nat then ascii_of_nat (48 + n) else ascii_of_nat (87 + n).

Definition dquote : ascii := ascii_of_nat 34.
Definition backslash : ascii := ascii_of_nat 92.

(** QuoteJSONString, character by character. *)
Definition escape (c : ascii) : list ascii :=
  let n := code c in
  if (n =? 34)%nat then [backslash; dquote]
  else if (n =? 92)%nat then [backslash; backslash]
  else if (n =? 8)%nat then [backslash; "b"%char]
  else if (n =? 12)%nat then [backslash; "f"%char]
  else if (n =? 10)%nat then [backslash; "n"%char]
  else if (n =? 13)%nat then [backslash; "r"%char]
  else if (n =? 9)%nat then [backslash; "t"%char]
  else if (n <? 32)%nat
       then [backslash; "u"%char; "0"%char; "0"%char;
             hex_digit (n / 16); hex_digit (n mod 16)]
       else [c].

Definition quote (s : string) : string :=
  unchars ([dquote] ++ flat_map escape (chars s) ++ [dquote]).

(** Decimal text of an integer. *)
Definition decimal (n : Z) : string :=
  NilZero.string_of_int (Z.to_int n).

(** [JSON.stringify(v)] without indentation.  The fields of an object
    are its own properties, each name once, in property order. *)
Fixpoint stringify (v : Json) : string :=
  match v with
  | JNull => "null"
  | JBool true => "true"
  | JBool false => "false"
  | JNumber n => decimal n
  | JString s => quote s
  | JArray l => ("[" ++ join "," (map stringify l) ++ "]")%string
  | JObject fields =>
      ("{" ++ join "," (map (fun kv => let (k, x) := kv : string * Json in
                                       (quote k ++ ":" ++ stringify x)%string)
                            fields)
           ++ "}")%string
  end.

End JSON.

(* ================================================================== *)
(** * generation/guardrails.ts *)
(* ================================================================== *)

Module Guardrails.
Import JsString Regex Errors Types Constants OpenAI JSON.

(** [try { body } catch (error) { handler }] *)
Definition try_catch (A : Type) (body : completion A)
           (handler : JsError -> completion A) : completion A :=
  match body with
  | Returned a => Returned a
  | Thrown e => handler e
  end.

(** The [catch] clause shared by the three validators: a violation goes
    on, anything else is logged and dropped. *)
Definition allow_by_default (error : JsError) : completion unit :=
  if is_GuardrailViolation error then Thrown error else Returned tt.

(** The verdict read from a reply: [result.startsWith(tag)], and the text
    after the first [tag:]. *)
Definition verdict (tag fallback : string) (content : string) : completion unit :=
  let result := trim content in
  if startsWith result tag
  then Thrown (new_GuardrailViolation
                 (or_else (trim (replace_with_empty result (tag ++ ":")%string))
                          fallback))
  else Returned tt.

(** The call of the model with its [try]/[catch]: the reply is read, and
    whatever is thrown goes through the [catch] clause. *)
Definition second_stage (tag fallback : string) (reply : create_reply)
  : completion unit :=
  try_catch
    match chat reply with
    | Thrown e => Thrown e
    | Returned content => verdict tag fallback content
    end
    allow_by_default.

Definition validateExtraInstruction (instruction : option string)
           (classifier : create_reply) : completion unit :=
  match instruction with
  | None => Returned tt
  | Some text =>
      if String.eqb text EmptyString || Nat.eqb (String.length (trim text)) 0
      then Returned tt
      else
        second_stage "BLOCKED" "Instruction violates content policy" classifier
  end.

(** The first entry of [PROHIBITED_PATTERNS], in the order of the list,
    whose pattern is found in [text]. *)
Definition first_prohibited (text : string) : option ProhibitedPattern :=
  find (fun p => test (pattern p) text) PROHIBITED_PATTERNS.

Definition validatePlan (plan : Json) (validator : create_reply) : completion unit :=
  let planText := stringify plan in
  match first_prohibited planText with
  | Some p =>
      Thrown (new_GuardrailViolation
                ("Plan contains prohibited content: " ++ description p)%string)
  | None =>
      second_stage "VIOLATION" "Content policy violation" validator
  end.

Definition validateScript (script : string) (validator : create_reply)
  : completion unit :=
  match first_prohibited script with
  | Some p =>
      Thrown (new_GuardrailViolation
                ("Script contains prohibited content: " ++ description p)%string)
  | None =>
      second_stage "VIOLATION" "Content policy violation" validator
  end.

End Guardrails.

(* ================================================================== *)
(** * generation/planner.ts *)
(* ================================================================== *)

Module Planner.
Import JsString JsObject Errors Types OpenAI.

(** [plan.name]; [None] is [undefined]. *)
Definition member (plan : Json) (name : string) : completion (option Json) :=
  match plan with
  | JNull =>
      Thrown (new_TypeError
                ("Cannot read properties of null (reading '" ++ name ++ "')")%string)
  | JObject fields => Returned (assoc name fields)
  | _ => Returned None
  end.

(** [typeof v !== 'string' || v.length === 0] *)
Definition not_a_filled_string (v : option Json) : bool :=
  match v with
  | Some (JString s) => Nat.eqb (String.length s) 0
  | _ => true
  end.

(** [!Array.isArray(v) || v.length < 3] *)
Definition too_few_points (v : option Json) : bool :=
  match v with
  | Some (JArray l) => (List.length l <? 3)%nat
  | _ => true
  end.

Definition is_object (plan : Json) : bool :=
  match plan with
  | JArray _ | JObject _ => true
  | _ => false
  end.

Definition own (plan : Json) (name : string) : option Json :=
  match plan with
  | JObject fields => assoc name fields
  | _ => None
  end.

Definition validatePlanStructure (plan : Json) : completion unit :=
  if negb (is_object plan) then Thrown (new_Error "Plan must be an object")
  else if not_a_filled_string (own plan "title")
  then Thrown (new_Error "Plan must have a non-empty title")
  else if not_a_filled_string (own plan "hook")
  then Thrown (new_Error "Plan must have a non-empty hook")
  else if too_few_points (own plan "key_points")
  then Thrown (new_Error "Plan must have at least 3 key points")
  else if not_a_filled_string (own plan "framing")
  then Thrown (new_Error "Plan must have a non-empty framing")
  else if not_a_filled_string (own plan "cta")
  then Thrown (new_Error "Plan must have a non-empty CTA")
  else Returned tt.

(** The arguments of the [logger.info] call that follows the parse:
    [plan.title] and [plan.key_points.length]. *)
Definition log_plan (plan : Json) : completion unit :=
  match member plan "title" with
  | Thrown e => Thrown e
  | Returned _ =>
      match member plan "key_points" with
      | Thrown e => Thrown e
      | Returned None =>
          Thrown (new_TypeError
                    "Cannot read properties of undefined (reading 'length')")
      | Returned (Some JNull) =>
          Thrown (new_TypeError "Cannot read properties of null (reading 'length')")
      | Returned (Some _) => Returned tt
      end
  end.

Section Parse.
(** [JSON.parse]: the value read, or the SyntaxError thrown. *)
Variable JSON_parse : string -> completion Json.

Definition generateTakeawayPlan (reply : create_reply) : completion Json :=
  let body :=
    match chat reply with
    | Thrown e => Thrown e
    | Returned content =>
        match JSON_parse content with
        | Thrown e => Thrown e
        | Returned plan =>
            match log_plan plan with
            | Thrown e => Thrown e
            | Returned _ =>
                match validatePlanStructure plan with
                | Thrown e => Thrown e
                | Returned _ => Returned plan
                end
            end
        end
    end in
  match body with
  | Returned plan => Returned plan
  | Thrown error =>
      Thrown (new_Error ("Failed to generate takeaway plan: " ++ message error)%string)
  end.
End Parse.

End Planner.

(* ================================================================== *)
(** * generation/scriptGenerator.ts *)
(* ================================================================== *)

Module ScriptGenerator.
Import JsString Errors Types OpenAI.

Definition generateScript (reply : create_reply) : completion string :=
  match chat reply with
  | Returned content => Returned (trim content)
  | Thrown error =>
      Thrown (new_Error ("Failed to generate script: " ++ message error)%string)
  end.

End ScriptGenerator.

(* ================================================================== *)
(** * generation/orchestrator.ts *)
(* ================================================================== *)

Module Orchestrator.
Import JsString Errors Types Constants Retry OpenAI Rag Guardrails Planner
       ScriptGenerator.

(** The columns of a [generations] row that the orchestrator reads or
    writes ([updated_at] is left out).  The row of the run exists, and an
    update whose values fit the columns takes effect: the code does not
    look at what a query reports back. *)
Record Generation := {
  status : GenerationStatus;
  error_message : option string;
  retry_count : Z;
  rag_query : option string;
  rag_chunks_used : list string;
  takeaway_plan : option Json;
  script : option string
}.

(** The persisted run, with the record of the [status] values written
    to it, oldest first. *)
Record Store := {
  run : Generation;
  written : list GenerationStatus
}.

(** Stateful code that may throw. *)
Definition M (A : Type) : Type := Store -> Store * completion A.

Definition ret (A : Type) (a : A) : M A := fun s => (s, Returned a).
Definition throw (A : Type) (e : JsError) : M A := fun s => (s, Thrown e).
Definition bind (A B : Type) (m : M A) (f : A -> M B) : M B :=
  fun s =>
    match m s with
    | (s', Returned a) => f a s'
    | (s', Thrown e) => (s', Thrown e)
    end.
Definition catch (A : Type) (m : M A) (h : JsError -> M A) : M A :=
  fun s =>
    match m s with
    | (s', Returned a) => (s', Returned a)
    | (s', Thrown e) => h e s'
    end.
Arguments throw {A} e.

(** A call that does not touch the store. *)
Definition call (A : Type) (c : completion A) : M A := fun s => (s, c).
Definition select : M Generation := fun s => (s, Returned (run s)).
Definition update (f : Generation -> Generation) : M unit :=
  fun s => ({| run := f (run s); written := written s |}, Returned tt).
Definition update_status (st : GenerationStatus) (f : Generation -> Generation)
  : M unit :=
  fun s => ({| run := f (run s); written := written s ++ [st] |}, Returned tt).

Notation "x <- m ;; k" := (bind m (fun x => k))
  (at level 61, m at next level, right associativity).
Notation "m ;;; k" := (bind m (fun _ => k))
  (at level 61, right associativity).

Definition updateStatus (st : GenerationStatus) (message : option string) : M unit :=
  update_status st
    (fun g => {| status := st;
                 error_message := if truthy message then message else error_message g;
                 retry_count := retry_count g;
                 rag_query := rag_query g;
                 rag_chunks_used := rag_chunks_used g;
                 takeaway_plan := takeaway_plan g;
                 script := script g |}).

(** What an update gives for the column [retry_count]: a number or, as
    in [retryGeneration], the request that [supabase.rpc] builds.  The
    request is a value like any other: nothing awaits it, so it is never
    sent, and no function [increment] exists in the migrations. *)
Inductive count_value :=
| Number (n : Z)
| Request (fn : string) (x : Z).

Definition rpc (fn : string) (x : Z) : count_value := Request fn x.

(** An update of [status] and [retry_count].  The column [retry_count]
    is an INTEGER (supabase/migrations): it takes a number and nothing
    else.  An update is one statement, so a value that the column does
    not take leaves the whole row as it was, [status] included; the
    client reports this in the result it hands back and does not throw. *)
Definition update_counted (st : GenerationStatus) (count : count_value) : M unit :=
  match count with
  | Number n =>
      update_status st
        (fun g => {| status := st;
                     error_message := error_message g;
                     retry_count := n;
                     rag_query := rag_query g;
                     rag_chunks_used := rag_chunks_used g;
                     takeaway_plan := takeaway_plan g;
                     script := script g |})
  | Request _ _ => ret tt
  end.

(** [update({ status: 'queued', retry_count: supabase.rpc('increment',
    { x: 1 }) as any, ... })], its result dropped. *)
Definition retryGeneration : M unit :=
  update_counted queued (rpc "increment" 1).

Definition failGeneration (message : string) : M unit :=
  update_status failed
    (fun g => {| status := failed;
                 error_message := Some message;
                 retry_count := retry_count g;
                 rag_query := rag_query g;
                 rag_chunks_used := rag_chunks_used g;
                 takeaway_plan := takeaway_plan g;
                 script := script g |}).

Definition completeGeneration : M unit :=
  update_status completed
    (fun g => {| status := completed;
                 error_message := error_message g;
                 retry_count := retry_count g;
                 rag_query := rag_query g;
                 rag_chunks_used := rag_chunks_used g;
                 takeaway_plan := takeaway_plan g;
                 script := script g |}).

Definition store_context (context : RAGContext) : M unit :=
  update (fun g => {| status := status g;
                      error_message := error_message g;
                      retry_count := retry_count g;
                      rag_query := Some (query context);
                      rag_chunks_used := map id (chunks context);
                      takeaway_plan := takeaway_plan g;
                      script := script g |}).

Definition store_plan (plan : Json) : M unit :=
  update (fun g => {| status := status g;
                      error_message := error_message g;
                      retry_count := retry_count g;
                      rag_query := rag_query g;
                      rag_chunks_used := rag_chunks_used g;
                      takeaway_plan := Some plan;
                      script := script g |}).

Definition store_script (text : string) : M unit :=
  update (fun g => {| status := status g;
                      error_message := error_message g;
                      retry_count := retry_count g;
                      rag_query := rag_query g;
                      rag_chunks_used := rag_chunks_used g;
                      takeaway_plan := takeaway_plan g;
                      script := Some text |}).

Record GenerationParams := {
  user_profile : UserProfile;
  format : GenerationFormat;
  customization : GenerationCustomization
}.

(** What the collaborators answer during one call of
    [generateTakeaway], in the order they are asked. *)
Record Replies := {
  classifier : create_reply;          (* validateExtraInstruction *)
  embedding : completion unit;        (* createEmbedding *)
  search : RpcReply;                  (* match_transcript_chunks *)
  planner : create_reply;             (* generateTakeawayPlan *)
  plan_validator : create_reply;      (* validatePlan *)
  writer : create_reply;              (* generateScript *)
  script_validator : create_reply     (* validateScript *)
}.

Section Parse.
Variable JSON_parse : string -> completion Json.

(** The [try] block. *)
Definition pipeline (params : GenerationParams) (w : Replies) : M Generation :=
  updateStatus processing (Some "Validating input...") ;;;
  call (validateExtraInstruction (extra_instruction (customization params))
                                 (classifier w)) ;;;
  updateStatus processing (Some "Retrieving relevant content...") ;;;
  context <- call (retrieveRelevantContext
                     {| userProfile := user_profile params;
                        Rag.format := format params;
                        Rag.customization := customization params;
                        topK := None |}
                     (embedding w) (search w)) ;;
  store_context context ;;;
  updateStatus processing (Some "Creating takeaway plan...") ;;;
  plan <- call (generateTakeawayPlan JSON_parse (planner w)) ;;
  call (validatePlan plan (plan_validator w)) ;;;
  store_plan plan ;;;
  updateStatus processing (Some "Writing script...") ;;;
  text <- call (generateScript (writer w)) ;;
  call (validateScript text (script_validator w)) ;;;
  store_script text ;;;
  updateStatus rendering (Some "Preparing to render media...") ;;;
  select.

(** The [catch] block. *)
Definition on_error (error : JsError) : M Generation :=
  currentGeneration <- select ;;
  let retryCount := retry_count currentGeneration in
  if isRetriableError error && (retryCount <? MAX_RETRIES)
  then retryGeneration ;;;
       throw (new_GenerationError "Generation failed, retrying...")
  else failGeneration (message error) ;;;
       throw error.

Definition generateTakeaway (params : GenerationParams) (w : Replies)
  : M Generation :=
  catch (pipeline params w) on_error.

(** The run after successive calls of [generateTakeaway] for it,
    [attempts] being the replies of the calls. *)
Definition rerun (params : GenerationParams) (attempts : list Replies)
           (s : Store) : Store :=
  fold_left (fun s w => fst (generateTakeaway params w s)) attempts s.
End Parse.

End Orchestrator.

(* ================================================================== *)
(** * Vocabulary of the statements *)
(* ================================================================== *)

Module Statements.
Import JsString JsObject Regex Constants Errors Retry Types Rag Planner Orchestrator.

(** Nothing but a [GuardrailViolation] is thrown. *)
Definition only_violation (A : Type) (c : completion A) : Prop :=
  match c with
  | Returned _ => True
  | Thrown e => cls e = GuardrailViolation
  end.

(** The text holds a match of each of the five prohibited categories. *)
Definition holds_every_category (content : string) : Prop :=
  forall p, In p PROHIBITED_PATTERNS -> test (pattern p) content = true.

(** The text holds a match of none of them. *)
Definition clean (content : string) : Prop :=
  forall p, In p PROHIBITED_PATTERNS -> test (pattern p) content = false.

(** The topics of a list of chunks, with and without repetition. *)
Definition themes (l : list RAGChunk) : list string := map theme l.
Definition topics (l : list RAGChunk) : list string := nodup string_dec (themes l).
Definition ntopics (l : list RAGChunk) : nat := List.length (topics l).

(** The distinct elements of a list in the order they are first seen. *)
Definition see (seen : list string) (t : string) : list string :=
  if in_dec string_dec t seen then seen else seen ++ [t].
Definition first_seen (l : list string) : list string := fold_left see l [].

(** The naive cut: the first [topK] candidates of the search. *)
Definition naive_cut (candidates : list RAGChunk) (topK : Z) : list RAGChunk :=
  firstn (Z.to_nat topK) candidates.

(** No topic names something a plain object inherits. *)
Definition plain_labels (l : list RAGChunk) : Prop :=
  forall c, In c l -> inherited (theme c) = false.

(** No topic is an array index. *)
Definition no_index_labels (l : list RAGChunk) : Prop :=
  forall c, In c l -> is_index (theme c) = false.

(** The number of chunks held by the groups of an object. *)
Definition held (g : groups) : nat := List.length (List.concat (map snd g)).

(** The order in which [Object.keys] lists the groups of the candidates:
    the topics that are array indices in ascending order, then the
    other topics as first seen. *)
Definition key_order (candidates : list RAGChunk) : list string :=
  let seen := first_seen (themes candidates) in
  sort index_first (filter is_index seen)
  ++ filter (fun k => negb (is_index k)) seen.

(** Groups as the grouping loop leaves them: one group per topic, none
    empty, each holding chunks of its topic only. *)
Definition of_topic (kg : string * list RAGChunk) : Prop :=
  snd kg <> [] /\ Forall (fun c => theme c = fst kg) (snd kg).

Definition grouped (g : groups) : Prop :=
  NoDup (map fst g) /\ Forall of_topic g.

(** The selection state while the first pass over the topics lasts:
    the topics taken so far and the topics still to come make up the
    initial keys; the index stands at the next topic to come. *)
Definition first_round (keys0 : list string) (st : selection) : Prop :=
  exists pre post,
    post <> [] /\ themeKeys st = pre ++ post
    /\ themeIndex st = List.length pre
    /\ themes (result st) ++ post = keys0.

(** ... and once every topic has been taken from. *)
Definition saturated (keys0 : list string) (st : selection) : Prop :=
  exists more, themes (result st) = keys0 ++ more.

(** The invariant of the selection loop. *)
Definition selecting (keys0 : list string) (candidates : list RAGChunk)
           (st : selection) : Prop :=
  NoDup (themeKeys st)
  /\ (themeKeys st <> [] -> (themeIndex st < List.length (themeKeys st))%nat)
  /\ (forall k, In k (themeKeys st) ->
                exists c g, assoc k (themeGroups st) = Some (c :: g)
                            /\ Forall (fun x => theme x = k) (c :: g))
  /\ NoDup (map fst (themeGroups st))
  /\ (forall k g, assoc k (themeGroups st) = Some g -> g <> [] ->
                  In k (themeKeys st))
  /\ (first_round keys0 st \/ saturated keys0 st)
  /\ Permutation (result st ++ List.concat (map snd (themeGroups st))) candidates.

(** What the loop hands back. *)
Definition selected (keys0 : list string) (candidates : list RAGChunk)
           (limit : Z) (out : list RAGChunk) : Prop :=
  (limit <= Z.of_nat (List.length out)
   \/ (Permutation out candidates /\ (List.length keys0 <= List.length out)%nat))
  /\ firstn (List.length keys0) (themes out) = firstn (List.length out) keys0
  /\ exists rest, Permutation (out ++ rest) candidates.

(** Every attempt throws an error that isRetriableError accepts. *)
Definition keeps_failing (parse : string -> completion Json)
           (params : GenerationParams) (attempts : list Replies) : Prop :=
  forall w, In w attempts ->
            forall s, exists s' e, pipeline parse params w s = (s', Thrown e)
                                   /\ isRetriableError e = true.

(** The [status] values written between two stores. *)
Definition writes_of (s s' : Store) : list GenerationStatus :=
  skipn (List.length (written s)) (written s').

(** The replies agree on all that is asked before the plan is checked. *)
Definition same_until_plan (w1 w2 : Replies) : Prop :=
  classifier w1 = classifier w2 /\ embedding w1 = embedding w2
  /\ search w1 = search w2 /\ planner w1 = planner w2.

(** What validatePlanStructure lets through: an object whose title, hook,
    framing and cta are non-empty strings and whose key_points is an
    array of three elements or more. *)
Definition filled (plan : Json) (name : string) : Prop :=
  exists text, own plan name = Some (JString text) /\ text <> EmptyString.

Definition structure_checked (plan : Json) : Prop :=
  is_object plan = true
  /\ filled plan "title" /\ filled plan "hook"
  /\ filled plan "framing" /\ filled plan "cta"
  /\ exists points, own plan "key_points" = Some (JArray points)
                    /\ (3 <= List.length points)%nat.

(** The structural invariant in the words of the specification: all
    fields non-empty, 3 to 5 key points, a title of 60 characters at
    most. *)
Definition spec_plan_invariant (plan : Json) : Prop :=
  filled plan "title" /\ filled plan "hook"
  /\ filled plan "framing" /\ filled plan "cta"
  /\ (exists points, own plan "key_points" = Some (JArray points)
                     /\ (3 <= List.length points <= 5)%nat)
  /\ (exists title, own plan "title" = Some (JString title)
                    /\ (String.length title <= 60)%nat).

End Statements.

(* ================================================================== *)
(** * Sample inputs *)
(* ================================================================== *)

Module Examples.
Import Errors Types Rag Orchestrator.

Definition chunk (i t : string) (score : Q) : RAGChunk :=
  {| id := i; transcript_id := "keynote"; theme := t;
     content := "Our customers renewed because onboarding took days, not months.";
     token_count := 420; similarity := score |}.

Definition candidates : list RAGChunk :=
  [ chunk "c1" "Customer Success" 0.93;
    chunk "c2" "Customer Success" 0.91;
    chunk "c3" "Product Innovation" 0.88;
    chunk "c4" "Customer Success" 0.86;
    chunk "c5" "Market Strategy" 0.84;
    chunk "c6" "Team Culture" 0.80 ].

Definition profile : UserProfile :=
  {| user_id := "u-17"; role := Some "Product Manager";
     segment := Some "Enterprise"; geo := None; function := None |}.

Definition custom : GenerationCustomization :=
  {| language := "en"; tone := professional; length := medium;
     extra_instruction := None |}.

Definition params : GenerationParams :=
  {| user_profile := profile; Orchestrator.format := video;
     Orchestrator.customization := custom |}.

Definition plan_of (title : string) (points : list string) : Json :=
  JObject
    [ ("title", JString title);
      ("hook", JString "What if onboarding took days, not months?");
      ("key_points", JArray (map JString points));
      ("framing", JString "Position speed of adoption as the lever for renewals.");
      ("cta", JString "Browse the board and upvote the takeaway you will reuse.") ].

Definition good_plan : Json :=
  plan_of "Three moves for enterprise product managers"
          ["Shorten onboarding"; "Listen to renewals"; "Share what works"].

Definition wide_plan : Json :=
  plan_of "Six moves that every enterprise product manager should bring to the next planning cycle"
          ["One"; "Two"; "Three"; "Four"; "Five"; "Six"].

Definition thin_plan : Json :=
  plan_of "Two moves" ["One"; "Two"].

(** A stand-in for [JSON.parse] that knows three replies by name. *)
Definition parse (content : string) : completion Json :=
  if String.eqb content "good plan" then Returned good_plan
  else if String.eqb content "wide plan" then Returned wide_plan
  else if String.eqb content "thin plan" then Returned thin_plan
  else Thrown {| cls := Foreign "SyntaxError";
                 message := "Unexpected token in JSON at position 0" |}.

Definition found : RpcReply := {| data := Some candidates; error := None |}.


(** One candidate, whose topic names what every object inherits. *)
Definition odd_topic : RpcReply :=
  {| data := Some [chunk "k1" "constructor" 0.93]; error := None |}.

Definition odd : Replies :=
  {| classifier := Returned (Some "ALLOWED");
     embedding := Returned tt;
     search := odd_topic;
     planner := Returned (Some "good plan");
     plan_validator := Returned (Some "APPROVED");
     writer := Returned (Some "Three ideas to bring to your next customer call.");
     script_validator := Returned (Some "APPROVED") |}.

Definition happy : Replies :=
  {| classifier := Returned (Some "ALLOWED");
     embedding := Returned tt;
     search := found;
     planner := Returned (Some "good plan");
     plan_validator := Returned (Some "APPROVED");
     writer := Returned (Some "  Three ideas to bring to your next customer call. ");
     script_validator := Returned (Some "APPROVED") |}.

(** The embedding provider is out of quota. *)
Definition rate_limited : Replies :=
  {| classifier := Returned (Some "ALLOWED");
     embedding := Thrown {| cls := Foreign "RateLimitError";
                            message := "429 Rate limit reached for requests" |};
     search := found;
     planner := Returned (Some "good plan");
     plan_validator := Returned (Some "APPROVED");
     writer := Returned (Some "Three ideas to bring to your next customer call.");
     script_validator := Returned (Some "APPROVED") |}.

(** The plan validator objects, and its words hold the number 500. *)
Definition flagged : Replies :=
  {| classifier := Returned (Some "ALLOWED");
     embedding := Returned tt;
     search := found;
     planner := Returned (Some "good plan");
     plan_validator := Returned (Some "VIOLATION: states a revenue of 500 million");
     writer := Returned (Some "Three ideas to bring to your next customer call.");
     script_validator := Returned (Some "APPROVED") |}.

(** The plan validator objects, in other words. *)
Definition rejected : Replies :=
  {| classifier := Returned (Some "ALLOWED");
     embedding := Returned tt;
     search := found;
     planner := Returned (Some "good plan");
     plan_validator := Returned (Some "VIOLATION: makes a legal commitment");
     writer := Returned (Some "Three ideas to bring to your next customer call.");
     script_validator := Returned (Some "APPROVED") |}.

Definition fresh_run : Generation :=
  {| status := queued; error_message := None; retry_count := 0;
     rag_query := None; rag_chunks_used := []; takeaway_plan := None;
     script := None |}.

Definition fresh : Store := {| run := fresh_run; written := [] |}.

End Examples.

(* ================================================================== *)
(** * utils/retry.ts: retryWithBackoff *)
(* ================================================================== *)

Module RetryBackoff.
Import Errors Retry.

Record RetryOptions := {
  maxRetries : option Z;
  initialDelay : option Z;
  maxDelay : option Z;
  backoffMultiplier : option Z;
  onRetry : option (JsError -> Z -> completion unit)
}.

(** A destructuring default: [{ x = d } = options]. *)
Definition given (A : Type) (x : option A) (d : A) : A :=
  match x with Some v => v | None => d end.

(** What retryWithBackoff does that can be seen from outside, in order. *)
Inductive event : Type :=
| Called (attempt : Z)                      (* fn() in the turn [attempt] *)
| Notified (error : JsError) (attempt : Z)  (* onRetry(lastError, attempt + 1) *)
| Slept (ms : Z).                           (* sleep(delay) *)

(** How the promise settles; [throw lastError!] before any error was
    caught throws [undefined]. *)
Inductive settlement (T : Type) : Type :=
| Resolved (value : T)
| Rejected (error : JsError)
| RejectedUndefined.

Arguments Resolved {T} value.
Arguments Rejected {T} error.
Arguments RejectedUndefined {T}.

Section Loop.
Variable T : Type.
(** What [fn()] yields in each turn of the loop. *)
Variable fn : Z -> completion T.
Variable options : RetryOptions.

Definition notify (error : JsError) (attempt : Z) : list event * completion unit :=
  match onRetry options with
  | Some callback => ([Notified error attempt], callback error attempt)
  | None => ([], Returned tt)
  end.

(** The [for] loop with [turns] turns left: [attempt <= maxRetries]
    holds while there are turns. *)
Fixpoint attempts (turns : nat) (attempt delay : Z) (lastError : option JsError)
  : list event * settlement T :=
  match turns with
  | O => ([], match lastError with
              | Some error => Rejected error
              | None => RejectedUndefined
              end)
  | S turns' =>
      match fn attempt with
      | Returned value => ([Called attempt], Resolved value)
      | Thrown error =>
          if attempt =? given (maxRetries options) 3
          then ([Called attempt], Rejected error)
          else if negb (isRetriableError error)
          then ([Called attempt], Rejected error)
          else
            match notify error (attempt + 1) with
            | (seen, Thrown thrown) => (Called attempt :: seen, Rejected thrown)
            | (seen, Returned _) =>
                let (later, settled) :=
                  attempts turns' (attempt + 1)
                           (Z.min (delay * given (backoffMultiplier options) 2)
                                  (given (maxDelay options) 10000))
                           (Some error) in
                (Called attempt :: seen ++ Slept delay :: later, settled)
            end
      end
  end.

Definition retryWithBackoff : list event * settlement T :=
  attempts (Z.to_nat (given (maxRetries options) 3 + 1)) 0
           (given (initialDelay options) 1000) None.

End Loop.

(** The turns in which [fn] was called, and the waits. *)
Definition calls (trace : list event) : list Z :=
  flat_map (fun ev => match ev with Called n => [n] | _ => [] end) trace.
Definition waits (trace : list event) : list Z :=
  flat_map (fun ev => match ev with Slept ms => [ms] | _ => [] end) trace.

(** The delay before the retry number [n + 1]. *)
Fixpoint backoff (options : RetryOptions) (n : nat) : Z :=
  match n with
  | O => given (initialDelay options) 1000
  | S n' => Z.min (backoff options n' * given (backoffMultiplier options) 2)
                  (given (maxDelay options) 10000)
  end.

End RetryBackoff.

(* ================================================================== *)
(** * providers/openai.ts: estimateTokenCount and chunkText *)
(* ================================================================== *)

Module Chunking.
Import JsString.

(** [Math.ceil(text.length / 4)] *)
Definition estimateTokenCount (text : string) : Z :=
  - ((- Z.of_nat (String.length text)) / 4).

(** [text.split(/\s+/)]: the pieces between the runs of white space; a
    text that begins or ends with white space has an empty first or
    last piece.  [inside] tells that a run of white space is being
    skipped, [word] holds the piece read so far, last character first. *)
Fixpoint split_spaces (inside : bool) (word : list ascii) (s : list ascii)
  : list string :=
  match s with
  | [] => [unchars (rev word)]
  | c :: s' =>
      if is_space c
      then if inside then split_spaces true word s'
           else unchars (rev word) :: split_spaces true [] s'
      else split_spaces false (c :: word) s'
  end.

Definition words (text : string) : list string :=
  split_spaces false [] (chars text).

(** [l.slice(start)] *)
Definition slice (A : Type) (start : Z) (l : list A) : list A :=
  let len := Z.of_nat (List.length l) in
  let from := if start <? 0 then Z.max (len + start) 0 else Z.min start len in
  skipn (Z.to_nat from) l.

(** The variables of the loop. *)
Record chunking := {
  chunks : list string;
  currentChunk : list string;
  currentTokens : Z
}.

(** The body of the [for] loop. *)
Definition add_word (maxTokens overlapTokens : Z) (st : chunking) (word : string)
  : chunking :=
  let wordTokens := estimateTokenCount word in
  let st :=
    if (maxTokens <? currentTokens st + wordTokens)
       && (0 <? List.length (currentChunk st))%nat
    then
      let overlapWords := overlapTokens / 4 in     (* Math.floor *)
      let kept := slice (- overlapWords) (currentChunk st) in
      {| chunks := chunks st ++ [join " " (currentChunk st)];
         currentChunk := kept;
         currentTokens := estimateTokenCount (join " " kept) |}
    else st in
  {| chunks := chunks st;
     currentChunk := currentChunk st ++ [word];
     currentTokens := currentTokens st + wordTokens |}.

Definition chunkText (text : string) (maxTokens overlapTokens : option Z)
  : list string :=
  let maxTokens := match maxTokens with Some n => n | None => 500 end in
  let overlapTokens := match overlapTokens with Some n => n | None => 50 end in
  let st := fold_left (add_word maxTokens overlapTokens) (words text)
                      {| chunks := []; currentChunk := []; currentTokens := 0 |} in
  if (0 <? List.length (currentChunk st))%nat
  then chunks st ++ [join " " (currentChunk st)]
  else chunks st.

End Chunking.

(* ================================================================== *)
(** * utils/logger.ts: shouldLog *)
(* ================================================================== *)

Module Logger.
Import JsString JsObject.

Inductive LogLevel := debug | info | warn | error.

Definition level_text (level : LogLevel) : string :=
  match level with
  | debug => "debug" | info => "info" | warn => "warn" | error => "error"
  end.

(** [process.env.LOG_LEVEL || 'info'] *)
Definition LOG_LEVEL (env : option string) : string :=
  match env with
  | Some v => or_else v "info"
  | None => "info"
  end.

Definition LEVEL_PRIORITY : obj Z :=
  [ ("debug", 0); ("info", 1); ("warn", 2); ("error", 3) ].

(** [LEVEL_PRIORITY[level] >= LEVEL_PRIORITY[LOG_LEVEL]]: a comparison
    of a number with [undefined], or with what a plain object inherits,
    is false. *)
Definition shouldLog (env : option string) (level : LogLevel) : bool :=
  match get LEVEL_PRIORITY (level_text level), get LEVEL_PRIORITY (LOG_LEVEL env) with
  | Own a, Own b => b <=? a
  | _, _ => false
  end.

End Logger.

(* ================================================================== *)
(** * Route handlers: what they throw and what they answer *)
(* ================================================================== *)

Module Api.
Import Errors.

(** What is thrown inside a route handler: an error of one of the
    classes of utils/errors.ts that the handlers test with [instanceof],
    or anything else. *)
Inductive raised : Type :=
| UnauthorizedError (message : string)
| NotFoundError (message : string)
| ValidationError (message : string)
| InsufficientCreditsError (required available : Z)
| Other (e : JsError).

Inductive outcome (A : Type) : Type :=
| Done (a : A)
| Raise (e : raised).

Arguments Done {A} a.
Arguments Raise {A} e.

(** [NextResponse.json(body, { status })]: the status, and the [error]
    text of the body when it has one. *)
Record Response := {
  code : Z;
  error_text : option string
}.

(** The answer of a supabase query: [{ data, error }], the error by its
    message. *)
Record Answer (A : Type) := {
  data : option A;
  error : option string
}.

End Api.

(* ================================================================== *)
(** * credits/manager.ts *)
(* ================================================================== *)

Module Credits.
Import JsObject Errors Types Api.

Definition COST_PER_GENERATION : Z := 1.

(** [getUserCredits]: the [credits_remaining] of the row, [None]
    ([null]) when the query fails. *)
Definition getUserCredits (row : Answer Z) : option Z :=
  match error row with
  | Some _ => None
  | None => data row
  end.

(** [deductCredits(userId, amount)], [rpc] being the answer of the
    remote procedure deduct_credits and [row] the answer to the query of
    getUserCredits.  The [catch] clause throws on whatever it caught. *)
Definition deductCredits (amount : Z) (rpc : Answer bool) (row : Answer Z)
  : outcome bool :=
  match error rpc with
  | Some m => Raise (Other (new_Error ("Failed to deduct credits: " ++ m)%string))
  | None =>
      match data rpc with
      | Some true => Done true
      | _ =>
          let profile := getUserCredits row in
          Raise (InsufficientCreditsError
                   amount
                   (match profile with Some credits => credits | None => 0 end))
      end
  end.

(** [flags?.generation_enabled !== false] *)
Definition enabled_flag (flags : Json) : bool :=
  match flags with
  | JObject fields =>
      match assoc "generation_enabled" fields with
      | Some (JBool false) => false
      | _ => true
      end
  | _ => true
  end.

(** [isGenerationEnabled()], [row] being the answer to the query of the
    feature_flags row of app_config: its [value]. *)
Definition isGenerationEnabled (row : Answer Json) : outcome bool :=
  match error row with
  | Some _ => Done true
  | None =>
      match data row with
      | None =>
          Raise (Other (new_TypeError
                          "Cannot read properties of null (reading 'value')"))
      | Some flags => Done (enabled_flag flags)
      end
  end.

End Credits.

(* ================================================================== *)
(** * app/api/generate/route.ts *)
(* ================================================================== *)

Module GenerateRoute.
Import Errors Types Rag Api Credits.

(** The request body after [generateRequestSchema.parse]. *)
Record Validated := {
  format : GenerationFormat;
  presenter_id : option string;
  language : string;
  tone : TonePreset;
  length : LengthPreset;
  extra_instruction : option string
}.

(** What the handler is told while it runs, in the order it asks:
    the e-mail address of the session, the row of the user (its id), the
    feature flags, the body of the request and what the schema makes of
    it, the answers to the deduction of credits and to the insertion of
    the run (its id).  [schema] throws what zod throws, which is not an
    error of utils/errors.ts. *)
Record Request := {
  session : completion (option string);
  userProfile : Answer string;
  flags : Answer Json;
  body : completion Json;
  schema : Json -> completion Validated;
  deduction : Answer bool;
  balance : Answer Z;
  insertion : Answer string
}.

(** What the handler has done to the outside. *)
Inductive effect : Type :=
| DeductCredits (user : string) (amount : Z)
| InsertGeneration (user : string) (request : Validated)
| StartProcessing (generation_id : string).

Definition is_some (A : Type) (x : option A) : bool :=
  match x with Some _ => true | None => false end.

(** The [try] block of POST. *)
Definition handle (req : Request) : list effect * outcome Response :=
  match session req with
  | Thrown e => ([], Raise (Other e))
  | Returned email =>
      if negb (truthy email)
      then ([], Raise (UnauthorizedError "Authentication required"))
      else
        match error (userProfile req), data (userProfile req) with
        | None, Some user =>
            match isGenerationEnabled (flags req) with
            | Raise e => ([], Raise e)
            | Done false =>
                ([], Done {| code := 503;
                             error_text := Some "Generation is temporarily disabled" |})
            | Done true =>
                match body req with
                | Thrown e => ([], Raise (Other e))
                | Returned json =>
                    match schema req json with
                    | Thrown e => ([], Raise (Other e))
                    | Returned validated =>
                        match deductCredits 1 (deduction req) (balance req) with
                        | Raise e => ([DeductCredits user 1], Raise e)
                        | Done false =>
                            ([DeductCredits user 1],
                             Done {| code := 402;
                                     error_text := Some "Insufficient credits" |})
                        | Done true =>
                            match error (insertion req), data (insertion req) with
                            | None, Some generation_id =>
                                ([DeductCredits user 1;
                                  InsertGeneration user validated;
                                  StartProcessing generation_id],
                                 Done {| code := 200; error_text := None |})
                            | _, _ =>
                                ([DeductCredits user 1; InsertGeneration user validated],
                                 Raise (Other (new_Error "Failed to create generation")))
                            end
                        end
                    end
                end
            end
        | _, _ => ([], Raise (UnauthorizedError "User profile not found"))
        end
  end.

(** POST: the [try] block and the [catch] clause. *)
Definition POST (req : Request) : list effect * Response :=
  let (effects, result) := handle req in
  (effects,
   match result with
   | Done response => response
   | Raise (ValidationError m) => {| code := 400; error_text := Some m |}
   | Raise (UnauthorizedError m) => {| code := 401; error_text := Some m |}
   | Raise _ => {| code := 500; error_text := Some "Internal server error" |}
   end).

End GenerateRoute.

(* ================================================================== *)
(** * app/api/render/[id]/route.ts *)
(* ================================================================== *)

Module RenderRoute.
Import JsString Errors Types Rag Orchestrator Api.

(** What the handler is told: the e-mail address of the session, the
    row of the user, whether the run exists and belongs to the user, the
    format of the run, and how the rendering and the upload of the media
    end.  The run itself is the stored one. *)
Record Request := {
  generationId : string;
  session : completion (option string);
  userProfile : option string;
  owned : bool;
  format : GenerationFormat;
  media : completion unit
}.

(** The message of [new NotFoundError(resource, id)]. *)
Definition not_found (resource id : string) : string :=
  (resource ++ " not found"
            ++ if String.eqb id EmptyString then EmptyString else ": " ++ id)%string.

Definition status_text (st : GenerationStatus) : string :=
  match st with
  | queued => "queued" | processing => "processing" | rendering => "rendering"
  | completed => "completed" | failed => "failed"
  end.

Section Parse.
Variable JSON_parse : string -> completion Json.

(** The inner [try] block. *)
Definition render_media (req : Request) (text : string) : M unit :=
  updateStatus rendering (Some "Rendering media...") ;;;
  call (match format req with
        | slides =>
            match JSON_parse text with
            | Thrown e => Thrown e
            | Returned _ => media req
            end
        | _ => media req
        end) ;;;
  completeGeneration.

(** The outer [try] block. *)
Definition handle (req : Request) (s : Store) : Store * outcome Response :=
  match session req with
  | Thrown e => (s, Raise (Other e))
  | Returned email =>
      if negb (truthy email)
      then (s, Raise (UnauthorizedError "Authentication required"))
      else
        match userProfile req with
        | None => (s, Raise (UnauthorizedError "User profile not found"))
        | Some _ =>
            if negb (owned req)
            then (s, Raise (NotFoundError (not_found "Generation" (generationId req))))
            else
              let generation := run s in
              match status generation with
              | rendering =>
                  if negb (truthy (script generation))
                  then (s, Done {| code := 400;
                                   error_text :=
                                     Some "No script available for rendering" |})
                  else
                    match render_media req (text_of (script generation)) s with
                    | (s', Returned _) =>
                        (s', Done {| code := 200; error_text := None |})
                    | (s', Thrown renderError) =>
                        (fst (failGeneration
                                ("Rendering failed: " ++ message renderError)%string s'),
                         Raise (Other renderError))
                    end
              | st =>
                  (s, Done {| code := 400;
                              error_text :=
                                Some ("Generation is not ready for rendering (status: "
                                        ++ status_text st ++ ")")%string |})
              end
        end
  end.

(** POST: the outer [try] block and its [catch] clause. *)
Definition POST (req : Request) (s : Store) : Store * Response :=
  let (s', result) := handle req s in
  (s',
   match result with
   | Done response => response
   | Raise (UnauthorizedError m) => {| code := 401; error_text := Some m |}
   | Raise (NotFoundError m) => {| code := 404; error_text := Some m |}
   | Raise _ => {| code := 500; error_text := Some "Internal server error" |}
   end).

End Parse.

End RenderRoute.

(* ================================================================== *)
(** * providers/{sieve,gamma,heygen}.ts: polling for the media *)
(* ================================================================== *)

Module Polling.
Import JsString Errors Rag JSON.

(** [new MediaRenderError(message, provider)] *)
Definition new_MediaRenderError (m : string) : JsError :=
  {| cls := Foreign "MediaRenderError"; message := m |}.

(** What one status check finds: the request or the reading of its
    answer throws; the answer is not ok; or the answer holds a status
    and, where the code looks for it, the URL of the media. *)
Inductive reply : Type :=
| Failed (e : JsError)
| NotOk (status : Z)
| Job (status : option string) (url : option string).

(** Where the three polling loops differ. *)
Record service := {
  maxAttempts : nat;
  pollInterval : Z;
  finished : list string;          (* the statuses that end the job well *)
  broken : list string;            (* ... and badly *)
  check_failed : string;
  no_url : string;
  job_failed : string;
  timed_out : string
}.

(** pollForVideoCompletion of providers/sieve.ts *)
Definition sieve : service :=
  {| maxAttempts := 60;
     pollInterval := 5000;
     finished := ["finished"; "completed"];
     broken := ["failed"; "error"];
     check_failed := "Sieve status check failed: ";
     no_url := "No video URL in completed response";
     job_failed := "Sieve video generation failed";
     timed_out := "Sieve video generation timeout (5 minutes)" |}.

(** pollForSlidesCompletion of providers/gamma.ts *)
Definition gamma : service :=
  {| maxAttempts := 40;
     pollInterval := 3000;
     finished := ["completed"; "ready"];
     broken := ["failed"; "error"];
     check_failed := "Gamma status check failed: ";
     no_url := "No slides URL in completed response";
     job_failed := "Gamma slides generation failed";
     timed_out := "Gamma slides generation timeout (2 minutes)" |}.

(** pollForAudioCompletion of providers/heygen.ts *)
Definition heygen : service :=
  {| maxAttempts := 60;
     pollInterval := 3000;
     finished := ["completed"];
     broken := ["failed"];
     check_failed := "HeyGen status check failed: ";
     no_url := "No audio URL in completed response";
     job_failed := "HeyGen audio generation failed";
     timed_out := "HeyGen audio generation timeout (3 minutes)" |}.

Definition is_one_of (status : option string) (l : list string) : bool :=
  match status with
  | Some s => existsb (String.eqb s) l
  | None => false
  end.

Inductive event : Type :=
| Checked (attempt : Z)
| Slept (ms : Z).

Section Loop.
Variable svc : service.
(** What the status check of each turn finds. *)
Variable replies : Z -> reply.

(** The [try] block of a turn: the URL when it returns one, [None] when
    it falls through to its [sleep]. *)
Definition check (attempt : Z) : completion (option string) :=
  match replies attempt with
  | Failed e => Thrown e
  | NotOk status => Thrown (new_Error (check_failed svc ++ decimal status)%string)
  | Job status url =>
      if is_one_of status (finished svc)
      then if truthy url then Returned url
           else Thrown (new_MediaRenderError (no_url svc))
      else if is_one_of status (broken svc)
           then Thrown (new_MediaRenderError (job_failed svc))
           else Returned None
  end.

(** The [for] loop with [turns] turns left. *)
Fixpoint poll (turns : nat) (attempt : Z) : list event * completion string :=
  match turns with
  | O => ([], Thrown (new_MediaRenderError (timed_out svc)))
  | S turns' =>
      match check attempt with
      | Returned (Some url) => ([Checked attempt], Returned url)
      | Returned None =>
          let (later, settled) := poll turns' (attempt + 1) in
          (Checked attempt :: Slept (pollInterval svc) :: later, settled)
      | Thrown error =>
          if attempt =? Z.of_nat (maxAttempts svc) - 1
          then ([Checked attempt], Thrown error)
          else
            let (later, settled) := poll turns' (attempt + 1) in
            (Checked attempt :: Slept (pollInterval svc) :: later, settled)
      end
  end.

Definition pollForCompletion : list event * completion string :=
  poll (maxAttempts svc) 0.

End Loop.

Definition pollForVideoCompletion := pollForCompletion sieve.
Definition pollForSlidesCompletion := pollForCompletion gamma.
Definition pollForAudioCompletion := pollForCompletion heygen.

Definition checks (trace : list event) : nat :=
  List.length (filter (fun ev => match ev with Checked _ => true | _ => false end) trace).
Definition slept (trace : list event) : Z :=
  fold_right (fun ev total => match ev with Slept ms => ms + total | _ => total end)
             0 trace.

End Polling.

(* ================================================================== *)
(** * Vocabulary of the further properties *)
(* ================================================================== *)

Module Behaviour.
Import JsString JsObject Regex Errors Types Rag.

(** The chunks of one topic, and how many a list holds. *)
Definition of_theme (k : string) (c : RAGChunk) : bool := String.eqb (theme c) k.
Definition share (k : string) (l : list RAGChunk) : nat :=
  List.length (filter (of_theme k) l).

(** The group that an object holds for a topic: empty when it has none. *)
Definition group_of (k : string) (g : groups) : list RAGChunk :=
  match assoc k g with Some l => l | None => [] end.

(** No chunk stands before one of higher similarity. *)
Definition descending (l : list RAGChunk) : Prop :=
  StronglySorted (fun a b => Qle (similarity b) (similarity a)) l.

(** The chunks taken from each topic so far, followed by the chunks its
    group still holds, are the candidates of the topic in sorted order. *)
Definition ranked (candidates : list RAGChunk) (st : selection) : Prop :=
  forall k, filter (of_theme k) (result st) ++ group_of k (themeGroups st)
            = sort by_similarity (filter (of_theme k) candidates).

(** The round of the selection: the topics before the index have given
    one chunk more than the topics from the index on, and a topic that
    left the keys has not given more than those. *)
Definition balanced (st : selection) : Prop :=
  exists r : nat,
    (forall p k, nth_error (themeKeys st) p = Some k ->
                 share k (result st) = if (p <? themeIndex st)%nat then S r else r)
    /\ (forall k, ~ In k (themeKeys st) -> (share k (result st) <= S r)%nat).

(** A list of words that stands, as it is, somewhere in another. *)
Definition run_of (ws all : list string) : Prop :=
  exists before after, all = before ++ ws ++ after.

(** Each list of words but the first begins with the last words of the
    list before it, as [slice(-overlapWords)] keeps them, and goes on
    with one new word or more. *)
Fixpoint chained (overlapTokens : Z) (wss : list (list string)) : Prop :=
  match wss with
  | a :: (b :: _) as rest =>
      (exists new, new <> [] /\ b = Chunking.slice (- (overlapTokens / 4)) a ++ new)
      /\ chained overlapTokens rest
  | _ => True
  end.

(** What the loop of chunkText keeps, [done] being the words read so
    far and [wss] the words of the chunks pushed so far. *)
Definition chunked (overlapTokens : Z) (done : list string) (st : Chunking.chunking)
           (wss : list (list string)) : Prop :=
  Chunking.chunks st = map (join " ") wss
  /\ (forall ws, In ws wss -> ws <> [] /\ run_of ws done)
  /\ (exists before, done = before ++ Chunking.currentChunk st)
  /\ (done <> [] -> Chunking.currentChunk st <> [])
  /\ (forall w, In w done ->
                In w (Chunking.currentChunk st) \/ exists ws, In ws wss /\ In w ws)
  /\ chained overlapTokens wss
  /\ (wss <> [] ->
      exists new, new <> []
                  /\ Chunking.currentChunk st
                     = Chunking.slice (- (overlapTokens / 4)) (last wss []) ++ new).

(** The text [p] of a pattern does not match at the head of [cs]: a
    character differs before either ends. *)
Fixpoint mismatch (p cs : list ascii) : bool :=
  match p, cs with
  | a :: p', c :: cs' => if same_ci a c then mismatch p' cs' else true
  | _, _ => false
  end.

(** ... nor anywhere in [q], nor across its end. *)
Fixpoint clear_of (p q : list ascii) : bool :=
  match q with
  | [] => true
  | _ :: q' => if mismatch p q then clear_of p q' else false
  end.

(** The texts of the retriable patterns. *)
Definition retriable_texts : list string :=
  [ "timeout"; "ECONNRESET"; "ECONNREFUSED"; "rate limit"; "too many requests";
    "503"; "502"; "500"; "network"; "temporarily unavailable" ].

(** The message [m] holds a match of a retriable pattern. *)
Definition retriable_text (m : string) : bool :=
  existsb (fun p => Regex.test p m) Retry.retriablePatterns.

(** Two characters that differ by letter case at most, and two texts
    that do so character by character. *)
Definition alike (a b : ascii) : Prop := canonicalize a = canonicalize b.

Definition same_up_to_case (s t : string) : Prop :=
  map canonicalize (chars s) = map canonicalize (chars t).

Definition letter_code (c : ascii) : Prop :=
  (65 <= code c <= 90)%nat \/ (97 <= code c <= 122)%nat.

Definition alike_before (p q : option ascii) : Prop :=
  match p, q with
  | Some a, Some b => alike a b
  | None, None => True
  | _, _ => False
  end.

(** The patterns whose character ranges hold no letter (as [1-4]). *)
Fixpoint caseless (r : regex) : bool :=
  match r with
  | Range lo hi => (code hi <? 65)%nat
  | Cat r1 r2 | Or r1 r2 => caseless r1 && caseless r2
  | Opt r1 | Star r1 => caseless r1
  | _ => true
  end.

End Behaviour.

Module Progress.
Import Types Rag Orchestrator.

(** The texts that generateTakeaway hands to updateStatus while the run
    is processing, in the order of the phases. *)
Definition progress_texts : list string :=
  [ "Validating input...";
    "Retrieving relevant content...";
    "Creating takeaway plan...";
    "Writing script..." ].

(** The retrieval as generateTakeaway asks for it. *)
Definition retrieval (params : GenerationParams) (w : Replies) :=
  retrieveRelevantContext
    {| userProfile := user_profile params;
       Rag.format := Orchestrator.format params;
       Rag.customization := Orchestrator.customization params;
       topK := None |}
    (embedding w) (search w).

End Progress.

Module Samples.
Import Errors Types Rag Orchestrator.

(** The model that writes the script cannot be reached. *)
Definition writer_down : Replies :=
  {| classifier := Returned (Some "ALLOWED");
     embedding := Returned tt;
     search := Examples.found;
     planner := Returned (Some "good plan");
     plan_validator := Returned (Some "APPROVED");
     writer := Thrown {| cls := Foreign "APIConnectionError";
                         message := "Connection error." |};
     script_validator := Returned (Some "APPROVED") |}.

(** The classifier blocks the instruction. *)
Definition blocked : Replies :=
  {| classifier := Returned (Some "BLOCKED: asks for a revenue forecast");
     embedding := Returned tt;
     search := Examples.found;
     planner := Returned (Some "good plan");
     plan_validator := Returned (Some "APPROVED");
     writer := Returned (Some "Three ideas to bring to your next customer call.");
     script_validator := Returned (Some "APPROVED") |}.

Definition with_instruction : GenerationParams :=
  {| user_profile := Examples.profile; Orchestrator.format := video;
     Orchestrator.customization :=
       {| language := "en"; tone := professional; length := medium;
          extra_instruction := Some "Add next year's revenue forecast" |} |}.

(** A call that fails twice with a busy server and then succeeds, and
    the options with which providers/sieve.ts retries it. *)
Definition flaky (attempt : Z) : completion string :=
  if attempt <? 2 then Thrown (new_Error "Sieve API error: 503 - busy")
  else Returned "job-7".

Definition sieve_options : RetryBackoff.RetryOptions :=
  {| RetryBackoff.maxRetries := Some 3;
     RetryBackoff.initialDelay := Some 2000;
     RetryBackoff.maxDelay := None;
     RetryBackoff.backoffMultiplier := None;
     RetryBackoff.onRetry := Some (fun _ _ => Returned tt) |}.

(** The model that writes the script answers with white space only. *)
Definition blank_script : Replies :=
  {| classifier := Returned (Some "ALLOWED");
     embedding := Returned tt;
     search := Examples.found;
     planner := Returned (Some "good plan");
     plan_validator := Returned (Some "APPROVED");
     writer := Returned (Some "   ");
     script_validator := Returned (Some "APPROVED") |}.

(** A request to render the run, by its owner; the media are made. *)
Definition render_request : RenderRoute.Request :=
  {| RenderRoute.generationId := "g-1";
     RenderRoute.session := Returned (Some "pm@example.com");
     RenderRoute.userProfile := Some "u-17";
     RenderRoute.owned := true;
     RenderRoute.format := video;
     RenderRoute.media := Returned tt |}.

(** ... and one whose media provider gives up. *)
Definition render_timeout : RenderRoute.Request :=
  {| RenderRoute.generationId := "g-1";
     RenderRoute.session := Returned (Some "pm@example.com");
     RenderRoute.userProfile := Some "u-17";
     RenderRoute.owned := true;
     RenderRoute.format := video;
     RenderRoute.media :=
       Thrown (Polling.new_MediaRenderError
                 "Failed to generate video: Sieve video generation timeout (5 minutes)") |}.

(** A run whose script is ready. *)
Definition ready : Store :=
  {| run := {| status := rendering;
               error_message := Some "Preparing to render media...";
               retry_count := 0;
               rag_query := Some "Create a professional video takeaway";
               rag_chunks_used := ["c1"; "c3"];
               takeaway_plan := Some Examples.good_plan;
               script := Some "Three ideas to bring to your next customer call." |};
     written := [processing; processing; processing; processing; rendering] |}.

(** A request for a generation by a user who has no credit left. *)
Definition validated : GenerateRoute.Validated :=
  {| GenerateRoute.format := video; GenerateRoute.presenter_id := None;
     GenerateRoute.language := "en"; GenerateRoute.tone := professional;
     GenerateRoute.length := medium; GenerateRoute.extra_instruction := None |}.

Definition out_of_credits : GenerateRoute.Request :=
  {| GenerateRoute.session := Returned (Some "pm@example.com");
     GenerateRoute.userProfile := {| Api.data := Some "u-17"; Api.error := None |};
     GenerateRoute.flags := {| Api.data := Some (JObject [("generation_enabled", JBool true)]);
                               Api.error := None |};
     GenerateRoute.body := Returned (JObject [("format", JString "video")]);
     GenerateRoute.schema := fun _ => Returned validated;
     GenerateRoute.deduction := {| Api.data := Some false; Api.error := None |};
     GenerateRoute.balance := {| Api.data := Some 0; Api.error := None |};
     GenerateRoute.insertion := {| Api.data := Some "g-1"; Api.error := None |} |}.

(** The credit is taken and the insertion of the run fails. *)
Definition insertion_fails : GenerateRoute.Request :=
  {| GenerateRoute.session := Returned (Some "pm@example.com");
     GenerateRoute.userProfile := {| Api.data := Some "u-17"; Api.error := None |};
     GenerateRoute.flags := {| Api.data := Some (JObject []); Api.error := None |};
     GenerateRoute.body := Returned (JObject [("format", JString "video")]);
     GenerateRoute.schema := fun _ => Returned validated;
     GenerateRoute.deduction := {| Api.data := Some true; Api.error := None |};
     GenerateRoute.balance := {| Api.data := Some 2; Api.error := None |};
     GenerateRoute.insertion := {| Api.data := None;
                                   Api.error := Some "connection reset" |} |}.

(** A job that the provider reports as failed at every check. *)
Definition failed_job (attempt : Z) : Polling.reply :=
  Polling.Job (Some "failed") None.

(** A job that fails to answer twice and is finished at the third check. *)
Definition slow_job (attempt : Z) : Polling.reply :=
  if attempt <? 2 then Polling.NotOk 502
  else Polling.Job (Some "finished") (Some "https://cdn.example.com/v.mp4").

End Samples.

(* ================================================================== *)
(** * Properties *)
(* ================================================================== *)

Import JsString Regex Constants Errors Retry JsObject Types Rag OpenAI JSON
       Guardrails Planner ScriptGenerator Orchestrator Statements.
Import Behaviour Progress.

(** ** Guardrails *)

Lemma allow_by_default_cases (e : JsError) :
  allow_by_default e = Returned tt
  \/ (allow_by_default e = Thrown e /\ cls e = GuardrailViolation).
Proof.
  unfold allow_by_default, is_GuardrailViolation.
  destruct (cls e); auto.
Qed.

Lemma verdict_cases (tag fallback content : string) :
  verdict tag fallback content = Returned tt
  \/ exists e, verdict tag fallback content = Thrown e /\ cls e = GuardrailViolation.
Proof.
  unfold verdict.
  destruct (startsWith (trim content) tag); [right | left; reflexivity].
  eexists; split; reflexivity.
Qed.

Lemma second_stage_cases (tag fallback : string) (reply : create_reply) :
  second_stage tag fallback reply = Returned tt
  \/ exists e, second_stage tag fallback reply = Thrown e
               /\ cls e = GuardrailViolation.
Proof.
  unfold second_stage, try_catch.
  destruct (chat reply) as [content | e].
  - destruct (verdict_cases tag fallback content) as [H | (e & H & Hc)]; rewrite H.
    + left; reflexivity.
    + right. exists e. unfold allow_by_default, is_GuardrailViolation.
      rewrite Hc. split; reflexivity.
  - destruct (allow_by_default_cases e) as [H | [H Hc]]; rewrite H.
    + left; reflexivity.
    + right; exists e; split; [reflexivity | assumption].
Qed.

Lemma second_stage_fails_open (tag fallback : string) (reply : create_reply)
      (e : JsError) :
  chat reply = Thrown e -> is_GuardrailViolation e = false ->
  second_stage tag fallback reply = Returned tt.
Proof.
  intros Hchat Hgv. unfold second_stage, try_catch, allow_by_default.
  rewrite Hchat, Hgv. reflexivity.
Qed.

Lemma validatePlan_eq (plan : Json) (validator : create_reply) :
  validatePlan plan validator =
  match first_prohibited (stringify plan) with
  | Some p => Thrown (new_GuardrailViolation
                        ("Plan contains prohibited content: " ++ description p)%string)
  | None => second_stage "VIOLATION" "Content policy violation" validator
  end.
Proof. reflexivity. Qed.

Lemma validateScript_eq (script : string) (validator : create_reply) :
  validateScript script validator =
  match first_prohibited script with
  | Some p => Thrown (new_GuardrailViolation
                        ("Script contains prohibited content: " ++ description p)%string)
  | None => second_stage "VIOLATION" "Content policy violation" validator
  end.
Proof. reflexivity. Qed.

Lemma validateExtraInstruction_cases (instruction : option string)
      (classifier : create_reply) :
  validateExtraInstruction instruction classifier = Returned tt
  \/ exists e, validateExtraInstruction instruction classifier = Thrown e
               /\ cls e = GuardrailViolation.
Proof.
  unfold validateExtraInstruction.
  destruct instruction as [text |]; [| left; reflexivity].
  destruct (_ || _); [left; reflexivity |].
  apply (second_stage_cases "BLOCKED" "Instruction violates content policy").
Qed.

Lemma validatePlan_cases (plan : Json) (validator : create_reply) :
  validatePlan plan validator = Returned tt
  \/ exists e, validatePlan plan validator = Thrown e /\ cls e = GuardrailViolation.
Proof.
  rewrite validatePlan_eq.
  destruct (first_prohibited (stringify plan)) as [p |].
  - right. eexists; split; reflexivity.
  - apply second_stage_cases.
Qed.

Lemma validateScript_cases (script : string) (validator : create_reply) :
  validateScript script validator = Returned tt
  \/ exists e, validateScript script validator = Thrown e
               /\ cls e = GuardrailViolation.
Proof.
  rewrite validateScript_eq.
  destruct (first_prohibited script) as [p |].
  - right. eexists; split; reflexivity.
  - apply second_stage_cases.
Qed.

(** The pattern stage found nothing: no entry of the list matches. *)
Lemma first_prohibited_None (text : string) :
  first_prohibited text = None <-> clean text.
Proof.
  unfold first_prohibited, clean. split.
  - intros H p Hp. exact (find_none _ _ H p Hp).
  - intros H. destruct (find _ _) as [p |] eqn:E; [| reflexivity].
    apply find_some in E. destruct E as [Hin Ht].
    rewrite (H p Hin) in Ht. discriminate.
Qed.

(** The entry found is the first one, in list order, that matches. *)
Lemma first_prohibited_Some (text : string) (p : ProhibitedPattern) :
  first_prohibited text = Some p ->
  exists before after,
    PROHIBITED_PATTERNS = before ++ p :: after
    /\ (forall q, In q before -> test (pattern q) text = false)
    /\ test (pattern p) text = true.
Proof.
  unfold first_prohibited.
  generalize PROHIBITED_PATTERNS as l.
  induction l as [| q l IH]; simpl; [discriminate |].
  destruct (test (pattern q) text) eqn:E.
  - intros H. injection H as <-. exists [], l. simpl.
    repeat split; auto. intros q' [].
  - intros H. destruct (IH H) as (before & after & -> & Hb & Hp).
    exists (q :: before), after. simpl. repeat split; auto.
    intros q' [<- | Hq]; auto.
Qed.

Lemma only_violation_cases (c : completion unit) :
  (c = Returned tt \/ exists e, c = Thrown e /\ cls e = GuardrailViolation) ->
  only_violation c.
Proof.
  intros [-> | (e & -> & H)]; simpl; auto.
Qed.

(** C10.  Each of validateExtraInstruction, validatePlan and validateScript
    either returns or throws a GuardrailViolation, whatever its input and
    whatever the model call yields; an error of another class thrown by the
    model call never leaves a validator, and validateExtraInstruction then
    returns. *)
Theorem validators_only_throw_violations :
  forall (instruction : option string) (plan : Json) (script : string)
         (reply : create_reply),
    only_violation (validateExtraInstruction instruction reply)
    /\ only_violation (validatePlan plan reply)
    /\ only_violation (validateScript script reply)
    /\ forall e, chat reply = Thrown e -> is_GuardrailViolation e = false ->
                 validateExtraInstruction instruction reply = Returned tt
                 /\ validatePlan plan reply <> Thrown e
                 /\ validateScript script reply <> Thrown e.
Proof.
  intros instruction plan script reply.
  pose proof (only_violation_cases (validateExtraInstruction_cases instruction reply)) as H1.
  pose proof (only_violation_cases (validatePlan_cases plan reply)) as H2.
  pose proof (only_violation_cases (validateScript_cases script reply)) as H3.
  repeat split; try assumption.
  - unfold validateExtraInstruction.
    destruct instruction as [text |]; [| reflexivity].
    destruct (_ || _); [reflexivity |].
    eapply second_stage_fails_open; eassumption.
  - intros Heq. rewrite Heq in H2. simpl in H2.
    unfold is_GuardrailViolation in H0. rewrite H2 in H0. discriminate.
  - intros Heq. rewrite Heq in H3. simpl in H3.
    unfold is_GuardrailViolation in H0. rewrite H3 in H0. discriminate.
Qed.

Lemma validators_only_throw_violations_witness :
  chat (Thrown (new_Error "Request timeout")) = Thrown (new_Error "Request timeout")
  /\ is_GuardrailViolation (new_Error "Request timeout") = false
  /\ validateExtraInstruction (Some "make it more inspiring")
                              (Thrown (new_Error "Request timeout")) = Returned tt.
Proof.
  split; [reflexivity | split; [reflexivity |]].
  apply (proj1 (proj2 (proj2 (proj2
           (validators_only_throw_violations
              (Some "make it more inspiring") JNull EmptyString
              (Thrown (new_Error "Request timeout")))))
           (new_Error "Request timeout") eq_refl eq_refl)).
Defined.

(** C4.  When the model call of the second stage of validatePlan or
    validateScript throws an error that is not a GuardrailViolation, the
    validator returns (the pattern stage having found nothing); a match
    found by the pattern stage blocks whatever the model call yields. *)
Theorem second_stage_fails_open_patterns_fail_closed :
  forall (plan : Json) (script : string) (reply : create_reply) (e : JsError),
    chat reply = Thrown e ->
    is_GuardrailViolation e = false ->
    (clean (stringify plan) -> validatePlan plan reply = Returned tt)
    /\ (clean script -> validateScript script reply = Returned tt)
    /\ (forall any p, first_prohibited (stringify plan) = Some p ->
          validatePlan plan any =
          Thrown (new_GuardrailViolation
                    ("Plan contains prohibited content: " ++ description p)%string))
    /\ (forall any p, first_prohibited script = Some p ->
          validateScript script any =
          Thrown (new_GuardrailViolation
                    ("Script contains prohibited content: " ++ description p)%string)).
Proof.
  intros plan script reply e Hchat Hgv. repeat split.
  - intros Hc. apply first_prohibited_None in Hc.
    rewrite validatePlan_eq, Hc. eapply second_stage_fails_open; eassumption.
  - intros Hc. apply first_prohibited_None in Hc.
    rewrite validateScript_eq, Hc. eapply second_stage_fails_open; eassumption.
  - intros any p Hp. rewrite validatePlan_eq, Hp. reflexivity.
  - intros any p Hp. rewrite validateScript_eq, Hp. reflexivity.
Qed.

Lemma second_stage_fails_open_patterns_fail_closed_witness :
  chat (Thrown (new_Error "Request timeout")) = Thrown (new_Error "Request timeout")
  /\ is_GuardrailViolation (new_Error "Request timeout") = false
  /\ validateScript "Three ideas to bring to your next customer call."
                    (Thrown (new_Error "Request timeout")) = Returned tt.
Proof.
  split; [reflexivity | split; [reflexivity |]].
  apply (proj1 (proj2
           (@second_stage_fails_open_patterns_fail_closed
              JNull "Three ideas to bring to your next customer call."
              (Thrown (new_Error "Request timeout")) (new_Error "Request timeout")
              eq_refl eq_refl))).
  refine (proj1 (first_prohibited_None _) _). vm_compute. reflexivity.
Defined.

(** C7.  A text that holds a match of a prohibited category is blocked by
    the pattern stage of validateScript and validatePlan, whatever the
    model would answer; the violation reported is that of the first entry
    of PROHIBITED_PATTERNS, in the order of the list, that matches.  A text
    that holds all five categories, in whatever order they come in the
    text, is therefore always reported as "Financial figures". *)
Theorem pattern_stage_reports_first_in_scanning_order :
  forall (content : string) (reply : create_reply),
    (exists p, In p PROHIBITED_PATTERNS /\ test (pattern p) content = true) ->
    exists before p after,
      PROHIBITED_PATTERNS = before ++ p :: after
      /\ (forall q, In q before -> test (pattern q) content = false)
      /\ test (pattern p) content = true
      /\ validateScript content reply =
         Thrown (new_GuardrailViolation
                   ("Script contains prohibited content: " ++ description p)%string)
      /\ (forall plan, stringify plan = content ->
            validatePlan plan reply =
            Thrown (new_GuardrailViolation
                      ("Plan contains prohibited content: " ++ description p)%string))
      /\ (holds_every_category content -> description p = "Financial figures").
Proof.
  intros content reply (p0 & Hin & Hmatch).
  destruct (first_prohibited content) as [p |] eqn:E.
  - destruct (first_prohibited_Some E) as (before & after & Hl & Hb & Hp).
    exists before, p, after. repeat split; auto.
    + rewrite validateScript_eq, E. reflexivity.
    + intros plan <-. rewrite validatePlan_eq, E. reflexivity.
    + intros Hall. destruct before as [| q before].
      * simpl in Hl. injection Hl as <- _. reflexivity.
      * assert (Hq : In q PROHIBITED_PATTERNS) by (rewrite Hl; left; reflexivity).
        specialize (Hb q (or_introl eq_refl)). rewrite (Hall q Hq) in Hb.
        discriminate.
  - rewrite first_prohibited_None in E. rewrite (E p0 Hin) in Hmatch. discriminate.
Qed.

Lemma pattern_stage_reports_first_in_scanning_order_witness :
  (exists p, In p PROHIBITED_PATTERNS
             /\ test (pattern p)
                     "We promise a roadmap versus last year: Q3 2024 closed at $5M"
                = true)
  /\ validateScript "We promise a roadmap versus last year: Q3 2024 closed at $5M"
                    (Returned (Some "APPROVED"))
     = Thrown (new_GuardrailViolation
                 "Script contains prohibited content: Financial figures").
Proof.
  assert (H : exists p, In p PROHIBITED_PATTERNS
             /\ test (pattern p)
                     "We promise a roadmap versus last year: Q3 2024 closed at $5M"
                = true).
  { exists (nth 4 PROHIBITED_PATTERNS
                {| pattern := Eps; description := EmptyString |}).
    split; [simpl; tauto | vm_compute; reflexivity]. }
  split; [exact H |].
  destruct (pattern_stage_reports_first_in_scanning_order
              (Returned (Some "APPROVED")) H)
    as (before & p & after & _ & _ & _ & Hs & _ & Hall).
  rewrite Hs, Hall; [reflexivity |].
  intros q Hq. simpl in Hq.
  repeat (destruct Hq as [<- | Hq]; [vm_compute; reflexivity |]).
  destruct Hq.
Defined.

Lemma skipn_length_app (A : Type) (l l' : list A) :
  skipn (List.length l) (l ++ l') = l'.
Proof. induction l; simpl; auto. Qed.

Lemma firstn_length_app (A : Type) (l l' : list A) :
  firstn (List.length l) (l ++ l') = l.
Proof. induction l; simpl; congruence. Qed.

(** ** Orchestrator *)

Ltac monad_unfold :=
  cbv beta iota zeta delta
      [generateTakeaway catch pipeline on_error bind call ret throw updateStatus
       update_status store_context store_plan store_script update select
       retryGeneration update_counted rpc failGeneration fst snd
       run written status error_message retry_count rag_query rag_chunks_used
       takeaway_plan script].

Ltac split_calls :=
  repeat match goal with
         | |- context [match ?c with Returned _ => _ | Thrown _ => _ end] =>
             destruct c eqn:?
         end.

Ltac open_store s :=
  destruct s as [[? ? ? ? ? ? ?] ?].

Ltac flatten_writes :=
  repeat rewrite <- app_assoc; cbn [app].

(** A failed [try] block has written [processing], once or more, and
    nothing else; it leaves [retry_count] alone. *)
Lemma pipeline_thrown parse params w s s' e :
  pipeline parse params w s = (s', Thrown e) ->
  retry_count (run s') = retry_count (run s)
  /\ status (run s') = processing
  /\ exists n, written s' = written s ++ repeat processing (S n).
Proof.
  open_store s. monad_unfold. split_calls.
  all: intros H; inversion H; subst; clear H.
  all: split; [reflexivity | split; [reflexivity |]]; flatten_writes.
  1, 2: exists 3%nat; reflexivity.
  1, 2: exists 2%nat; reflexivity.
  - exists 1%nat; reflexivity.
  - exists 0%nat; reflexivity.
Qed.

(** A [try] block that ends has stored a script that went through
    validateScript, and set [rendering] last. *)
Lemma pipeline_returned parse params w s s' g :
  pipeline parse params w s = (s', Returned g) ->
  g = run s'
  /\ status g = rendering
  /\ retry_count g = retry_count (run s)
  /\ written s' = written s ++ [processing; processing; processing; processing; rendering]
  /\ exists text, script g = Some text
                  /\ validateScript text (script_validator w) = Returned tt.
Proof.
  open_store s. monad_unfold. split_calls.
  all: intros H; inversion H; subst; clear H.
  repeat split; flatten_writes; try reflexivity.
  eexists; split; [reflexivity |].
  match goal with H : validateScript _ _ = Returned ?u |- _ => destruct u; exact H end.
Qed.

(** What a [try] block throws does not depend on the stored run. *)
Lemma pipeline_thrown_any_store parse params w s1 s2 s1' e :
  pipeline parse params w s1 = (s1', Thrown e) ->
  exists s2', pipeline parse params w s2 = (s2', Thrown e).
Proof.
  open_store s1. open_store s2. monad_unfold. split_calls.
  all: intros H; inversion H; subst; clear H.
  all: eexists; reflexivity.
Qed.

Lemma generateTakeaway_eq parse params w s :
  generateTakeaway parse params w s =
  match pipeline parse params w s with
  | (s', Returned g) => (s', Returned g)
  | (s', Thrown e) => on_error e s'
  end.
Proof. reflexivity. Qed.

(** [retryGeneration] gives the column [retry_count] a request in place
    of a number: the update changes nothing. *)
Lemma retryGeneration_changes_nothing (s : Store) :
  retryGeneration s = (s, Returned tt).
Proof. reflexivity. Qed.

(** The run as the two branches of the [catch] block leave it. *)
Lemma on_error_retry e s :
  isRetriableError e = true -> retry_count (run s) < MAX_RETRIES ->
  on_error e s = (s, Thrown (new_GenerationError "Generation failed, retrying...")).
Proof.
  intros Hr Hc. open_store s. cbn [run retry_count] in Hc.
  monad_unfold. rewrite Hr. apply Z.ltb_lt in Hc. rewrite Hc. reflexivity.
Qed.

Lemma on_error_fail e s :
  isRetriableError e = false \/ MAX_RETRIES <= retry_count (run s) ->
  exists s', on_error e s = (s', Thrown e)
             /\ status (run s') = failed
             /\ retry_count (run s') = retry_count (run s)
             /\ error_message (run s') = Some (message e)
             /\ written s' = written s ++ [failed].
Proof.
  intros H. open_store s. cbn [run retry_count] in H.
  monad_unfold.
  assert (E : isRetriableError e && (retry_count0 <? MAX_RETRIES) = false).
  { destruct H as [-> | H]; [reflexivity |].
    apply Z.ltb_ge in H. rewrite H. apply andb_false_r. }
  rewrite E. eexists; repeat split.
Qed.

(** No call of generateTakeaway changes [retry_count]. *)
Lemma generateTakeaway_keeps_retry_count parse params w s :
  retry_count (run (fst (generateTakeaway parse params w s))) = retry_count (run s).
Proof.
  rewrite generateTakeaway_eq.
  destruct (pipeline parse params w s) as [s' [g | e]] eqn:E.
  - apply pipeline_returned in E. destruct E as (-> & _ & Hrc & _). exact Hrc.
  - apply pipeline_thrown in E. destruct E as (Hrc & _ & _).
    destruct (isRetriableError e) eqn:Hr.
    + destruct (Z_lt_le_dec (retry_count (run s')) MAX_RETRIES) as [Hlt | Hge].
      * rewrite (on_error_retry (e := e) (s := s') Hr Hlt). exact Hrc.
      * destruct (on_error_fail (e := e) (s := s') (or_intror Hge))
          as (s'' & -> & _ & Hrc' & _).
        simpl. rewrite Hrc', Hrc. reflexivity.
    + destruct (on_error_fail (e := e) (s := s') (or_introl Hr))
        as (s'' & -> & _ & Hrc' & _).
      simpl. rewrite Hrc', Hrc. reflexivity.
Qed.

(** A call that fails with a retriable error while [retry_count] is
    below MAX_RETRIES leaves the run as the [try] block left it. *)
Lemma generateTakeaway_retry parse params w s s' e :
  pipeline parse params w s = (s', Thrown e) ->
  isRetriableError e = true -> retry_count (run s) < MAX_RETRIES ->
  generateTakeaway parse params w s
  = (s', Thrown (new_GenerationError "Generation failed, retrying..."))
  /\ status (run s') = processing
  /\ retry_count (run s') = retry_count (run s)
  /\ (forall st, In st (writes_of s s') -> st = processing).
Proof.
  intros Hp Hr Hlt.
  destruct (pipeline_thrown Hp) as (Hrc & Hst & n & Hw).
  rewrite <- Hrc in Hlt.
  rewrite generateTakeaway_eq, Hp, (on_error_retry (e := e) (s := s') Hr Hlt).
  repeat split; auto.
  intros st Hin. unfold writes_of in Hin. rewrite Hw, skipn_length_app in Hin.
  exact (repeat_spec _ _ _ Hin).
Qed.

Lemma rerun_cons parse params w rest s :
  rerun parse params (w :: rest) s
  = rerun parse params rest (fst (generateTakeaway parse params w s)).
Proof. reflexivity. Qed.

Lemma rerun_keeps_retry_count parse params attempts :
  forall s, retry_count (run (rerun parse params attempts s)) = retry_count (run s).
Proof.
  induction attempts as [| w rest IH]; intros s; [reflexivity |].
  rewrite rerun_cons, IH. apply generateTakeaway_keeps_retry_count.
Qed.

Lemma rerun_keeps_failing parse params attempts :
  keeps_failing parse params attempts -> attempts <> [] ->
  forall s, retry_count (run s) < MAX_RETRIES ->
            status (run (rerun parse params attempts s)) = processing.
Proof.
  induction attempts as [| w rest IH]; intros Hk Hne s Hlt; [contradiction |].
  rewrite rerun_cons.
  destruct (Hk w (or_introl eq_refl) s) as (s1 & e & Hp & Hr).
  destruct (generateTakeaway_retry Hp Hr Hlt) as (Hg & Hst & Hrc & _).
  rewrite Hg. cbn [fst].
  destruct rest as [| w' rest']; [exact Hst |].
  apply IH.
  - intros w0 Hw0. apply Hk. right. exact Hw0.
  - discriminate.
  - rewrite Hrc. exact Hlt.
Qed.

(** C2.  The retry is announced and not recorded.  When the processing
    phase throws an error that isRetriableError accepts and the stored
    retry_count is below MAX_RETRIES, generateTakeaway throws the
    GenerationError "Generation failed, retrying..." in place of the
    error; but retryGeneration gives the column retry_count a request in
    place of a number, and its update changes nothing: the run stays as
    the processing phase left it, at processing and with retry_count as
    it was, and nothing but processing has been written.  (Otherwise
    the run is marked failed, with the message of the error, and the
    error itself is thrown.)  So however often a run with retry_count
    below MAX_RETRIES is handed to generateTakeaway and fails with a
    retriable error, it is left at processing with the same retry_count:
    it is never queued again, never counted and never failed. *)
Theorem retry_is_announced_but_not_recorded :
  forall (parse : string -> completion Json) (params : GenerationParams),
    (forall s, retryGeneration s = (s, Returned tt))
    /\ (forall w s s' e,
           pipeline parse params w s = (s', Thrown e) ->
           (isRetriableError e = true -> retry_count (run s) < MAX_RETRIES ->
            generateTakeaway parse params w s
            = (s', Thrown (new_GenerationError "Generation failed, retrying..."))
            /\ status (run s') = processing
            /\ retry_count (run s') = retry_count (run s)
            /\ (forall st, In st (writes_of s s') -> st = processing))
           /\ (isRetriableError e = false \/ MAX_RETRIES <= retry_count (run s) ->
               exists s'',
                 generateTakeaway parse params w s = (s'', Thrown e)
                 /\ status (run s'') = failed
                 /\ error_message (run s'') = Some (message e)
                 /\ retry_count (run s'') = retry_count (run s)))
    /\ (forall attempts s,
           keeps_failing parse params attempts -> attempts <> [] ->
           retry_count (run s) < MAX_RETRIES ->
           status (run (rerun parse params attempts s)) = processing
           /\ retry_count (run (rerun parse params attempts s)) = retry_count (run s)).
Proof.
  intros parse params. split; [| split].
  - exact retryGeneration_changes_nothing.
  - intros w s s' e Hp. split.
    + intros Hr Hlt. exact (generateTakeaway_retry Hp Hr Hlt).
    + intros H. destruct (pipeline_thrown Hp) as (Hrc & _ & _).
      rewrite <- Hrc in H.
      destruct (on_error_fail (e := e) (s := s') H) as (s'' & He & Hst & Hrc' & Hm & _).
      exists s''. rewrite generateTakeaway_eq, Hp, He, <- Hrc. auto.
  - intros attempts s Hk Hne Hlt. split.
    + exact (rerun_keeps_failing Hk Hne Hlt).
    + apply rerun_keeps_retry_count.
Qed.

Lemma rate_limited_keeps_failing (n : nat) :
  keeps_failing Examples.parse Examples.params (repeat Examples.rate_limited n).
Proof.
  intros w Hw s. apply repeat_spec in Hw. subst w.
  open_store s. eexists. eexists.
  split; [vm_compute; reflexivity | vm_compute; reflexivity].
Defined.

Lemma retry_is_announced_but_not_recorded_witness :
  keeps_failing Examples.parse Examples.params (repeat Examples.rate_limited 4)
  /\ repeat Examples.rate_limited 4 <> []
  /\ retry_count (run Examples.fresh) < MAX_RETRIES
  /\ status (run (rerun Examples.parse Examples.params
                        (repeat Examples.rate_limited 4) Examples.fresh)) = processing
  /\ retry_count (run (rerun Examples.parse Examples.params
                             (repeat Examples.rate_limited 4) Examples.fresh)) = 0.
Proof.
  assert (Hne : repeat Examples.rate_limited 4 <> []) by discriminate.
  assert (Hlt : retry_count (run Examples.fresh) < MAX_RETRIES) by reflexivity.
  split; [apply (@rate_limited_keeps_failing 4) |].
  split; [exact Hne |]. split; [exact Hlt |].
  exact (proj2 (proj2 (retry_is_announced_but_not_recorded Examples.parse Examples.params))
               (repeat Examples.rate_limited 4) Examples.fresh
               (@rate_limited_keeps_failing 4) Hne Hlt).
Defined.

(** The messages of the violations that the pattern stage and the
    fallbacks of the verdicts produce match no retriable pattern. *)
Lemma fixed_violations_not_retriable :
  (forall p, In p PROHIBITED_PATTERNS ->
             isRetriableError
               (new_GuardrailViolation
                  ("Plan contains prohibited content: " ++ description p)%string) = false
             /\ isRetriableError
                  (new_GuardrailViolation
                     ("Script contains prohibited content: " ++ description p)%string)
                = false)
  /\ isRetriableError (new_GuardrailViolation "Content policy violation") = false
  /\ isRetriableError (new_GuardrailViolation "Instruction violates content policy")
     = false.
Proof.
  split; [| split; vm_compute; reflexivity].
  intros p Hp. simpl in Hp.
  repeat (destruct Hp as [<- | Hp]; [split; vm_compute; reflexivity |]).
  destruct Hp.
Qed.

(** The terminal case.  A GuardrailViolation thrown during the
    processing phase ends the run (status failed, the violation thrown on)
    when its message matches no retriable pattern or retry_count has
    reached MAX_RETRIES; the violations of the pattern stage are of the
    first kind. *)
Theorem violation_is_terminal_unless_its_text_is_retriable :
  forall (parse : string -> completion Json) (params : GenerationParams)
         (w : Replies) (s s' : Store) (e : JsError),
    pipeline parse params w s = (s', Thrown e) ->
    cls e = GuardrailViolation ->
    isRetriableError e = false \/ MAX_RETRIES <= retry_count (run s) ->
    (exists s'',
        generateTakeaway parse params w s = (s'', Thrown e)
        /\ status (run s'') = failed
        /\ error_message (run s'') = Some (message e)
        /\ retry_count (run s'') = retry_count (run s)
        /\ writes_of s s'' = writes_of s s' ++ [failed])
    /\ (forall p, In p PROHIBITED_PATTERNS ->
          isRetriableError
            (new_GuardrailViolation
               ("Plan contains prohibited content: " ++ description p)%string) = false
          /\ isRetriableError
               (new_GuardrailViolation
                  ("Script contains prohibited content: " ++ description p)%string)
             = false).
Proof.
  intros parse params w s s' e Hp _ H.
  split; [| exact (proj1 fixed_violations_not_retriable)].
  destruct (pipeline_thrown Hp) as (Hrc & _ & n & Hw).
  rewrite <- Hrc in H.
  destruct (on_error_fail (e := e) (s := s') H) as (s'' & He & Hst & Hrc' & Hm & Hw').
  exists s''. rewrite generateTakeaway_eq, Hp, He, <- Hrc.
  repeat split; auto.
  unfold writes_of. rewrite Hw', Hw, <- app_assoc, !skipn_length_app. reflexivity.
Qed.

Lemma violation_is_terminal_unless_its_text_is_retriable_witness :
  exists s' e,
    pipeline Examples.parse Examples.params Examples.rejected Examples.fresh
    = (s', Thrown e)
    /\ cls e = GuardrailViolation
    /\ (isRetriableError e = false \/ MAX_RETRIES <= retry_count (run Examples.fresh))
    /\ exists s'',
        generateTakeaway Examples.parse Examples.params Examples.rejected Examples.fresh
        = (s'', Thrown e)
        /\ status (run s'') = failed.
Proof.
  eexists. eexists.
  assert (Hp : pipeline Examples.parse Examples.params Examples.rejected Examples.fresh
               = (fst (pipeline Examples.parse Examples.params Examples.rejected
                                Examples.fresh),
                  Thrown (new_GuardrailViolation "makes a legal commitment")))
    by (vm_compute; reflexivity).
  split; [exact Hp |]. split; [reflexivity |].
  assert (Hr : isRetriableError (new_GuardrailViolation "makes a legal commitment")
               = false \/ MAX_RETRIES <= retry_count (run Examples.fresh))
    by (left; vm_compute; reflexivity).
  split; [exact Hr |].
  destruct (proj1 (violation_is_terminal_unless_its_text_is_retriable Hp eq_refl Hr))
    as (s'' & Hg & Hst & _).
  exists s''. split; assumption.
Defined.

(** C3.  A GuardrailViolation is not always terminal: the catch block
    decides with isRetriableError, which reads the message and not the
    class.  When the message of a violation holds a retriable pattern
    (as the reason "states a revenue of 500 million" of a model verdict
    holds 500) and retry_count is below MAX_RETRIES, generateTakeaway
    takes the retry branch: it throws the GenerationError "Generation
    failed, retrying..." in place of the violation, and the run is not
    marked failed; it is left at processing, failed is not written. *)
Theorem violation_with_retriable_text_is_not_terminal :
  forall (parse : string -> completion Json) (params : GenerationParams)
         (w : Replies) (s s' : Store) (e : JsError),
    pipeline parse params w s = (s', Thrown e) ->
    cls e = GuardrailViolation ->
    isRetriableError e = true -> retry_count (run s) < MAX_RETRIES ->
    generateTakeaway parse params w s
    = (s', Thrown (new_GenerationError "Generation failed, retrying..."))
    /\ new_GenerationError "Generation failed, retrying..." <> e
    /\ status (run s') = processing
    /\ ~ In failed (writes_of s s').
Proof.
  intros parse params w s s' e Hp Hc Hr Hlt.
  destruct (generateTakeaway_retry Hp Hr Hlt) as (Hg & Hst & _ & Hw).
  split; [exact Hg |]. split; [| split; [exact Hst |]].
  - intros <-. discriminate Hc.
  - intros Hin. specialize (Hw _ Hin). discriminate Hw.
Qed.

Lemma violation_with_retriable_text_is_not_terminal_witness :
  exists s',
    pipeline Examples.parse Examples.params Examples.flagged Examples.fresh
    = (s', Thrown (new_GuardrailViolation "states a revenue of 500 million"))
    /\ isRetriableError (new_GuardrailViolation "states a revenue of 500 million") = true
    /\ retry_count (run Examples.fresh) < MAX_RETRIES
    /\ generateTakeaway Examples.parse Examples.params Examples.flagged Examples.fresh
       = (s', Thrown (new_GenerationError "Generation failed, retrying..."))
    /\ status (run s') = processing.
Proof.
  eexists.
  assert (Hp : pipeline Examples.parse Examples.params Examples.flagged Examples.fresh
               = (fst (pipeline Examples.parse Examples.params Examples.flagged
                                Examples.fresh),
                  Thrown (new_GuardrailViolation "states a revenue of 500 million")))
    by (vm_compute; reflexivity).
  assert (Hr : isRetriableError (new_GuardrailViolation "states a revenue of 500 million")
               = true) by (vm_compute; reflexivity).
  assert (Hlt : retry_count (run Examples.fresh) < MAX_RETRIES) by reflexivity.
  split; [exact Hp |]. split; [exact Hr |]. split; [exact Hlt |].
  destruct (violation_with_retriable_text_is_not_terminal Hp eq_refl Hr Hlt)
    as (Hg & _ & Hst & _).
  split; assumption.
Defined.



(** ** Planner *)

Lemma filled_iff (plan : Json) (name : string) :
  not_a_filled_string (own plan name) = false <-> filled plan name.
Proof.
  unfold filled, not_a_filled_string. split.
  - destruct (own plan name) as [[| | | text | |] |]; try discriminate.
    intros H. exists text. split; [reflexivity |].
    intros ->. discriminate.
  - intros (text & -> & Hne). destruct text; [congruence | reflexivity].
Qed.

Lemma enough_points_iff (plan : Json) :
  too_few_points (own plan "key_points") = false <->
  exists points, own plan "key_points" = Some (JArray points)
                 /\ (3 <= List.length points)%nat.
Proof.
  unfold too_few_points. split.
  - destruct (own plan "key_points") as [[| | | | points |] |]; try discriminate.
    intros H. exists points. split; [reflexivity |].
    apply Nat.ltb_ge. exact H.
  - intros (points & -> & H). apply Nat.ltb_ge. exact H.
Qed.

Lemma validatePlanStructure_iff (plan : Json) :
  validatePlanStructure plan = Returned tt <-> structure_checked plan.
Proof.
  unfold validatePlanStructure, structure_checked.
  rewrite <- !filled_iff, <- enough_points_iff.
  destruct (is_object plan); cbn [negb];
    [| split; [discriminate | intros [H _]; discriminate]].
  destruct (not_a_filled_string (own plan "title"));
    [split; [discriminate | intuition discriminate] |].
  destruct (not_a_filled_string (own plan "hook"));
    [split; [discriminate | intuition discriminate] |].
  destruct (too_few_points (own plan "key_points"));
    [split; [discriminate | intuition discriminate] |].
  destruct (not_a_filled_string (own plan "framing"));
    [split; [discriminate | intuition discriminate] |].
  destruct (not_a_filled_string (own plan "cta"));
    [split; [discriminate | intuition discriminate] |].
  tauto.
Qed.

Lemma validatePlanStructure_cases (plan : Json) :
  validatePlanStructure plan = Returned tt
  \/ exists m, validatePlanStructure plan = Thrown (new_Error m).
Proof.
  unfold validatePlanStructure.
  repeat match goal with
         | |- context [if ?b then _ else _] => destruct b; [right; eexists; reflexivity |]
         end.
  left; reflexivity.
Qed.

(** generateTakeawayPlan returns the parsed reply, and only when
    validatePlanStructure lets it through; all else is thrown on as an
    Error "Failed to generate takeaway plan: ...". *)
Lemma generateTakeawayPlan_returned parse reply plan :
  generateTakeawayPlan parse reply = Returned plan ->
  (exists content, chat reply = Returned content /\ parse content = Returned plan)
  /\ validatePlanStructure plan = Returned tt.
Proof.
  unfold generateTakeawayPlan.
  destruct (chat reply) as [content | e]; [| discriminate].
  destruct (parse content) as [p | e] eqn:Hp; [| discriminate].
  destruct (log_plan p) as [[] | e]; [| discriminate].
  destruct (validatePlanStructure p) as [[] | e] eqn:E; [| discriminate].
  intros H. injection H as <-. split; [exists content; split; auto | exact E].
Qed.

Lemma generateTakeawayPlan_thrown parse reply content plan :
  chat reply = Returned content -> parse content = Returned plan ->
  validatePlanStructure plan <> Returned tt ->
  exists m, generateTakeawayPlan parse reply
            = Thrown (new_Error ("Failed to generate takeaway plan: " ++ m)%string).
Proof.
  intros Hc Hp Hv. unfold generateTakeawayPlan. rewrite Hc, Hp.
  destruct (log_plan plan) as [[] | e]; [| eexists; reflexivity].
  destruct (validatePlanStructure plan) as [[] | e]; [congruence |].
  eexists; reflexivity.
Qed.

(** When the plan generator throws, nothing that is asked later is looked
    at. *)
Lemma failed_plan_ends_the_attempt parse params w w' s e :
  generateTakeawayPlan parse (planner w) = Thrown e ->
  same_until_plan w w' ->
  generateTakeaway parse params w' s = generateTakeaway parse params w s.
Proof.
  intros Hg (H1 & H2 & H3 & H4).
  destruct w, w'. cbn [classifier embedding search planner] in *. subst.
  open_store s. monad_unfold. cbn [classifier embedding search planner].
  rewrite Hg. split_calls; reflexivity.
Qed.

(** C6, as the code has it.  A plan returned by generateTakeawayPlan is an
    object whose title, hook, framing and cta are non-empty strings and
    whose key_points holds at least 3 elements; a parsed reply that is not
    so makes generateTakeawayPlan throw an Error "Failed to generate
    takeaway plan: ...", and the attempt ends there whatever the guardrail
    of the plan would have said.  A reply with fewer than 3 key points is
    such a reply. *)
Theorem plan_structure_is_checked_before_guardrails :
  forall (parse : string -> completion Json) (reply : create_reply),
    (forall plan, generateTakeawayPlan parse reply = Returned plan ->
                  structure_checked plan)
    /\ (forall content plan,
           chat reply = Returned content -> parse content = Returned plan ->
           ~ structure_checked plan ->
           (exists m, generateTakeawayPlan parse reply
                      = Thrown (new_Error
                                  ("Failed to generate takeaway plan: " ++ m)%string))
           /\ forall params w w' s,
               planner w = reply -> same_until_plan w w' ->
               generateTakeaway parse params w' s = generateTakeaway parse params w s)
    /\ (forall plan points,
           own plan "key_points" = Some (JArray points) ->
           (List.length points < 3)%nat ->
           ~ structure_checked plan).
Proof.
  intros parse reply. split; [| split].
  - intros plan H. apply validatePlanStructure_iff.
    exact (proj2 (generateTakeawayPlan_returned H)).
  - intros content plan Hc Hp Hn.
    assert (Hv : validatePlanStructure plan <> Returned tt).
    { intros H. apply Hn. apply validatePlanStructure_iff. exact H. }
    destruct (generateTakeawayPlan_thrown Hc Hp Hv) as (m & Hm).
    split; [exists m; exact Hm |].
    intros params w w' s <- Hsame.
    eapply failed_plan_ends_the_attempt; eassumption.
  - intros plan points Hk Hl (_ & _ & _ & _ & _ & pts & Hk' & Hl').
    rewrite Hk in Hk'. injection Hk' as <-. lia.
Qed.

Lemma plan_structure_is_checked_before_guardrails_witness :
  chat (Returned (Some "thin plan")) = Returned "thin plan"
  /\ Examples.parse "thin plan" = Returned Examples.thin_plan
  /\ ~ structure_checked Examples.thin_plan
  /\ exists m, generateTakeawayPlan Examples.parse (Returned (Some "thin plan"))
               = Thrown (new_Error ("Failed to generate takeaway plan: " ++ m)%string).
Proof.
  assert (Hn : ~ structure_checked Examples.thin_plan).
  { apply (proj2 (proj2 (plan_structure_is_checked_before_guardrails
                           Examples.parse (Returned (Some "thin plan"))))
                 Examples.thin_plan [JString "One"; JString "Two"] eq_refl).
    simpl. lia. }
  split; [reflexivity | split; [reflexivity | split; [exact Hn |]]].
  exact (proj1 (proj1 (proj2 (plan_structure_is_checked_before_guardrails
                                Examples.parse (Returned (Some "thin plan"))))
                      "thin plan" Examples.thin_plan eq_refl eq_refl Hn)).
Defined.

(** C6 as stated fails: a reply with six key points and a title of 87
    characters is returned as the plan. *)
Lemma six_points_and_long_title_pass :
  ~ (forall (parse : string -> completion Json) (reply : create_reply) (plan : Json),
        generateTakeawayPlan parse reply = Returned plan ->
        spec_plan_invariant plan).
Proof.
  intros claim.
  assert (H : generateTakeawayPlan Examples.parse (Returned (Some "wide plan"))
              = Returned Examples.wide_plan) by (vm_compute; reflexivity).
  destruct (claim _ _ _ H) as (_ & _ & _ & _ & (points & Hp & Hl) & _).
  vm_compute in Hp. injection Hp as <-. simpl in Hl. lia.
Qed.

(** ** Sorting and plain objects *)

Lemma insert_perm (A : Type) (first : A -> A -> bool) (x : A) (l : list A) :
  Permutation (insert first x l) (x :: l).
Proof.
  induction l as [| y l IH]; simpl; [reflexivity |].
  destruct (first x y); [reflexivity |].
  rewrite IH. apply perm_swap.
Qed.

Lemma sort_perm (A : Type) (first : A -> A -> bool) (l : list A) :
  Permutation (sort first l) l.
Proof.
  induction l as [| x l IH]; simpl; [reflexivity |].
  unfold sort in IH. rewrite insert_perm, IH. reflexivity.
Qed.

Lemma filter_split_perm (A : Type) (f : A -> bool) (l : list A) :
  Permutation (filter f l ++ filter (fun x => negb (f x)) l) l.
Proof.
  induction l as [| x l IH]; simpl; [reflexivity |].
  destruct (f x); simpl.
  - constructor. exact IH.
  - rewrite <- Permutation_middle. constructor. exact IH.
Qed.

Lemma keys_perm (V : Type) (o : obj V) : Permutation (keys o) (map fst o).
Proof.
  unfold keys. rewrite sort_perm. apply filter_split_perm.
Qed.

(** Without array indices among the names, [Object.keys] is the creation
    order. *)
Lemma keys_creation_order (V : Type) (o : obj V) :
  Forall (fun k => is_index k = false) (map fst o) -> keys o = map fst o.
Proof.
  unfold keys. generalize (map fst o) as l.
  induction l as [| k l IH]; intros H; [reflexivity |].
  inversion H as [| ? ? Hk Hl]; subst. specialize (IH Hl).
  simpl. rewrite Hk. simpl.
  assert (E : filter is_index l = []).
  { clear IH. induction l as [| k' l IH']; [reflexivity |].
    inversion Hl as [| ? ? Hk' Hl']; subst. simpl. rewrite Hk'. auto. }
  rewrite E in *. simpl in *. f_equal. exact IH.
Qed.

Lemma assoc_In (V : Type) (k : string) (o : list (string * V)) (v : V) :
  assoc k o = Some v -> In (k, v) o.
Proof.
  induction o as [| [k' v'] o IH]; simpl; [discriminate |].
  destruct (String.eqb_spec k k') as [-> | Hne].
  - intros H. injection H as <-. left; reflexivity.
  - intros H. right. auto.
Qed.

Lemma assoc_None (V : Type) (k : string) (o : list (string * V)) :
  assoc k o = None <-> ~ In k (map fst o).
Proof.
  induction o as [| [k' v'] o IH]; simpl; [tauto |].
  destruct (String.eqb_spec k k') as [-> | Hne].
  - split; [discriminate | tauto].
  - rewrite IH. intuition congruence.
Qed.

Lemma assoc_set_same (V : Type) (o : obj V) (k : string) (v : V) :
  assoc k (set o k v) = Some v.
Proof.
  induction o as [| [k' v'] o IH]; simpl.
  - rewrite String.eqb_refl. reflexivity.
  - destruct (String.eqb_spec k k') as [-> | Hne]; simpl.
    + rewrite String.eqb_refl. reflexivity.
    + destruct (String.eqb_spec k k'); [contradiction | exact IH].
Qed.

Lemma assoc_set_other (V : Type) (o : obj V) (k k' : string) (v : V) :
  k' <> k -> assoc k' (set o k v) = assoc k' o.
Proof.
  intros Hne. induction o as [| [k0 v0] o IH]; simpl.
  - destruct (String.eqb_spec k' k); [contradiction | reflexivity].
  - destruct (String.eqb_spec k k0) as [-> | Hk]; simpl.
    + destruct (String.eqb_spec k' k0); [contradiction | reflexivity].
    + destruct (String.eqb_spec k' k0); [reflexivity | exact IH].
Qed.

Lemma map_fst_set (V : Type) (o : obj V) (k : string) (v : V) :
  map fst (set o k v) = see (map fst o) k.
Proof.
  unfold see. induction o as [| [k0 v0] o IH]; simpl; [reflexivity |].
  destruct (String.eqb_spec k k0) as [-> | Hk]; simpl.
  - destruct (string_dec k0 k0); [reflexivity | contradiction].
  - rewrite IH. destruct (string_dec k0 k); [congruence |].
    destruct (in_dec string_dec k (map fst o)); reflexivity.
Qed.

Lemma map_fst_set_own (V : Type) (o : obj V) (k : string) (v w : V) :
  assoc k o = Some w -> map fst (set o k v) = map fst o.
Proof.
  intros H. rewrite map_fst_set. unfold see.
  destruct (in_dec string_dec k (map fst o)) as [_ | Hn]; [reflexivity |].
  apply assoc_None in Hn. congruence.
Qed.

Lemma get_own (V : Type) (o : obj V) (k : string) (v : V) :
  get o k = Own v <-> assoc k o = Some v.
Proof.
  unfold get. destruct (assoc k o) as [v' |].
  - split; intros H; injection H as <-; reflexivity.
  - destruct (assoc k Object_prototype); split; discriminate.
Qed.

(** ** First-seen order *)

Lemma see_incl (seen : list string) (t : string) :
  forall x, In x (see seen t) <-> In x seen \/ x = t.
Proof.
  intros x. unfold see. destruct (in_dec string_dec t seen) as [Hin | Hn].
  - split; [tauto | intros [H | ->]; assumption].
  - rewrite in_app_iff. simpl. intuition congruence.
Qed.

Lemma see_NoDup (seen : list string) (t : string) :
  NoDup seen -> NoDup (see seen t).
Proof.
  intros H. unfold see. destruct (in_dec string_dec t seen) as [Hin | Hn]; [exact H |].
  apply NoDup_app; auto.
  - constructor; [intros [] | constructor].
  - intros x Hx [<- | []]. contradiction.
Qed.

Lemma fold_see_spec (l seen : list string) :
  NoDup seen ->
  NoDup (fold_left see l seen)
  /\ forall x, In x (fold_left see l seen) <-> In x seen \/ In x l.
Proof.
  revert seen. induction l as [| t l IH]; intros seen H; simpl.
  - split; [exact H | tauto].
  - destruct (IH (see seen t) (see_NoDup t H)) as [Hn Hi].
    split; [exact Hn |]. intros x. rewrite Hi, see_incl. intuition congruence.
Qed.

Lemma NoDup_same_length (l l' : list string) :
  NoDup l -> NoDup l' -> (forall x, In x l <-> In x l') ->
  List.length l = List.length l'.
Proof.
  intros H H' E. apply Nat.le_antisymm; apply NoDup_incl_length; auto;
    intros x Hx; apply E; exact Hx.
Qed.

Lemma first_seen_length (l : list RAGChunk) :
  List.length (first_seen (themes l)) = ntopics l.
Proof.
  unfold ntopics, topics, first_seen.
  destruct (fold_see_spec (themes l) (seen := []) (NoDup_nil _)) as [Hn Hi].
  apply NoDup_same_length; auto.
  - apply NoDup_nodup.
  - intros x. rewrite Hi, nodup_In. simpl. tauto.
Qed.

(** ** The grouping loop *)

Lemma get_plain (o : groups) (t : string) :
  inherited t = false ->
  get o t = match assoc t o with Some l => Own l | None => Undefined end.
Proof.
  unfold inherited, get. intros H.
  destruct (assoc t o); [reflexivity |].
  destruct (assoc t Object_prototype); [discriminate | reflexivity].
Qed.

Lemma set_new (V : Type) (o : obj V) (k : string) (v : V) :
  assoc k o = None -> set o k v = o ++ [(k, v)].
Proof.
  induction o as [| [k' v'] o IH]; simpl; [reflexivity |].
  destruct (String.eqb_spec k k'); [discriminate |].
  intros H. rewrite (IH H). reflexivity.
Qed.

Lemma set_set (V : Type) (o : obj V) (k : string) (v w : V) :
  set (set o k v) k w = set o k w.
Proof.
  induction o as [| [k' v'] o IH]; simpl.
  - rewrite String.eqb_refl. reflexivity.
  - destruct (String.eqb_spec k k') as [-> | Hne]; simpl.
    + rewrite String.eqb_refl. reflexivity.
    + destruct (String.eqb_spec k k'); [contradiction |]. rewrite IH. reflexivity.
Qed.

Lemma Forall_set (V : Type) (P : string * V -> Prop) (o : obj V) (k : string) (v : V) :
  Forall P o -> P (k, v) -> Forall P (set o k v).
Proof.
  intros Ho Hv. induction Ho as [| [k' v'] o Hx Ho IH]; simpl.
  - constructor; [exact Hv | constructor].
  - destruct (String.eqb_spec k k') as [-> | Hne]; constructor; auto.
Qed.

Lemma perm_tail_swap (A : Type) (x r a : list A) :
  Permutation ((x ++ r) ++ a) ((x ++ a) ++ r).
Proof.
  rewrite <- !app_assoc. apply Permutation_app_head. apply Permutation_app_comm.
Qed.

(** Replacing a group by a longer or shorter one moves the chunks held. *)
Lemma held_set (o : groups) (k : string) (l l' a b : list RAGChunk) :
  assoc k o = Some l ->
  Permutation (l' ++ a) (l ++ b) ->
  Permutation (List.concat (map snd (set o k l')) ++ a)
              (List.concat (map snd o) ++ b).
Proof.
  intros H Hp. induction o as [| [k' v'] o IH]; simpl in *; [discriminate |].
  destruct (String.eqb_spec k k') as [-> | Hne]; simpl.
  - injection H as ->.
    rewrite perm_tail_swap, Hp. apply perm_tail_swap.
  - rewrite <- !app_assoc. apply Permutation_app_head. apply IH. exact H.
Qed.

Lemma grouped_add (o : groups) (c : RAGChunk) :
  grouped o ->
  let l := match assoc (theme c) o with Some l => l | None => [] end in
  grouped (set o (theme c) (l ++ [c]))
  /\ map fst (set o (theme c) (l ++ [c])) = see (map fst o) (theme c)
  /\ Permutation (List.concat (map snd (set o (theme c) (l ++ [c]))))
                 (List.concat (map snd o) ++ [c]).
Proof.
  intros [Hn Hf] l. split; [split |]; [| | split].
  - rewrite map_fst_set. apply see_NoDup. exact Hn.
  - apply Forall_set; [exact Hf |]. split; cbn [fst snd].
    + destruct l; discriminate.
    + apply Forall_app. split; [| constructor; [reflexivity | constructor]].
      subst l. destruct (assoc (theme c) o) as [l |] eqn:E; [| constructor].
      apply assoc_In in E. rewrite Forall_forall in Hf.
      exact (proj2 (Hf _ E)).
  - apply map_fst_set.
  - subst l. destruct (assoc (theme c) o) as [l |] eqn:E.
    + pose proof (@held_set o (theme c) l (l ++ [c]) [] [c] E) as H.
      rewrite !app_nil_r in H. apply H. reflexivity.
    + rewrite (set_new _ E), map_app, concat_app. reflexivity.
Qed.

Lemma group_chunks_spec (chunks : list RAGChunk) :
  forall o, grouped o -> plain_labels chunks ->
            exists o', group_chunks chunks o = Returned o'
                       /\ grouped o'
                       /\ map fst o' = fold_left see (themes chunks) (map fst o)
                       /\ Permutation (List.concat (map snd o'))
                                      (List.concat (map snd o) ++ chunks).
Proof.
  induction chunks as [| c chunks IH]; intros o Hg Hplain.
  - exists o. simpl. rewrite app_nil_r. auto.
  - assert (Hc : inherited (theme c) = false) by (apply Hplain; left; reflexivity).
    assert (Hrest : plain_labels chunks) by (intros x Hx; apply Hplain; right; exact Hx).
    destruct (grouped_add c Hg) as (Hg' & Hk & Hp). cbv zeta in Hg', Hk, Hp.
    cbn [group_chunks]. rewrite (get_plain o Hc).
    destruct (assoc (theme c) o) as [l |] eqn:E.
    + rewrite (get_plain o Hc), E.
      destruct (IH _ Hg' Hrest) as (o' & Ho' & Hgo' & Hko' & Hpo').
      exists o'. repeat split; try apply Hgo'; auto.
      * rewrite Hko', Hk. reflexivity.
      * rewrite Hpo', Hp, <- app_assoc. reflexivity.
    + rewrite (get_plain _ Hc), assoc_set_same, set_set.
      destruct (IH _ Hg' Hrest) as (o' & Ho' & Hgo' & Hko' & Hpo').
      exists o'. repeat split; try apply Hgo'; auto.
      * rewrite Hko', Hk. reflexivity.
      * rewrite Hpo', Hp, <- app_assoc. reflexivity.
Qed.

(** A topic that names an inherited property stops the grouping. *)
Lemma group_chunks_throws (chunks : list RAGChunk) :
  forall o, Forall (fun k => inherited k = false) (map fst o) ->
            ~ plain_labels chunks ->
            group_chunks chunks o = Thrown not_a_function.
Proof.
  induction chunks as [| c chunks IH]; intros o Ho Hn.
  - exfalso. apply Hn. intros x [].
  - cbn [group_chunks].
    destruct (inherited (theme c)) eqn:Hc.
    + assert (E : assoc (theme c) o = None).
      { apply assoc_None. intros Hin. rewrite Forall_forall in Ho.
        rewrite (Ho _ Hin) in Hc. discriminate. }
      unfold inherited in Hc. unfold get. rewrite E.
      destruct (assoc (theme c) Object_prototype); [| discriminate].
      rewrite E. reflexivity.
    + assert (Hrest : ~ plain_labels chunks).
      { intros H. apply Hn. intros x [<- | Hx]; auto. }
      rewrite (get_plain o Hc).
      destruct (assoc (theme c) o) as [l |] eqn:E.
      * rewrite (get_plain o Hc), E. apply IH; [| exact Hrest].
        rewrite (map_fst_set_own _ E). exact Ho.
      * rewrite (get_plain _ Hc), assoc_set_same, set_set. apply IH; [| exact Hrest].
        rewrite map_fst_set. unfold see.
        destruct (in_dec string_dec (theme c) (map fst o)); [exact Ho |].
        apply Forall_app. split; [exact Ho | constructor; [exact Hc | constructor]].
Qed.

Lemma sort_groups_spec (o : groups) :
  grouped o ->
  grouped (sort_groups o)
  /\ map fst (sort_groups o) = map fst o
  /\ Permutation (List.concat (map snd (sort_groups o))) (List.concat (map snd o)).
Proof.
  intros [Hn Hf].
  assert (Hk : map fst (sort_groups o) = map fst o).
  { unfold sort_groups. rewrite map_map. reflexivity. }
  split; [split |]; [| | split].
  - rewrite Hk. exact Hn.
  - unfold sort_groups. rewrite Forall_map.
    eapply Forall_impl; [| exact Hf].
    intros [k g] [Hne Hth]. unfold of_topic. cbn [fst snd] in *. split.
    + intros E. apply Hne. apply Permutation_nil.
      rewrite <- E. apply sort_perm.
    + eapply Permutation_Forall; [symmetry; apply sort_perm | exact Hth].
  - exact Hk.
  - unfold sort_groups. clear. induction o as [| [k g] o IH]; simpl; [reflexivity |].
    apply Permutation_app; [apply sort_perm | exact IH].
Qed.

(** ** The selection loop *)

Lemma splice1_app (A : Type) (l1 l2 : list A) (x : A) :
  splice1 (List.length l1) (l1 ++ x :: l2) = l1 ++ l2.
Proof.
  unfold splice1. induction l1 as [| y l1 IH]; simpl; [reflexivity |].
  f_equal. exact IH.
Qed.

Lemma app_eq_same_length (A : Type) (l1 l2 r1 r2 : list A) :
  l1 ++ r1 = l2 ++ r2 -> List.length l1 = List.length l2 -> l1 = l2 /\ r1 = r2.
Proof.
  revert l2. induction l1 as [| x l1 IH]; intros [| y l2] H Hl;
    simpl in *; try discriminate; auto.
  injection H as <- H. destruct (IH l2 H) as [-> ->]; auto.
Qed.

Lemma themes_snoc (res : list RAGChunk) (c : RAGChunk) :
  themes (res ++ [c]) = themes res ++ [theme c].
Proof. unfold themes. rewrite map_app. reflexivity. Qed.

(** The topic at the index leaves the keys: its group is exhausted. *)
Lemma phase_after_removal keys0 res l1 l2 c g g' :
  let st := {| result := res; themeKeys := l1 ++ theme c :: l2;
               themeIndex := List.length l1; themeGroups := g |} in
  first_round keys0 st \/ saturated keys0 st ->
  let st' := remove_theme st (res ++ [c]) g' in
  first_round keys0 st' \/ saturated keys0 st'.
Proof.
  intros st [(pre & post & Hne & Hk & Hi & H0) | (more & Hm)] st';
    subst st st'; unfold remove_theme, first_round, saturated in *;
    cbn [result themeKeys themeIndex] in *.
  - destruct (app_eq_same_length Hk Hi) as [<- <-].
    rewrite splice1_app, themes_snoc.
    destruct l2 as [| k2 l2].
    + right. exists []. rewrite app_nil_r. exact H0.
    + left. exists l1, (k2 :: l2). repeat split.
      * discriminate.
      * destruct (Nat.leb_spec (List.length (l1 ++ k2 :: l2)) (List.length l1)) as [H | H];
          [| reflexivity].
        rewrite length_app in H. simpl in H. lia.
      * rewrite <- app_assoc. exact H0.
  - right. exists (more ++ [theme c]). rewrite themes_snoc, Hm, app_assoc. reflexivity.
Qed.

(** The topic at the index stays: the index moves on. *)
Lemma phase_after_advance keys0 res l1 l2 c g g' :
  let st := {| result := res; themeKeys := l1 ++ theme c :: l2;
               themeIndex := List.length l1; themeGroups := g |} in
  first_round keys0 st \/ saturated keys0 st ->
  let st' := next_theme st (res ++ [c]) g' in
  first_round keys0 st' \/ saturated keys0 st'.
Proof.
  intros st [(pre & post & Hne & Hk & Hi & H0) | (more & Hm)] st';
    subst st st'; unfold next_theme, first_round, saturated in *;
    cbn [result themeKeys themeIndex] in *.
  - destruct (app_eq_same_length Hk Hi) as [<- <-].
    rewrite themes_snoc.
    destruct l2 as [| k2 l2].
    + right. exists []. rewrite app_nil_r. exact H0.
    + left. exists (l1 ++ [theme c]), (k2 :: l2). repeat split.
      * discriminate.
      * rewrite <- app_assoc. reflexivity.
      * rewrite Nat.mod_small; rewrite !length_app; cbn [List.length]; lia.
      * rewrite <- app_assoc. exact H0.
  - right. exists (more ++ [theme c]). rewrite themes_snoc, Hm, app_assoc. reflexivity.
Qed.

(** One turn under the invariant: a chunk is taken, the invariant holds
    again, and the groups hold one chunk less. *)
Lemma turn_spec keys0 chunks st :
  selecting keys0 chunks st -> themeKeys st <> [] ->
  exists st', turn st = Returned st'
              /\ selecting keys0 chunks st'
              /\ S (held (themeGroups st')) = held (themeGroups st).
Proof.
  destruct st as [res keys idx grp]. unfold selecting. cbn [result themeKeys themeIndex themeGroups].
  intros (Hnd & Hidx & Hgrp & Hown & Hfull & Hph & Hperm) Hkeys.
  specialize (Hidx Hkeys).
  destruct (nth_split keys "undefined" Hidx) as (l1 & l2 & Hsplit & Hlen).
  set (k := nth idx keys "undefined") in *. clearbody k. subst idx.
  assert (Hin : In k keys) by (rewrite Hsplit; apply in_elt).
  destruct (Hgrp k Hin) as (c & g & Ha & Hall).
  inversion Hall as [| ? ? Hc Hg]; subst.
  pose proof (@held_set grp (theme c) (c :: g) g [c] [] Ha) as Hheld.
  rewrite !app_nil_r in Hheld.
  specialize (Hheld (Permutation_sym (Permutation_cons_append g c))).
  unfold turn. cbn [result themeKeys themeIndex themeGroups].
  rewrite nth_middle, (proj2 (get_own grp (theme c) (c :: g)) Ha).
  assert (Hheld' : S (held (set grp (theme c) g)) = held grp).
  { unfold held. rewrite <- (Permutation_length Hheld), length_app. simpl. lia. }
  assert (Hperm' : Permutation ((res ++ [c]) ++ List.concat (map snd (set grp (theme c) g)))
                               chunks).
  { rewrite <- Hperm, <- Hheld, <- app_assoc. apply Permutation_app_head.
    apply Permutation_app_comm. }
  assert (Hothers : forall k', k' <> theme c ->
                               assoc k' (set grp (theme c) g) = assoc k' grp).
  { intros k' Hk'. apply assoc_set_other. exact Hk'. }
  destruct g as [| c2 g2].
  - (* the group is exhausted *)
    eexists. split; [reflexivity |].
    split; [| exact Hheld'].
    unfold remove_theme. cbn [result themeKeys themeIndex themeGroups].
    rewrite splice1_app.
    assert (Hnd' : NoDup (l1 ++ l2)) by (eapply NoDup_remove_1; exact Hnd).
    assert (Hout : ~ In (theme c) (l1 ++ l2)) by (eapply NoDup_remove_2; exact Hnd).
    split; [exact Hnd' |]. split; [| split; [| split; [| split; [| split]]]].
    + intros Hne. destruct (Nat.leb_spec (List.length (l1 ++ l2)) (List.length l1)) as [H | H].
      * destruct (l1 ++ l2); [contradiction | simpl; lia].
      * exact H.
    + intros k' Hk'.
      assert (k' <> theme c) by (intros ->; contradiction).
      rewrite (Hothers _ H). apply Hgrp.
      apply in_app_or in Hk'. apply in_or_app. simpl. tauto.
    + rewrite (map_fst_set_own _ Ha). exact Hown.
    + intros k' g' Hkg Hne'.
      destruct (string_dec k' (theme c)) as [-> | Hk'].
      * rewrite assoc_set_same in Hkg. injection Hkg as <-. contradiction.
      * rewrite (Hothers _ Hk') in Hkg.
        assert (Hin' : In k' (l1 ++ theme c :: l2)) by (eapply Hfull; eassumption).
        apply in_app_or in Hin'. apply in_or_app. simpl in Hin'. intuition congruence.
    + pose proof (@phase_after_removal keys0 res l1 l2 c grp (set grp (theme c) []) Hph)
        as Hph'.
      cbv zeta in Hph'. unfold remove_theme in Hph'.
      cbn [result themeKeys themeIndex themeGroups] in Hph'.
      rewrite splice1_app in Hph'. exact Hph'.
    + exact Hperm'.
  - (* the group goes on *)
    eexists. split; [reflexivity |].
    split; [| exact Hheld'].
    unfold next_theme. cbn [result themeKeys themeIndex themeGroups].
    split; [exact Hnd |]. split; [| split; [| split; [| split; [| split]]]].
    + intros _. apply Nat.mod_upper_bound. destruct (l1 ++ theme c :: l2) eqn:E;
        [destruct l1; discriminate | discriminate].
    + intros k' Hk'. destruct (string_dec k' (theme c)) as [-> | Hne].
      * rewrite assoc_set_same. exists c2, g2. split; [reflexivity | exact Hg].
      * rewrite (Hothers _ Hne). apply Hgrp. exact Hk'.
    + rewrite (map_fst_set_own _ Ha). exact Hown.
    + intros k' g' Hkg Hne'.
      destruct (string_dec k' (theme c)) as [-> | Hk']; [exact Hin |].
      rewrite (Hothers _ Hk') in Hkg. eapply Hfull; eassumption.
    + exact (@phase_after_advance keys0 res l1 l2 c grp
                                  (set grp (theme c) (c2 :: g2)) Hph).
    + exact Hperm'.
Qed.

Lemma In_assoc_NoDup (V : Type) (o : obj V) (k : string) (v : V) :
  NoDup (map fst o) -> In (k, v) o -> assoc k o = Some v.
Proof.
  induction o as [| [k' v'] o IH]; simpl; [intros _ [] |].
  intros Hn [H | H].
  - injection H as -> ->. rewrite String.eqb_refl. reflexivity.
  - inversion Hn as [| ? ? Hk Hn']; subst.
    destruct (String.eqb_spec k k') as [-> | Hne]; [| auto].
    exfalso. apply Hk. apply (in_map fst) in H. exact H.
Qed.

Lemma concat_all_nil (A : Type) (l : list (list A)) :
  (forall g, In g l -> g = []) -> List.concat l = [].
Proof.
  induction l as [| g l IH]; intros H; simpl; [reflexivity |].
  rewrite (H g (or_introl eq_refl)), IH; [reflexivity |].
  intros g' Hg'. apply H. right. exact Hg'.
Qed.

(** What the invariant gives when the loop stops. *)
Lemma selecting_exit keys0 chunks limit st :
  selecting keys0 chunks st -> continue limit st = false ->
  selected keys0 chunks limit (result st).
Proof.
  destruct st as [res keys idx grp]. unfold selecting, continue, selected.
  cbn [result themeKeys themeIndex themeGroups].
  intros (Hnd & Hidx & Hgrp & Hown & Hfull & Hph & Hperm) Hc.
  unfold first_round, saturated in Hph.
  cbn [result themeKeys themeIndex themeGroups] in Hph.
  split; [| split].
  - apply andb_false_iff in Hc. destruct Hc as [Hc | Hc].
    + left. apply Z.ltb_ge. exact Hc.
    + right. apply negb_false_iff, Nat.eqb_eq in Hc.
      destruct keys; [| discriminate].
      assert (Hempty : List.concat (map snd grp) = []).
      { apply concat_all_nil. intros g Hg. apply in_map_iff in Hg.
        destruct Hg as ([k g'] & <- & Hin). cbn [snd].
        destruct g' as [| c g']; [reflexivity |].
        exfalso. apply (Hfull k (c :: g')); [| discriminate].
        apply In_assoc_NoDup; assumption. }
      rewrite Hempty, app_nil_r in Hperm. split; [exact Hperm |].
      destruct Hph as [(pre & post & Hne & Hk & _) | (more & Hm)].
      * destruct pre; destruct post; simpl in Hk; try discriminate. contradiction.
      * apply (f_equal (@List.length string)) in Hm. unfold themes in Hm.
        rewrite length_map, length_app in Hm. lia.
  - destruct Hph as [(pre & post & Hne & Hk & Hi & H0) | (more & Hm)].
    + subst keys0. rewrite firstn_all2.
      * replace (List.length res) with (List.length (themes res))
          by (unfold themes; apply length_map).
        rewrite firstn_length_app. reflexivity.
      * rewrite length_app. lia.
    + rewrite Hm, firstn_length_app, firstn_all2; [reflexivity |].
      apply (f_equal (@List.length string)) in Hm. unfold themes in Hm.
      rewrite length_map, length_app in Hm. lia.
  - exists (List.concat (map snd grp)). exact Hperm.
Qed.

(** The loop ends before its fuel does, with the invariant's harvest. *)
Lemma round_robin_spec keys0 chunks limit :
  forall fuel st,
    selecting keys0 chunks st -> (held (themeGroups st) <= fuel)%nat ->
    exists out, round_robin fuel limit st = Some (Returned out)
                /\ selected keys0 chunks limit out.
Proof.
  induction fuel as [| fuel IH]; intros st Hinv Hfuel; cbn [round_robin];
    destruct (continue limit st) eqn:Hc;
    try (exists (result st); split; [reflexivity | apply selecting_exit; assumption]).
  - exfalso. unfold continue in Hc. apply andb_true_iff in Hc. destruct Hc as [_ Hc].
    assert (Hk : themeKeys st <> []).
    { intros E. rewrite E in Hc. discriminate. }
    destruct (turn_spec Hinv Hk) as (st' & _ & _ & Hheld). lia.
  - assert (Hk : themeKeys st <> []).
    { unfold continue in Hc. apply andb_true_iff in Hc. destruct Hc as [_ Hc].
      intros E. rewrite E in Hc. discriminate. }
    destruct (turn_spec Hinv Hk) as (st' & -> & Hinv' & Hheld).
    apply IH; [exact Hinv' | lia].
Qed.

(** ** diversifyByTheme *)

Lemma key_order_perm (chunks : list RAGChunk) :
  Permutation (key_order chunks) (first_seen (themes chunks)).
Proof.
  unfold key_order. cbv zeta. rewrite sort_perm. apply filter_split_perm.
Qed.

Lemma first_seen_NoDup (l : list string) : NoDup (first_seen l).
Proof. exact (proj1 (fold_see_spec l (NoDup_nil _))). Qed.

Lemma first_seen_In (l : list string) (x : string) : In x (first_seen l) <-> In x l.
Proof.
  unfold first_seen. rewrite (proj2 (fold_see_spec l (NoDup_nil _))). simpl. tauto.
Qed.

Lemma key_order_NoDup (chunks : list RAGChunk) : NoDup (key_order chunks).
Proof.
  eapply Permutation_NoDup; [symmetry; apply key_order_perm | apply first_seen_NoDup].
Qed.

Lemma key_order_length (chunks : list RAGChunk) :
  List.length (key_order chunks) = ntopics chunks.
Proof.
  rewrite (Permutation_length (key_order_perm chunks)). apply first_seen_length.
Qed.

(** Without array indices among the topics, the groups are listed as
    first seen. *)
Lemma key_order_first_seen (chunks : list RAGChunk) :
  no_index_labels chunks -> key_order chunks = first_seen (themes chunks).
Proof.
  intros H.
  assert (Hf : Forall (fun k => is_index k = false)
                      (map fst (map (fun k => (k, tt)) (first_seen (themes chunks))))).
  { rewrite map_map. cbn [fst]. rewrite map_id. apply Forall_forall.
    intros k Hk. apply (proj1 (first_seen_In _ _)) in Hk. unfold themes in Hk.
    apply in_map_iff in Hk. destruct Hk as (c & <- & Hc). apply H. exact Hc. }
  pose proof (keys_creation_order Hf) as E. unfold keys in E.
  rewrite map_map in E. cbn [fst] in E. rewrite map_id in E. exact E.
Qed.

Lemma plain_labels_dec (chunks : list RAGChunk) :
  {plain_labels chunks} + {~ plain_labels chunks}.
Proof.
  unfold plain_labels.
  induction chunks as [| c chunks [IH | IH]].
  - left. intros c [].
  - destruct (inherited (theme c)) eqn:E.
    + right. intros H. rewrite (H c (or_introl eq_refl)) in E. discriminate.
    + left. intros x [<- | Hx]; auto.
  - right. intros H. apply IH. intros x Hx. apply H. right. exact Hx.
Defined.

(** From the groups that the grouping loop returns, the selection loop
    ends within its turns and selects from the groups in key order. *)
Lemma round_robin_from_groups (chunks : list RAGChunk) (limit : Z) (g : groups) :
  group_chunks chunks [] = Returned g ->
  exists out,
    round_robin (List.length chunks) limit
                {| result := []; themeKeys := keys (sort_groups g); themeIndex := O;
                   themeGroups := sort_groups g |} = Some (Returned out)
    /\ selected (key_order chunks) chunks limit out.
Proof.
  intros Hg.
  assert (Hplain : plain_labels chunks).
  { destruct (plain_labels_dec chunks) as [Hp | Hn]; [exact Hp |].
    rewrite (group_chunks_throws (o := []) (Forall_nil _) Hn) in Hg. discriminate. }
  assert (Hg0 : grouped []) by (split; constructor).
  destruct (group_chunks_spec Hg0 Hplain) as (o1 & Ho1 & Hg1 & Hk1 & Hp1).
  rewrite Hg in Ho1. injection Ho1 as <-.
  destruct (sort_groups_spec Hg1) as (Hg2 & Hk2 & Hp2).
  set (o2 := sort_groups g) in *.
  assert (Hkeys : keys o2 = key_order chunks).
  { unfold keys, key_order. cbv zeta. rewrite Hk2, Hk1. reflexivity. }
  set (st := {| result := []; themeKeys := keys o2; themeIndex := O; themeGroups := o2 |}).
  assert (Hinv : selecting (key_order chunks) chunks st).
  { unfold selecting. subst st. cbn [result themeKeys themeIndex themeGroups].
    destruct Hg2 as [Hn2 Hf2].
    split; [rewrite Hkeys; apply key_order_NoDup |].
    split; [intros Hne; destruct (keys o2); [contradiction | simpl; lia] |].
    split; [| split; [exact Hn2 | split; [| split]]].
    - intros k Hk. rewrite (keys_perm o2) in Hk. apply in_map_iff in Hk.
      destruct Hk as ([k' l] & <- & Hin). cbn [fst].
      rewrite Forall_forall in Hf2. destruct (Hf2 _ Hin) as [Hne Hth]. cbn [fst snd] in *.
      destruct l as [| c l]; [contradiction |].
      exists c, l. split; [apply In_assoc_NoDup; assumption | exact Hth].
    - intros k l Ha _. rewrite (keys_perm o2). apply assoc_In in Ha.
      apply (in_map fst) in Ha. exact Ha.
    - rewrite Hkeys. destruct (key_order chunks) as [| k ks] eqn:E.
      + right. exists []. reflexivity.
      + left. exists [], (k :: ks). repeat split. discriminate.
    - simpl. rewrite Hp2, Hp1. reflexivity. }
  assert (Hfuel : (held (themeGroups st) <= List.length chunks)%nat).
  { subst st. cbn [themeGroups]. unfold held.
    rewrite (Permutation_length Hp2), (Permutation_length Hp1). simpl. lia. }
  exact (round_robin_spec limit Hinv Hfuel).
Qed.

(** The loop of diversifyByTheme never runs out of turns. *)
Lemma round_robin_ends (chunks : list RAGChunk) (limit : Z) (g : groups) :
  group_chunks chunks [] = Returned g ->
  round_robin (List.length chunks) limit
              {| result := []; themeKeys := keys (sort_groups g); themeIndex := O;
                 themeGroups := sort_groups g |} <> None.
Proof.
  intros Hg. destruct (round_robin_from_groups limit Hg) as (out & -> & _).
  discriminate.
Qed.

(** With plain topics, diversifyByTheme returns what the loop selects from
    the groups in key order. *)
Lemma diversifyByTheme_spec (chunks : list RAGChunk) (limit : Z) :
  plain_labels chunks ->
  exists out, diversifyByTheme chunks limit = Returned out
              /\ selected (key_order chunks) chunks limit out.
Proof.
  intros Hplain.
  assert (Hg0 : grouped []) by (split; constructor).
  destruct (group_chunks_spec Hg0 Hplain) as (g & Hg & _).
  destruct (round_robin_from_groups limit Hg) as (out & Hout & Hsel).
  exists out. split; [| exact Hsel].
  unfold diversifyByTheme. rewrite Hg, Hout. reflexivity.
Qed.

(** diversifyByTheme returns exactly when no topic names an inherited
    property; otherwise the push on the inherited value throws. *)
Lemma diversifyByTheme_returns_iff (chunks : list RAGChunk) (limit : Z) :
  (exists out, diversifyByTheme chunks limit = Returned out) <-> plain_labels chunks.
Proof.
  split.
  - intros (out & H). destruct (plain_labels_dec chunks) as [Hp | Hn]; [exact Hp |].
    unfold diversifyByTheme in H.
    rewrite (group_chunks_throws (o := []) (Forall_nil _) Hn) in H. discriminate.
  - intros Hp. destruct (diversifyByTheme_spec limit Hp) as (out & H & _).
    exists out. exact H.
Qed.

(** ** Counting topics *)

Lemma ntopics_le_length (l : list RAGChunk) : (ntopics l <= List.length l)%nat.
Proof.
  unfold ntopics, topics, themes.
  rewrite <- (length_map theme l).
  apply NoDup_incl_length; [apply NoDup_nodup |].
  intros x Hx. apply nodup_In in Hx. exact Hx.
Qed.

Lemma ntopics_ge (ks : list string) (l : list RAGChunk) :
  NoDup ks -> incl ks (themes l) -> (List.length ks <= ntopics l)%nat.
Proof.
  intros Hn Hi. unfold ntopics, topics.
  apply NoDup_incl_length; [exact Hn |].
  intros x Hx. apply nodup_In. apply Hi. exact Hx.
Qed.

Lemma ntopics_incl (a b : list RAGChunk) :
  incl (themes a) (themes b) -> (ntopics a <= ntopics b)%nat.
Proof.
  intros H. unfold ntopics at 1. apply ntopics_ge; [apply NoDup_nodup |].
  intros x Hx. apply H. unfold topics in Hx. apply nodup_In in Hx. exact Hx.
Qed.

Lemma NoDup_prefix (A : Type) (n : nat) (l : list A) : NoDup l -> NoDup (firstn n l).
Proof.
  intros H. rewrite <- (firstn_skipn n l) in H.
  eapply NoDup_app_remove_r. exact H.
Qed.

Lemma incl_prefix (A : Type) (n : nat) (l : list A) : incl (firstn n l) l.
Proof.
  intros x Hx. rewrite <- (firstn_skipn n l). apply in_or_app. left. exact Hx.
Qed.

(** The output holds as many topics as the limit allows, up to all of
    them. *)
Lemma selected_breadth keys0 chunks limit out :
  NoDup keys0 -> selected keys0 chunks limit out ->
  Z.min limit (Z.of_nat (List.length keys0)) <= Z.of_nat (ntopics out).
Proof.
  intros Hn (Hex & Hpre & _).
  destruct (Nat.le_gt_cases (List.length keys0) (List.length out)) as [Hle | Hgt].
  - rewrite (firstn_all2 keys0 Hle) in Hpre.
    assert (Hi : incl keys0 (themes out)).
    { rewrite <- Hpre. apply incl_prefix. }
    pose proof (ntopics_ge Hn Hi). lia.
  - assert (Hl : limit <= Z.of_nat (List.length out)).
    { destruct Hex as [H | [_ H]]; [exact H | lia]. }
    assert (Ht : themes out = firstn (List.length out) keys0).
    { rewrite <- Hpre. symmetry. apply firstn_all2. unfold themes.
      rewrite length_map. lia. }
    assert (Hd : NoDup (themes out)) by (rewrite Ht; apply NoDup_prefix; exact Hn).
    assert (He : ntopics out = List.length out).
    { unfold ntopics, topics. rewrite (nodup_fixed_point string_dec Hd).
      unfold themes. apply length_map. }
    lia.
Qed.

(** What diversifyByTheme returns: at least as many topics as the naive
    cut, taken first from the groups in key order, which is the order of
    first sight when no topic is an array index; never more chunks than
    candidates. *)
Lemma diversifyByTheme_returned chunks limit out :
  diversifyByTheme chunks limit = Returned out ->
  Z.min limit (Z.of_nat (ntopics chunks)) <= Z.of_nat (ntopics out)
  /\ (ntopics (naive_cut chunks limit) <= ntopics out)%nat
  /\ firstn (ntopics chunks) (themes out) = firstn (List.length out) (key_order chunks)
  /\ (no_index_labels chunks -> key_order chunks = first_seen (themes chunks))
  /\ (exists rest, Permutation (out ++ rest) chunks).
Proof.
  intros H.
  assert (Hp : plain_labels chunks).
  { apply (diversifyByTheme_returns_iff chunks limit). exists out. exact H. }
  destruct (diversifyByTheme_spec limit Hp) as (out' & H' & Hsel).
  rewrite H in H'. injection H' as <-.
  pose proof (selected_breadth (key_order_NoDup chunks) Hsel) as Hb.
  rewrite key_order_length in Hb.
  destruct Hsel as (_ & Hpre & Hrest). rewrite key_order_length in Hpre.
  split; [exact Hb |]. split; [| split; [exact Hpre | split; [| exact Hrest]]].
  - assert (H1 : (ntopics (naive_cut chunks limit) <= Z.to_nat limit)%nat).
    { etransitivity; [apply ntopics_le_length |]. unfold naive_cut. apply firstn_le_length. }
    assert (H2 : (ntopics (naive_cut chunks limit) <= ntopics chunks)%nat).
    { apply ntopics_incl. unfold naive_cut, themes. rewrite <- firstn_map. apply incl_prefix. }
    lia.
  - apply key_order_first_seen.
Qed.

(** C1.  When the candidates hold 3 topics or more and the limit is 3 or
    more, what diversifyByTheme returns holds chunks of at least
    min(topics of the candidates, 3) topics, and so does the chunks field
    of the context that retrieveRelevantContext returns.  (It does return
    when no topic names a property that a plain object inherits.) *)
Theorem diversified_output_spans_three_topics :
  forall (candidates : list RAGChunk) (limit : Z),
    (3 <= ntopics candidates)%nat ->
    3 <= limit ->
    (forall out,
        diversifyByTheme candidates limit = Returned out ->
        (Nat.min (ntopics candidates) 3 <= ntopics out)%nat)
    /\ (forall params embedding reply context,
           data reply = Some candidates ->
           match topK params with Some k => k | None => TOP_K_CHUNKS end = limit ->
           retrieveRelevantContext params embedding reply = Returned context ->
           (Nat.min (ntopics candidates) 3 <= ntopics (chunks context))%nat)
    /\ (plain_labels candidates ->
        exists out, diversifyByTheme candidates limit = Returned out).
Proof.
  intros candidates limit Hn Hl.
  assert (Hout : forall out, diversifyByTheme candidates limit = Returned out ->
                             (Nat.min (ntopics candidates) 3 <= ntopics out)%nat).
  { intros out H. destruct (diversifyByTheme_returned H) as (Hb & _). lia. }
  split; [exact Hout | split; [| apply diversifyByTheme_returns_iff]].
  intros params embedding reply context Hd Hk H.
  unfold retrieveRelevantContext in H. rewrite Hk, Hd in H.
  destruct embedding as [[] | e]; [| discriminate].
  destruct (error reply); [discriminate |].
  destruct candidates as [| c candidates]; [discriminate |].
  destruct (diversifyByTheme (c :: candidates) limit) as [out | e] eqn:E; [| discriminate].
  injection H as <-. cbn [chunks]. apply Hout. reflexivity.
Qed.

Lemma diversified_output_spans_three_topics_witness :
  (3 <= ntopics Examples.candidates)%nat
  /\ 3 <= 3
  /\ exists out, diversifyByTheme Examples.candidates 3 = Returned out
                 /\ (Nat.min (ntopics Examples.candidates) 3 <= ntopics out)%nat.
Proof.
  assert (Hn : (3 <= ntopics Examples.candidates)%nat) by (vm_compute; lia).
  assert (Hl : 3 <= 3) by lia.
  split; [exact Hn | split; [exact Hl |]].
  eexists. split; [vm_compute; reflexivity |].
  apply (proj1 (diversified_output_spans_three_topics Hn Hl)).
  vm_compute. reflexivity.
Defined.




(** C9 at one candidate whose topic is "constructor": the grouping finds
    the inherited property of that name, the push on it throws a
    TypeError, and the run is failed. *)
Theorem inherited_topic_fails_the_retrieval :
  retrieveRelevantContext
    {| userProfile := Examples.profile; Rag.format := video;
       Rag.customization := Examples.custom; topK := None |}
    (Returned tt) Examples.odd_topic
  = Thrown (new_TypeError "themeGroups[chunk.theme].push is not a function")
  /\ snd (generateTakeaway Examples.parse Examples.params Examples.odd Examples.fresh)
     = Thrown (new_TypeError "themeGroups[chunk.theme].push is not a function")
  /\ status (run (fst (generateTakeaway Examples.parse Examples.params Examples.odd
                                        Examples.fresh))) = failed.
Proof.
  repeat split; vm_compute; reflexivity.
Qed.

(** ** Retrieval at the edges *)

(** With plain topics and no more candidates than the limit, every
    candidate is returned. *)
Lemma few_candidates_all_returned (candidates : list RAGChunk) (limit : Z) :
  plain_labels candidates ->
  Z.of_nat (List.length candidates) <= limit ->
  exists out, diversifyByTheme candidates limit = Returned out
              /\ Permutation out candidates.
Proof.
  intros Hp Hl.
  destruct (diversifyByTheme_spec limit Hp) as (out & H & Hex & _ & rest & Hrest).
  exists out. split; [exact H |].
  destruct Hex as [Hlim | [Hperm _]]; [| exact Hperm].
  pose proof (Permutation_length Hrest) as Hlen. rewrite length_app in Hlen.
  destruct rest as [| c rest]; [| simpl in Hlen; lia].
  rewrite app_nil_r in Hrest. exact Hrest.
Qed.

(** A search that finds nothing ends the attempt: the run is failed with
    the message of the error, which is not retriable. *)
Lemma no_candidates_fail_without_retry parse params w s :
  validateExtraInstruction (extra_instruction (Orchestrator.customization params))
                           (classifier w) = Returned tt ->
  embedding w = Returned tt ->
  error (search w) = None ->
  data (search w) = None \/ data (search w) = Some [] ->
  exists s',
    generateTakeaway parse params w s
    = (s', Thrown (new_Error "No relevant content found for this query"))
    /\ status (run s') = failed
    /\ retry_count (run s') = retry_count (run s)
    /\ error_message (run s') = Some "No relevant content found for this query".
Proof.
  intros Hv He Herr Hd.
  assert (Hp : exists s1, pipeline parse params w s
                          = (s1, Thrown (new_Error
                                           "No relevant content found for this query"))).
  { open_store s. monad_unfold. rewrite Hv.
    unfold retrieveRelevantContext. rewrite He, Herr.
    destruct Hd as [-> | ->]; eexists; reflexivity. }
  destruct Hp as (s1 & Hp).
  destruct (pipeline_thrown Hp) as (Hrc & _ & _).
  assert (Hnr : isRetriableError (new_Error "No relevant content found for this query")
                = false \/ MAX_RETRIES <= retry_count (run s1))
    by (left; vm_compute; reflexivity).
  destruct (on_error_fail Hnr) as (s' & Hs' & Hst & Hrc' & Hm & _).
  exists s'. rewrite generateTakeaway_eq, Hp, Hs', <- Hrc. auto.
Qed.
(* ================================================================== *)
(** * Further properties *)
(* ================================================================== *)

(** ** diversifyByTheme: what a turn does, and what the loop keeps *)

Lemma turn_shape keys0 chunks st :
  selecting keys0 chunks st -> themeKeys st <> [] ->
  exists l1 l2 c g,
    themeKeys st = l1 ++ theme c :: l2
    /\ themeIndex st = List.length l1
    /\ assoc (theme c) (themeGroups st) = Some (c :: g)
    /\ turn st
       = Returned
           match g with
           | [] => remove_theme st (result st ++ [c]) (set (themeGroups st) (theme c) g)
           | _ :: _ => next_theme st (result st ++ [c]) (set (themeGroups st) (theme c) g)
           end.
Proof.
  destruct st as [res keys idx grp]. unfold selecting.
  cbn [result themeKeys themeIndex themeGroups].
  intros (Hnd & Hidx & Hgrp & _) Hkeys.
  specialize (Hidx Hkeys).
  destruct (nth_split keys "undefined" Hidx) as (l1 & l2 & Hsplit & Hlen).
  set (k := nth idx keys "undefined") in *. clearbody k. subst idx.
  assert (Hin : In k keys) by (rewrite Hsplit; apply in_elt).
  destruct (Hgrp k Hin) as (c & g & Ha & Hall).
  inversion Hall as [| ? ? Hc Hg]; subst.
  exists l1, l2, c, g. repeat split; [exact Ha |].
  unfold turn. cbn [result themeKeys themeIndex themeGroups].
  rewrite nth_middle, (proj2 (get_own grp (theme c) (c :: g)) Ha).
  destruct g; reflexivity.
Qed.

(** The state in which the selection loop starts satisfies its
    invariant. *)
Lemma selecting_starts (chunks : list RAGChunk) (g : groups) :
  group_chunks chunks [] = Returned g ->
  selecting (key_order chunks) chunks
            {| result := []; themeKeys := keys (sort_groups g); themeIndex := O;
               themeGroups := sort_groups g |}.
Proof.
  intros Hg.
  assert (Hplain : plain_labels chunks).
  { destruct (plain_labels_dec chunks) as [Hp | Hn]; [exact Hp |].
    rewrite (group_chunks_throws (o := []) (Forall_nil _) Hn) in Hg. discriminate. }
  assert (Hg0 : grouped []) by (split; constructor).
  destruct (group_chunks_spec Hg0 Hplain) as (o1 & Ho1 & Hg1 & Hk1 & Hp1).
  rewrite Hg in Ho1. injection Ho1 as <-.
  destruct (sort_groups_spec Hg1) as (Hg2 & Hk2 & Hp2).
  set (o2 := sort_groups g) in *.
  assert (Hkeys : keys o2 = key_order chunks).
  { unfold keys, key_order. cbv zeta. rewrite Hk2, Hk1. reflexivity. }
  unfold selecting. cbn [result themeKeys themeIndex themeGroups].
  destruct Hg2 as [Hn2 Hf2].
  split; [rewrite Hkeys; apply key_order_NoDup |].
  split; [intros Hne; destruct (keys o2); [contradiction | simpl; lia] |].
  split; [| split; [exact Hn2 | split; [| split]]].
  - intros k Hk. rewrite (keys_perm o2) in Hk. apply in_map_iff in Hk.
    destruct Hk as ([k' l] & <- & Hin). cbn [fst].
    rewrite Forall_forall in Hf2. destruct (Hf2 _ Hin) as [Hne Hth]. cbn [fst snd] in *.
    destruct l as [| c l]; [contradiction |].
    exists c, l. split; [apply In_assoc_NoDup; assumption | exact Hth].
  - intros k l Ha _. rewrite (keys_perm o2). apply assoc_In in Ha.
    apply (in_map fst) in Ha. exact Ha.
  - rewrite Hkeys. destruct (key_order chunks) as [| k ks] eqn:E.
    + right. exists []. reflexivity.
    + left. exists [], (k :: ks). repeat split. discriminate.
  - simpl. rewrite Hp2, Hp1. reflexivity.
Qed.

(** A property that every turn keeps holds when the loop hands back. *)
Lemma round_robin_keeps keys0 chunks limit (I : selection -> Prop) :
  (forall st st', selecting keys0 chunks st -> continue limit st = true -> I st ->
                  turn st = Returned st' -> I st') ->
  forall fuel st out,
    selecting keys0 chunks st -> I st ->
    round_robin fuel limit st = Some (Returned out) ->
    exists st', selecting keys0 chunks st' /\ I st'
                /\ continue limit st' = false /\ result st' = out.
Proof.
  intros Hstep. induction fuel as [| fuel IH]; intros st out Hsel HI;
    cbn [round_robin]; destruct (continue limit st) eqn:Hc; try discriminate.
  - intros H. injection H as <-. exists st. auto.
  - assert (Hk : themeKeys st <> []).
    { unfold continue in Hc. apply andb_true_iff in Hc. destruct Hc as [_ Hc].
      intros E. rewrite E in Hc. discriminate. }
    destruct (turn_spec Hsel Hk) as (st' & Ht & Hsel' & _). rewrite Ht.
    apply IH; [exact Hsel' |]. exact (Hstep st st' Hsel Hc HI Ht).
  - intros H. injection H as <-. exists st. auto.
Qed.

(** What diversifyByTheme returns is what its loop hands back. *)
Lemma diversifyByTheme_loop (chunks : list RAGChunk) (limit : Z) (out : list RAGChunk) :
  diversifyByTheme chunks limit = Returned out ->
  exists g, group_chunks chunks [] = Returned g
            /\ round_robin (List.length chunks) limit
                           {| result := []; themeKeys := keys (sort_groups g);
                              themeIndex := O; themeGroups := sort_groups g |}
               = Some (Returned out).
Proof.
  unfold diversifyByTheme. destruct (group_chunks chunks []) as [g | e] eqn:Hg;
    [| discriminate].
  destruct (round_robin_from_groups limit Hg) as (out' & Hout & _).
  rewrite Hout. intros H. exists g. split; [reflexivity |]. rewrite Hout, H. reflexivity.
Qed.

Lemma diversifyByTheme_keeps (chunks : list RAGChunk) (limit : Z) (out : list RAGChunk)
      (I : selection -> Prop) :
  (forall g, group_chunks chunks [] = Returned g ->
             I {| result := []; themeKeys := keys (sort_groups g); themeIndex := O;
                  themeGroups := sort_groups g |}) ->
  (forall st st', selecting (key_order chunks) chunks st -> continue limit st = true ->
                  I st -> turn st = Returned st' -> I st') ->
  diversifyByTheme chunks limit = Returned out ->
  exists st', selecting (key_order chunks) chunks st' /\ I st'
              /\ continue limit st' = false /\ result st' = out.
Proof.
  intros H0 Hstep H. destruct (diversifyByTheme_loop H) as (g & Hg & Hloop).
  exact (round_robin_keeps Hstep (selecting_starts Hg) (H0 g Hg) Hloop).
Qed.

(** ** The groups, topic by topic *)

Lemma group_of_set (g : groups) (k k' : string) (l : list RAGChunk) :
  group_of k' (set g k l) = if String.eqb k' k then l else group_of k' g.
Proof.
  unfold group_of. destruct (String.eqb_spec k' k) as [-> | Hne].
  - rewrite assoc_set_same. reflexivity.
  - rewrite (assoc_set_other _ _ Hne). reflexivity.
Qed.

Lemma filter_of_theme_snoc (k : string) (l : list RAGChunk) (c : RAGChunk) :
  filter (of_theme k) (l ++ [c])
  = filter (of_theme k) l ++ (if String.eqb (theme c) k then [c] else []).
Proof. rewrite filter_app. reflexivity. Qed.

(** The grouping loop appends to the group of each topic the chunks of
    the topic, in the order of the candidates. *)
Lemma group_chunks_groups (chunks : list RAGChunk) :
  forall o o', group_chunks chunks o = Returned o' ->
               forall k, group_of k o' = group_of k o ++ filter (of_theme k) chunks.
Proof.
  induction chunks as [| c chunks IH]; intros o o' H k.
  - simpl in H. injection H as <-. simpl. rewrite app_nil_r. reflexivity.
  - cbn [group_chunks] in H. unfold get in H.
    destruct (assoc (theme c) o) as [l |] eqn:E.
    + cbn in H; rewrite ?E in H. rewrite (IH _ _ H k), group_of_set. cbn [filter].
      change (of_theme k c) with (String.eqb (theme c) k).
      rewrite (String.eqb_sym k).
      destruct (String.eqb_spec (theme c) k) as [<- | Hne].
      * unfold group_of. rewrite E, <- app_assoc. reflexivity.
      * reflexivity.
    + destruct (assoc (theme c) Object_prototype) eqn:Ep.
      * cbn in H; rewrite ?E, ?Ep in H; discriminate.
      * cbn in H; rewrite ?assoc_set_same, ?set_set in H.
        rewrite (IH _ _ H k), group_of_set. cbn [filter].
        change (of_theme k c) with (String.eqb (theme c) k).
        rewrite (String.eqb_sym k).
        destruct (String.eqb_spec (theme c) k) as [<- | Hne].
        -- unfold group_of. rewrite E. reflexivity.
        -- reflexivity.
Qed.

Lemma group_of_sort_groups (g : groups) (k : string) :
  group_of k (sort_groups g) = sort by_similarity (group_of k g).
Proof.
  unfold group_of, sort_groups. induction g as [| [k' l] g IH]; simpl; [reflexivity |].
  destruct (String.eqb k k'); [reflexivity | exact IH].
Qed.

Lemma ranked_starts (chunks : list RAGChunk) (g : groups) :
  group_chunks chunks [] = Returned g ->
  ranked chunks {| result := []; themeKeys := keys (sort_groups g); themeIndex := O;
                   themeGroups := sort_groups g |}.
Proof.
  intros Hg k. cbn [result themeGroups]. simpl.
  rewrite group_of_sort_groups, (group_chunks_groups Hg k). reflexivity.
Qed.

Lemma ranked_step keys0 chunks st st' :
  selecting keys0 chunks st -> themeKeys st <> [] -> ranked chunks st ->
  turn st = Returned st' -> ranked chunks st'.
Proof.
  intros Hsel Hk Hr Ht.
  destruct (turn_shape Hsel Hk) as (l1 & l2 & c & g & _ & _ & Ha & Ht').
  rewrite Ht in Ht'. injection Ht' as ->.
  assert (E : forall k, filter (of_theme k) (result st ++ [c])
                        ++ group_of k (set (themeGroups st) (theme c) g)
                        = filter (of_theme k) (result st) ++ group_of k (themeGroups st)).
  { intros k. rewrite filter_of_theme_snoc, group_of_set, (String.eqb_sym k).
    destruct (String.eqb_spec (theme c) k) as [<- | Hne].
    - unfold group_of. rewrite Ha, <- app_assoc. reflexivity.
    - rewrite app_nil_r. reflexivity. }
  intros k. specialize (E k). specialize (Hr k).
  destruct g; cbn [result themeGroups remove_theme next_theme]; rewrite E; exact Hr.
Qed.

Lemma continue_keys limit st : continue limit st = true -> themeKeys st <> [].
Proof.
  unfold continue. intros Hc. apply andb_true_iff in Hc. destruct Hc as [_ Hc].
  intros E. rewrite E in Hc. discriminate.
Qed.

Lemma diversifyByTheme_ranked (chunks : list RAGChunk) (limit : Z) (out : list RAGChunk) :
  diversifyByTheme chunks limit = Returned out ->
  exists st, selecting (key_order chunks) chunks st /\ ranked chunks st
             /\ continue limit st = false /\ result st = out.
Proof.
  apply diversifyByTheme_keeps.
  - intros g Hg. exact (ranked_starts Hg).
  - intros st st' Hsel Hc Hr Ht. exact (ranked_step Hsel (continue_keys Hc) Hr Ht).
Qed.

(** ** Sorting by similarity *)

Lemma insert_descending (x : RAGChunk) (l : list RAGChunk) :
  descending l -> descending (insert by_similarity x l).
Proof.
  unfold descending. induction l as [| y l IH]; intros Hs; simpl.
  - constructor; constructor.
  - inversion Hs as [| ? ? Hl Hy]; subst.
    destruct (by_similarity x y) eqn:E.
    + constructor; [exact Hs |].
      unfold by_similarity in E. apply Qle_bool_iff in E.
      constructor; [exact E |].
      eapply Forall_impl; [| exact Hy]. intros z Hz. cbv beta in *.
      eapply Qle_trans; eassumption.
    + constructor; [apply IH; exact Hl |].
      assert (Hxy : Qle (similarity x) (similarity y)).
      { unfold by_similarity in E.
        destruct (Qlt_le_dec (similarity y) (similarity x)) as [Hlt | Hle]; [| exact Hle].
        apply Qlt_le_weak in Hlt. apply Qle_bool_iff in Hlt. congruence. }
      eapply Permutation_Forall; [symmetry; apply insert_perm |].
      constructor; assumption.
Qed.

Lemma sort_descending (l : list RAGChunk) : descending (sort by_similarity l).
Proof.
  induction l as [| x l IH]; simpl; [constructor |].
  apply insert_descending. exact IH.
Qed.

Lemma descending_prefix (l r : list RAGChunk) : descending (l ++ r) -> descending l.
Proof.
  unfold descending. induction l as [| x l IH]; simpl; intros H; [constructor |].
  inversion H as [| ? ? Hl Hx]; subst. constructor; [auto |].
  apply Forall_app in Hx. tauto.
Qed.

Lemma StronglySorted_app_inv (A : Type) (R : A -> A -> Prop) (l r : list A) :
  StronglySorted R (l ++ r) -> forall a b, In a l -> In b r -> R a b.
Proof.
  induction l as [| x l IH]; simpl; intros H a b Ha Hb; [contradiction |].
  inversion H as [| ? ? Hl Hx]; subst. destruct Ha as [<- | Ha].
  - rewrite Forall_forall in Hx. apply Hx. apply in_or_app. right. exact Hb.
  - eapply IH; eassumption.
Qed.

(** X1.  Within each topic diversifyByTheme takes the chunks in
    descending order of similarity: the chunks of a topic in its output
    are the first ones of the topic's candidates sorted by similarity
    (equal scores in candidate order), and a candidate left out is never
    more similar than a chunk of its topic that was taken. *)
Theorem diversifyByTheme_takes_the_best_of_each_topic :
  forall (candidates : list RAGChunk) (limit : Z) (out : list RAGChunk),
    diversifyByTheme candidates limit = Returned out ->
    forall k,
      descending (filter (of_theme k) out)
      /\ (exists rest, filter (of_theme k) out ++ rest
                       = sort by_similarity (filter (of_theme k) candidates))
      /\ (forall taken left,
             In taken out -> theme taken = k ->
             In left candidates -> theme left = k -> ~ In left out ->
             Qle (similarity left) (similarity taken)).
Proof.
  intros candidates limit out H k.
  destruct (diversifyByTheme_ranked H) as (st & _ & Hr & _ & <-).
  specialize (Hr k).
  pose proof (sort_descending (filter (of_theme k) candidates)) as Hs.
  rewrite <- Hr in Hs.
  split; [exact (descending_prefix Hs) |].
  split; [exists (group_of k (themeGroups st)); exact Hr |].
  intros taken left Ht Htk Hl Hlk Hout.
  apply (StronglySorted_app_inv Hs (a := taken) (b := left)).
  - apply filter_In. split; [exact Ht |]. unfold of_theme. rewrite Htk. apply String.eqb_refl.
  - assert (Hin : In left (sort by_similarity (filter (of_theme k) candidates))).
    { apply (Permutation_in _ (Permutation_sym (sort_perm _ _))).
      apply filter_In. split; [exact Hl |]. unfold of_theme. rewrite Hlk.
      apply String.eqb_refl. }
    rewrite <- Hr in Hin. apply in_app_or in Hin. destruct Hin as [Hin | Hin]; [| exact Hin].
    apply filter_In in Hin. destruct Hin as [Hin _]. contradiction.
Qed.

Lemma diversifyByTheme_takes_the_best_of_each_topic_witness :
  exists out,
    diversifyByTheme Examples.candidates 5 = Returned out
    /\ descending (filter (of_theme "Customer Success") out)
    /\ filter (of_theme "Customer Success") out
       = [Examples.chunk "c1" "Customer Success" 0.93;
          Examples.chunk "c2" "Customer Success" 0.91].
Proof.
  eexists. split; [vm_compute; reflexivity |].
  split; [| vm_compute; reflexivity].
  refine (proj1 (@diversifyByTheme_takes_the_best_of_each_topic
                   Examples.candidates 5 _ _ "Customer Success")).
  vm_compute. reflexivity.
Defined.

(** ** The size of the selection *)

Lemma turn_takes_one keys0 chunks st st' :
  selecting keys0 chunks st -> themeKeys st <> [] -> turn st = Returned st' ->
  exists c, result st' = result st ++ [c].
Proof.
  intros Hsel Hk Ht.
  destruct (turn_shape Hsel Hk) as (l1 & l2 & c & g & _ & _ & _ & Ht').
  rewrite Ht in Ht'. injection Ht' as ->. exists c. destruct g; reflexivity.
Qed.

Lemma diversifyByTheme_size (candidates : list RAGChunk) (limit : Z)
      (out : list RAGChunk) :
  diversifyByTheme candidates limit = Returned out ->
  Z.of_nat (List.length out)
  = Z.min (Z.max limit 0) (Z.of_nat (List.length candidates))
  /\ exists rest, Permutation (out ++ rest) candidates.
Proof.
  intros H.
  destruct (@diversifyByTheme_keeps candidates limit out
              (fun st => Z.of_nat (List.length (result st)) <= Z.max limit 0))
    as (st & Hsel & Hb & Hc & <-).
  - intros g _. simpl. lia.
  - intros st st' Hsel Hc Hb Ht.
    destruct (turn_takes_one Hsel (continue_keys Hc) Ht) as (c & ->).
    unfold continue in Hc. apply andb_true_iff in Hc. destruct Hc as [Hc _].
    apply Z.ltb_lt in Hc. rewrite length_app. simpl. lia.
  - exact H.
  - destruct (selecting_exit Hsel Hc) as (Hex & _ & rest & Hrest).
    split; [| exists rest; exact Hrest].
    pose proof (Permutation_length Hrest) as Hlen. rewrite length_app in Hlen.
    destruct Hex as [Hlim | [Hperm _]].
    + lia.
    + pose proof (Permutation_length Hperm). lia.
Qed.

(** X2.  diversifyByTheme returns exactly min(limit, number of
    candidates) chunks (none when the limit is zero or negative), each
    of them a candidate and none of them more often than the candidates
    hold it. *)
Theorem diversifyByTheme_returns_as_many_as_asked :
  forall (candidates : list RAGChunk) (limit : Z) (out : list RAGChunk),
    diversifyByTheme candidates limit = Returned out ->
    Z.of_nat (List.length out)
    = Z.min (Z.max limit 0) (Z.of_nat (List.length candidates))
    /\ exists rest, Permutation (out ++ rest) candidates.
Proof.
  intros candidates limit out H. exact (diversifyByTheme_size H).
Qed.

Lemma diversifyByTheme_returns_as_many_as_asked_witness :
  exists out,
    diversifyByTheme Examples.candidates 4 = Returned out
    /\ Z.of_nat (List.length out)
       = Z.min (Z.max 4 0) (Z.of_nat (List.length Examples.candidates)).
Proof.
  eexists. split; [vm_compute; reflexivity |].
  refine (proj1 (@diversifyByTheme_returns_as_many_as_asked Examples.candidates 4 _ _)).
  vm_compute. reflexivity.
Defined.

(** ** The balance of the round robin *)

Lemma share_snoc (k : string) (l : list RAGChunk) (c : RAGChunk) :
  share k (l ++ [c])
  = (share k l + if String.eqb (theme c) k then 1 else 0)%nat.
Proof.
  unfold share. rewrite filter_of_theme_snoc, length_app.
  destruct (String.eqb (theme c) k); reflexivity.
Qed.

Lemma nth_error_middle_NoDup (l1 l2 : list string) (k : string) (p : nat) :
  NoDup (l1 ++ k :: l2) -> nth_error (l1 ++ k :: l2) p = Some k -> p = List.length l1.
Proof.
  intros Hnd Hp.
  assert (Hlt : (p < List.length (l1 ++ k :: l2))%nat).
  { apply nth_error_Some. rewrite Hp. discriminate. }
  apply (proj1 (NoDup_nth_error _) Hnd p (List.length l1) Hlt).
  rewrite Hp, nth_error_app2, Nat.sub_diag; [reflexivity | lia].
Qed.

Lemma balanced_step keys0 chunks st st' :
  selecting keys0 chunks st -> themeKeys st <> [] -> balanced st ->
  turn st = Returned st' -> balanced st'.
Proof.
  intros Hsel Hk (r & Hpos & Hout) Ht.
  destruct (turn_shape Hsel Hk) as (l1 & l2 & c & g & Hkeys & Hidx & _ & Ht').
  rewrite Ht in Ht'. injection Ht' as ->.
  assert (Hnd : NoDup (l1 ++ theme c :: l2)) by (rewrite <- Hkeys; apply Hsel).
  rewrite Hkeys, Hidx in Hpos. rewrite Hkeys in Hout.
  assert (Hat : share (theme c) (result st) = r).
  { rewrite (Hpos (List.length l1) (theme c)).
    - rewrite Nat.ltb_irrefl. reflexivity.
    - rewrite nth_error_app2, Nat.sub_diag; [reflexivity | lia]. }
  assert (Hother : forall k, k <> theme c ->
                             share k (result st ++ [c]) = share k (result st)).
  { intros k Hne. rewrite share_snoc.
    destruct (String.eqb_spec (theme c) k); [congruence | lia]. }
  assert (Hself : share (theme c) (result st ++ [c]) = S r).
  { rewrite share_snoc, String.eqb_refl, Hat. lia. }
  assert (Hbefore : forall p k, (p < List.length l1)%nat -> nth_error l1 p = Some k ->
                                share k (result st ++ [c]) = S r).
  { intros p k Hp Hn.
    assert (Hn' : nth_error (l1 ++ theme c :: l2) p = Some k)
      by (rewrite nth_error_app1; assumption).
    assert (Hne : k <> theme c).
    { intros ->. apply (nth_error_middle_NoDup Hnd) in Hn'. lia. }
    rewrite (Hother _ Hne), (Hpos _ _ Hn').
    destruct (Nat.ltb_spec p (List.length l1)); [reflexivity | lia]. }
  assert (Hafter : forall q k, nth_error l2 q = Some k ->
                               share k (result st ++ [c]) = r).
  { intros q k Hn.
    assert (Hn' : nth_error (l1 ++ theme c :: l2) (List.length l1 + S q) = Some k).
    { rewrite nth_error_app2 by lia.
      replace (List.length l1 + S q - List.length l1)%nat with (S q) by lia. exact Hn. }
    assert (Hne : k <> theme c).
    { intros ->. apply (nth_error_middle_NoDup Hnd) in Hn'. lia. }
    rewrite (Hother _ Hne), (Hpos _ _ Hn').
    destruct (Nat.ltb_spec (List.length l1 + S q) (List.length l1)); [lia | reflexivity]. }
  assert (Hgone : forall k, ~ In k (l1 ++ theme c :: l2) ->
                            (share k (result st ++ [c]) <= S r)%nat).
  { intros k Hn. rewrite Hother; [apply Hout; exact Hn |].
    intros ->. apply Hn. apply in_elt. }
  destruct g as [| c2 g2].
  - (* the topic leaves the keys *)
    unfold remove_theme, balanced. cbn [result themeKeys themeIndex].
    rewrite Hkeys, Hidx, splice1_app.
    destruct l2 as [| k2 l2].
    + rewrite app_nil_r, Nat.leb_refl. exists (S r). split.
      * intros p k Hn.
        assert (Hp : (p < List.length l1)%nat) by (apply nth_error_Some; congruence).
        rewrite (Hbefore _ _ Hp Hn). reflexivity.
      * intros k Hn. destruct (string_dec k (theme c)) as [-> | Hne]; [lia |].
        assert (Hn' : ~ In k (l1 ++ [theme c])).
        { intros Hin. apply in_app_or in Hin. simpl in Hin. intuition congruence. }
        specialize (Hgone _ Hn'). lia.
    + destruct (Nat.leb_spec (List.length (l1 ++ k2 :: l2)) (List.length l1)) as [Hle | Hgt].
      { rewrite length_app in Hle. simpl in Hle. lia. }
      exists r. split.
      * intros p k Hn. destruct (Nat.ltb_spec p (List.length l1)) as [Hp | Hp].
        -- rewrite nth_error_app1 in Hn by exact Hp. exact (Hbefore _ _ Hp Hn).
        -- rewrite nth_error_app2 in Hn by exact Hp.
           apply (Hafter (p - List.length l1)%nat). exact Hn.
      * intros k Hn. destruct (string_dec k (theme c)) as [-> | Hne]; [lia |].
        apply Hgone. intros Hin. apply Hn.
        apply in_app_or in Hin. apply in_or_app.
        destruct Hin as [Hin | [Hin | Hin]];
          [left; exact Hin | congruence | right; exact Hin].
  - (* the topic stays, the index moves on *)
    unfold next_theme, balanced. cbn [result themeKeys themeIndex].
    rewrite Hkeys, Hidx.
    assert (Hpos' : forall p k, nth_error (l1 ++ theme c :: l2) p = Some k ->
                                share k (result st ++ [c])
                                = if (p <? S (List.length l1))%nat then S r else r).
    { intros p k Hn. destruct (Nat.ltb_spec p (S (List.length l1))) as [Hp | Hp].
      - destruct (Nat.eq_dec p (List.length l1)) as [-> | Hne].
        + rewrite nth_error_app2, Nat.sub_diag in Hn by lia. injection Hn as <-. exact Hself.
        + assert (Hp' : (p < List.length l1)%nat) by lia.
          rewrite nth_error_app1 in Hn by exact Hp'. exact (Hbefore _ _ Hp' Hn).
      - rewrite nth_error_app2 in Hn by lia.
        destruct (p - List.length l1)%nat as [| q] eqn:Eq; [lia |].
        simpl in Hn. exact (Hafter _ _ Hn). }
    destruct l2 as [| k2 l2].
    + replace (S (List.length l1) mod List.length (l1 ++ [theme c]))%nat with O.
      * exists (S r). split.
        -- intros p k Hn. rewrite (Hpos' _ _ Hn).
           assert (Hp : (p < List.length (l1 ++ [theme c]))%nat)
             by (apply nth_error_Some; congruence).
           rewrite length_app in Hp. simpl in Hp.
           destruct (Nat.ltb_spec p (S (List.length l1))); [reflexivity | lia].
        -- intros k Hn. specialize (Hgone _ Hn). lia.
      * rewrite length_app. simpl. rewrite Nat.add_1_r. symmetry. apply Nat.Div0.mod_same.
    + rewrite Nat.mod_small by (rewrite length_app; simpl; lia).
      exists r. split; [exact Hpos' | exact Hgone].
Qed.

Lemma balanced_starts (g : groups) :
  balanced {| result := []; themeKeys := keys (sort_groups g); themeIndex := O;
              themeGroups := sort_groups g |}.
Proof.
  exists O. cbn [result themeKeys themeIndex]. unfold share. split; intros; simpl.
  - reflexivity.
  - lia.
Qed.

(** X3.  The round robin is fair: in what diversifyByTheme returns no
    topic has more than one chunk more than another topic, unless every
    candidate of that other topic has been taken. *)
Theorem diversifyByTheme_is_balanced :
  forall (candidates : list RAGChunk) (limit : Z) (out : list RAGChunk),
    diversifyByTheme candidates limit = Returned out ->
    forall k1 k2,
      (share k1 out <= S (share k2 out))%nat \/ share k2 out = share k2 candidates.
Proof.
  intros candidates limit out H k1 k2.
  destruct (@diversifyByTheme_keeps candidates limit out
              (fun st => ranked candidates st /\ balanced st))
    as (st & Hsel & [Hr (r & Hpos & Hout)] & _ & <-).
  - intros g Hg. split; [exact (ranked_starts Hg) | apply balanced_starts].
  - intros st st' Hsel Hc [Hr Hb] Ht. split.
    + exact (ranked_step Hsel (continue_keys Hc) Hr Ht).
    + exact (balanced_step Hsel (continue_keys Hc) Hb Ht).
  - exact H.
  - assert (Hle : forall k, (share k (result st) <= S r)%nat).
    { intros k. destruct (in_dec string_dec k (themeKeys st)) as [Hin | Hn].
      - apply In_nth_error in Hin. destruct Hin as (p & Hp).
        rewrite (Hpos _ _ Hp). destruct (p <? themeIndex st)%nat; lia.
      - apply Hout. exact Hn. }
    destruct (in_dec string_dec k2 (themeKeys st)) as [Hin | Hn].
    + left. apply In_nth_error in Hin. destruct Hin as (p & Hp).
      rewrite (Hpos _ _ Hp). specialize (Hle k1).
      destruct (p <? themeIndex st)%nat; lia.
    + right. specialize (Hr k2).
      assert (Hg : group_of k2 (themeGroups st) = []).
      { unfold group_of. destruct (assoc k2 (themeGroups st)) as [l |] eqn:Ha; [| reflexivity].
        destruct l as [| c l]; [reflexivity |].
        exfalso. apply Hn.
        destruct Hsel as (_ & _ & _ & _ & Hfull & _).
        apply (Hfull k2 (c :: l) Ha). discriminate. }
      rewrite Hg, app_nil_r in Hr. unfold share. rewrite Hr.
      apply Permutation_length. apply sort_perm.
Qed.

Lemma diversifyByTheme_is_balanced_witness :
  exists out,
    diversifyByTheme Examples.candidates 5 = Returned out
    /\ ((share "Customer Success" out <= S (share "Team Culture" out))%nat
        \/ share "Team Culture" out = share "Team Culture" Examples.candidates).
Proof.
  eexists. split; [vm_compute; reflexivity |].
  refine (@diversifyByTheme_is_balanced Examples.candidates 5 _ _
            "Customer Success" "Team Culture").
  vm_compute. reflexivity.
Defined.

(** ** What generateTakeaway leaves in the run *)

Lemma on_error_keeps_results e s :
  let s' := fst (on_error e s) in
  rag_query (run s') = rag_query (run s)
  /\ rag_chunks_used (run s') = rag_chunks_used (run s)
  /\ takeaway_plan (run s') = takeaway_plan (run s)
  /\ script (run s') = script (run s).
Proof.
  open_store s. monad_unfold.
  destruct (isRetriableError e && _); cbn; auto.
Qed.

Lemma on_error_cases e s :
  on_error e s = (s, Thrown (new_GenerationError "Generation failed, retrying..."))
  \/ (exists s', on_error e s = (s', Thrown e)
                 /\ status (run s') = failed
                 /\ error_message (run s') = Some (message e)
                 /\ written s' = written s ++ [failed]).
Proof.
  destruct (isRetriableError e) eqn:Hr.
  - destruct (Z_lt_le_dec (retry_count (run s)) MAX_RETRIES) as [Hlt | Hge].
    + left. exact (on_error_retry (e := e) (s := s) Hr Hlt).
    + right. destruct (on_error_fail (e := e) (s := s) (or_intror Hge))
        as (s' & H & ? & ? & ? & ?).
      exists s'. auto.
  - right. destruct (on_error_fail (e := e) (s := s) (or_introl Hr))
      as (s' & H & ? & ? & ? & ?).
    exists s'. auto.
Qed.

(** The plan that the [try] block stores was returned by
    generateTakeawayPlan and let through by validatePlan. *)
Lemma pipeline_plan parse params w s s' c :
  pipeline parse params w s = (s', c) ->
  takeaway_plan (run s') = takeaway_plan (run s)
  \/ exists plan, takeaway_plan (run s') = Some plan
                  /\ generateTakeawayPlan parse (planner w) = Returned plan
                  /\ validatePlan plan (plan_validator w) = Returned tt.
Proof.
  open_store s. monad_unfold. split_calls.
  all: intros H; inversion H; subst; clear H; cbn.
  all: try (left; reflexivity).
  all: right; eexists; split; [reflexivity |]; split; [reflexivity |].
  all: match goal with H : validatePlan _ _ = Returned ?u |- _ => destruct u; exact H end.
Qed.

(** X4.  Whatever generateTakeaway does, the takeaway_plan of the run is
    afterwards either what it was before or a plan that
    generateTakeawayPlan returned and validatePlan let through: a plan
    with the required structure whose JSON text holds none of the
    prohibited patterns.  A plan that fails a check is never stored. *)
Theorem the_stored_plan_passed_the_plan_checks :
  forall (parse : string -> completion Json) (params : GenerationParams)
         (w : Replies) (s : Store),
    let s' := fst (generateTakeaway parse params w s) in
    takeaway_plan (run s') = takeaway_plan (run s)
    \/ exists plan,
        takeaway_plan (run s') = Some plan
        /\ generateTakeawayPlan parse (planner w) = Returned plan
        /\ validatePlan plan (plan_validator w) = Returned tt
        /\ structure_checked plan
        /\ clean (stringify plan).
Proof.
  intros parse params w s. cbv zeta.
  assert (Hp : exists s1, takeaway_plan (run (fst (generateTakeaway parse params w s)))
                          = takeaway_plan (run s1)
                          /\ exists c, pipeline parse params w s = (s1, c)).
  { rewrite generateTakeaway_eq.
    destruct (pipeline parse params w s) as [s1 [g | e]] eqn:E.
    - exists s1. split; [reflexivity | eexists; reflexivity].
    - exists s1. split; [apply (on_error_keeps_results e s1) | eexists; reflexivity]. }
  destruct Hp as (s1 & -> & c & Hp).
  destruct (pipeline_plan Hp) as [H | (plan & H & Hg & Hv)]; [left; exact H | right].
  exists plan. split; [exact H |]. split; [exact Hg |]. split; [exact Hv |]. split.
  - apply validatePlanStructure_iff. exact (proj2 (generateTakeawayPlan_returned Hg)).
  - apply first_prohibited_None. rewrite validatePlan_eq in Hv.
    destruct (first_prohibited (stringify plan)); [discriminate | reflexivity].
Qed.

(** The [error_message] that the [try] block leaves: the text of the
    last phase begun. *)
Lemma pipeline_progress parse params w s s' c :
  pipeline parse params w s = (s', c) ->
  match c with
  | Returned _ => error_message (run s') = Some "Preparing to render media..."
  | Thrown _ => exists t, In t progress_texts /\ error_message (run s') = Some t
  end.
Proof.
  open_store s. monad_unfold. split_calls.
  all: intros H; inversion H; subst; clear H; cbn.
  all: try reflexivity.
  all: eexists; split; [| reflexivity]; unfold progress_texts; simpl; tauto.
Qed.

(** X5.  updateStatus writes its progress text to the error_message
    column, so that column is not a sign of failure: when generateTakeaway
    returns, the run is at rendering and its error_message reads
    "Preparing to render media..."; when generateTakeaway throws its
    "Generation failed, retrying..." the run is left at processing and
    its error_message is the progress text of the phase that failed, not
    the error; only a run marked failed carries the message of the error
    thrown. *)
Theorem error_message_doubles_as_progress_text :
  forall (parse : string -> completion Json) (params : GenerationParams)
         (w : Replies) (s : Store),
    let s' := fst (generateTakeaway parse params w s) in
    match snd (generateTakeaway parse params w s) with
    | Returned g =>
        status (run s') = rendering
        /\ error_message (run s') = Some "Preparing to render media..."
    | Thrown e =>
        (e = new_GenerationError "Generation failed, retrying..."
         /\ status (run s') = processing
         /\ exists t, In t progress_texts /\ error_message (run s') = Some t)
        \/ (status (run s') = failed /\ error_message (run s') = Some (message e))
    end.
Proof.
  intros parse params w s. cbv zeta. rewrite generateTakeaway_eq.
  destruct (pipeline parse params w s) as [s1 [g | e]] eqn:Hp.
  - pose proof (pipeline_progress Hp) as Hm. cbv beta iota in Hm.
    destruct (pipeline_returned Hp) as (-> & Hst & _). cbn [fst snd]. auto.
  - pose proof (pipeline_progress Hp) as (t & Ht & Hm).
    destruct (pipeline_thrown Hp) as (_ & Hst1 & _).
    destruct (on_error_cases e s1) as [-> | (s2 & -> & Hst & Hmsg & _)];
      cbn [fst snd].
    + left. split; [reflexivity |]. split; [exact Hst1 |]. exists t. auto.
    + right. auto.
Qed.

(** X6.  Results are stored phase by phase and outlive a later failure:
    when the retrieval, the plan and the check of the plan have
    succeeded and the script is not produced or not let through, the run
    that generateTakeaway leaves, whether marked failed or left at
    processing by the retry branch, holds the retrieval query, the ids of
    the chunks used and the plan; its script is untouched. *)
Theorem partial_results_outlive_a_failed_script :
  forall (parse : string -> completion Json) (params : GenerationParams)
         (w : Replies) (s : Store) (context : RAGContext) (plan : Json),
    validateExtraInstruction (extra_instruction (Orchestrator.customization params))
                             (classifier w) = Returned tt ->
    retrieval params w = Returned context ->
    generateTakeawayPlan parse (planner w) = Returned plan ->
    validatePlan plan (plan_validator w) = Returned tt ->
    (forall text, generateScript (writer w) = Returned text ->
                  validateScript text (script_validator w) <> Returned tt) ->
    let s' := fst (generateTakeaway parse params w s) in
    rag_query (run s') = Some (query context)
    /\ rag_chunks_used (run s') = map id (chunks context)
    /\ takeaway_plan (run s') = Some plan
    /\ script (run s') = script (run s)
    /\ (status (run s') = failed \/ status (run s') = processing).
Proof.
  intros parse params w s context plan Hi Hr Hg Hv Hs. cbv zeta.
  unfold retrieval in Hr.
  assert (Hp : exists s1 e, pipeline parse params w s = (s1, Thrown e)
                            /\ rag_query (run s1) = Some (query context)
                            /\ rag_chunks_used (run s1) = map id (chunks context)
                            /\ takeaway_plan (run s1) = Some plan
                            /\ script (run s1) = script (run s)).
  { open_store s. monad_unfold. rewrite Hi, Hr, Hg, Hv.
    destruct (generateScript (writer w)) as [text | e] eqn:Hw.
    - specialize (Hs text eq_refl).
      destruct (validateScript text (script_validator w)) as [[] | e]; [congruence |].
      do 2 eexists. split; [reflexivity |]. cbn. auto.
    - do 2 eexists. split; [reflexivity |]. cbn. auto. }
  destruct Hp as (s1 & e & Hp & H1 & H2 & H3 & H4).
  rewrite generateTakeaway_eq, Hp.
  destruct (on_error_keeps_results e s1) as (K1 & K2 & K3 & K4).
  rewrite K1, K2, K3, K4.
  repeat (split; [assumption |]).
  destruct (pipeline_thrown Hp) as (_ & Hst1 & _).
  destruct (on_error_cases e s1) as [-> | (s2 & -> & Hst & _)];
    cbn [fst]; auto.
Qed.

Lemma partial_results_outlive_a_failed_script_witness :
  let s' := fst (generateTakeaway Examples.parse Examples.params Samples.writer_down
                                  Examples.fresh) in
  takeaway_plan (run s') = Some Examples.good_plan
  /\ rag_chunks_used (run s') = ["c1"; "c3"; "c5"; "c6"; "c2"; "c4"]
  /\ script (run s') = None
  /\ status (run s') = failed.
Proof.
  assert (Hc : retrieval Examples.params Samples.writer_down
               = Returned
                   {| chunks := [Examples.chunk "c1" "Customer Success" 0.93;
                                 Examples.chunk "c3" "Product Innovation" 0.88;
                                 Examples.chunk "c5" "Market Strategy" 0.84;
                                 Examples.chunk "c6" "Team Culture" 0.80;
                                 Examples.chunk "c2" "Customer Success" 0.91;
                                 Examples.chunk "c4" "Customer Success" 0.86];
                      query := buildSemanticQuery
                                 {| userProfile := Examples.profile; Rag.format := video;
                                    Rag.customization := Examples.custom; topK := None |};
                      total_tokens := 2520 |})
    by (vm_compute; reflexivity).
  assert (Hi : validateExtraInstruction
                 (extra_instruction (Orchestrator.customization Examples.params))
                 (classifier Samples.writer_down) = Returned tt) by reflexivity.
  assert (Hg : generateTakeawayPlan Examples.parse (planner Samples.writer_down)
               = Returned Examples.good_plan) by (vm_compute; reflexivity).
  assert (Hv : validatePlan Examples.good_plan (plan_validator Samples.writer_down)
               = Returned tt) by (vm_compute; reflexivity).
  assert (Hs : forall text, generateScript (writer Samples.writer_down) = Returned text ->
                            validateScript text (script_validator Samples.writer_down)
                            <> Returned tt) by (intros text H; discriminate H).
  destruct (@partial_results_outlive_a_failed_script
              Examples.parse Examples.params Samples.writer_down Examples.fresh
              _ _ Hi Hc Hg Hv Hs) as (_ & H2 & H3 & H4 & _).
  cbv zeta. split; [exact H3 |]. split; [exact H2 |]. split; [exact H4 |].
  vm_compute. reflexivity.
Defined.

(** X7.  A blocked instruction ends the attempt before anything is
    retrieved: when validateExtraInstruction throws, what generateTakeaway
    does no longer depends on the replies of the embedding, the search,
    the planner, the writer or the validators; the retrieval query, the
    chunk ids, the plan and the script of the run are untouched; and the
    only statuses written are processing, once, and then failed unless
    the retry branch is taken, which writes nothing. *)
Theorem a_blocked_instruction_ends_the_attempt_before_retrieval :
  forall (parse : string -> completion Json) (params : GenerationParams)
         (w : Replies) (s : Store) (e : JsError),
    validateExtraInstruction (extra_instruction (Orchestrator.customization params))
                             (classifier w) = Thrown e ->
    let s' := fst (generateTakeaway parse params w s) in
    cls e = GuardrailViolation
    /\ (forall w', classifier w' = classifier w ->
                   generateTakeaway parse params w' s = generateTakeaway parse params w s)
    /\ rag_query (run s') = rag_query (run s)
    /\ rag_chunks_used (run s') = rag_chunks_used (run s)
    /\ takeaway_plan (run s') = takeaway_plan (run s)
    /\ script (run s') = script (run s)
    /\ (writes_of s s' = [processing; failed] \/ writes_of s s' = [processing]).
Proof.
  intros parse params w s e Hi. cbv zeta.
  assert (Hc : cls e = GuardrailViolation).
  { destruct (validateExtraInstruction_cases
                (extra_instruction (Orchestrator.customization params)) (classifier w))
      as [H | (e' & H & Hc)]; rewrite Hi in H; [discriminate |].
    injection H as <-. exact Hc. }
  assert (Hp : forall w', classifier w' = classifier w ->
                          exists s1, pipeline parse params w' s = (s1, Thrown e)
                                     /\ rag_query (run s1) = rag_query (run s)
                                     /\ rag_chunks_used (run s1) = rag_chunks_used (run s)
                                     /\ takeaway_plan (run s1) = takeaway_plan (run s)
                                     /\ script (run s1) = script (run s)
                                     /\ written s1 = written s ++ [processing]
                                     /\ forall w'', classifier w'' = classifier w ->
                                                    pipeline parse params w'' s = (s1, Thrown e)).
  { intros w' Hw'. open_store s. monad_unfold. rewrite Hw', Hi.
    eexists. split; [reflexivity |]. cbn. repeat (split; [reflexivity |]).
    intros w'' Hw''. rewrite Hw'', Hi. reflexivity. }
  destruct (Hp w eq_refl) as (s1 & Hpw & H1 & H2 & H3 & H4 & Hwr & Hall).
  split; [exact Hc |]. split.
  - intros w' Hw'. rewrite !generateTakeaway_eq, Hpw, (Hall w' Hw'). reflexivity.
  - rewrite generateTakeaway_eq, Hpw.
    destruct (on_error_keeps_results e s1) as (K1 & K2 & K3 & K4).
    rewrite K1, K2, K3, K4. repeat (split; [assumption |]).
    unfold writes_of.
    destruct (on_error_cases e s1) as [-> | (s2 & -> & _ & _ & Hw2)]; cbn [fst].
    + right. rewrite Hwr, skipn_length_app. reflexivity.
    + left. rewrite Hw2, Hwr, <- app_assoc, skipn_length_app. reflexivity.
Qed.

Lemma a_blocked_instruction_ends_the_attempt_before_retrieval_witness :
  validateExtraInstruction
    (extra_instruction (Orchestrator.customization Samples.with_instruction))
    (classifier Samples.blocked)
  = Thrown (new_GuardrailViolation "asks for a revenue forecast")
  /\ rag_query (run (fst (generateTakeaway Examples.parse Samples.with_instruction
                                           Samples.blocked Examples.fresh))) = None.
Proof.
  assert (Hi : validateExtraInstruction
                 (extra_instruction (Orchestrator.customization Samples.with_instruction))
                 (classifier Samples.blocked)
               = Thrown (new_GuardrailViolation "asks for a revenue forecast"))
    by (vm_compute; reflexivity).
  split; [exact Hi |].
  destruct (@a_blocked_instruction_ends_the_attempt_before_retrieval
              Examples.parse Samples.with_instruction Samples.blocked Examples.fresh _ Hi)
    as (_ & _ & H & _).
  exact H.
Defined.

(** ** retryWithBackoff *)

Section Backoff.
Import RetryBackoff.
Variable T : Type.
Variable fn : Z -> completion T.
Variable options : RetryOptions.

Lemma calls_app (a b : list event) : calls (a ++ b) = calls a ++ calls b.
Proof. unfold calls. apply flat_map_app. Qed.

Lemma waits_app (a b : list event) : waits (a ++ b) = waits a ++ waits b.
Proof. unfold waits. apply flat_map_app. Qed.

(** The calls are numbered from [attempt] on, and fn is called in every
    turn begun. *)
Lemma attempts_trace (turns : nat) :
  forall attempt n last,
    attempt + Z.of_nat turns = given (maxRetries options) 3 + 1 ->
    let tr := fst (attempts fn options turns attempt (backoff options n) last) in
    calls tr = map (fun i => attempt + Z.of_nat i) (seq 0 (List.length (calls tr)))
    /\ (List.length (calls tr) <= turns)%nat
    /\ (turns <> O -> calls tr <> [])
    /\ waits tr = map (fun i => backoff options (n + i))
                      (seq 0 (Nat.pred (List.length (calls tr)))).
Proof.
  induction turns as [| turns IH]; intros attempt n last Hsync; cbv zeta;
    cbn [attempts].
  - simpl. repeat split; auto; intros H; contradiction.
  - assert (Hone : let tr := [Called attempt] in
                   calls tr = map (fun i => attempt + Z.of_nat i)
                                  (seq 0 (List.length (calls tr)))
                   /\ (List.length (calls tr) <= S turns)%nat
                   /\ (S turns <> O -> calls tr <> [])
                   /\ waits tr = map (fun i => backoff options (n + i))
                                     (seq 0 (Nat.pred (List.length (calls tr))))).
    { simpl. rewrite Z.add_0_r. repeat split; auto with arith. discriminate. }
    destruct (fn attempt) as [v | e]; [exact Hone |].
    destruct (Z.eqb_spec attempt (given (maxRetries options) 3)) as [Heq | Hne];
      [exact Hone |].
    destruct (negb (isRetriableError e)); [exact Hone |].
    assert (Hturns : turns <> O) by lia.
    assert (Hgo : forall seen,
               calls seen = [] -> waits seen = [] ->
               let tr := fst (let (later, settled) :=
                                attempts fn options turns (attempt + 1)
                                         (Z.min (backoff options n
                                                 * given (backoffMultiplier options) 2)
                                                (given (maxDelay options) 10000))
                                         (Some e) in
                              (Called attempt :: seen ++ Slept (backoff options n) :: later,
                               settled)) in
               calls tr = map (fun i => attempt + Z.of_nat i)
                              (seq 0 (List.length (calls tr)))
               /\ (List.length (calls tr) <= S turns)%nat
               /\ (S turns <> O -> calls tr <> [])
               /\ waits tr = map (fun i => backoff options (n + i))
                                 (seq 0 (Nat.pred (List.length (calls tr))))).
    { intros seen Hc Hw. cbv zeta.
      assert (Hsync' : attempt + 1 + Z.of_nat turns = given (maxRetries options) 3 + 1)
        by lia.
      specialize (IH (attempt + 1) (S n) (Some e) Hsync'). cbv zeta in IH.
      cbn [backoff] in IH.
      destruct (attempts fn options turns (attempt + 1) _ (Some e)) as [later settled].
      cbn [fst] in *. destruct IH as (IH1 & IH2 & IH3 & IH4).
      specialize (IH3 Hturns).
      change (Called attempt :: seen ++ Slept (backoff options n) :: later)
        with ([Called attempt] ++ seen ++ [Slept (backoff options n)] ++ later).
      rewrite !calls_app, !waits_app, Hc, Hw.
      change (calls [Called attempt]) with [attempt].
      change (calls [Slept (backoff options n)]) with (@nil Z).
      change (waits [Called attempt]) with (@nil Z).
      change (waits [Slept (backoff options n)]) with [backoff options n].
      cbn [app List.length Nat.pred].
      destruct (calls later) as [| c0 cs] eqn:E; [contradiction |].
      rewrite <- E in *. clear E c0 cs.
      split; [| split; [| split]].
      - cbn [seq map]. rewrite Z.add_0_r. f_equal.
        rewrite IH1 at 1. rewrite <- seq_shift, map_map.
        apply map_ext. intros i. lia.
      - lia.
      - discriminate.
      - rewrite IH4.
        destruct (List.length (calls later)) as [| m] eqn:E.
        + apply length_zero_iff_nil in E. contradiction.
        + cbn [Nat.pred seq map]. rewrite Nat.add_0_r. f_equal.
          rewrite <- seq_shift, map_map. apply map_ext. intros i.
          f_equal. lia. }
    unfold notify. destruct (onRetry options) as [callback |].
    + destruct (callback e (attempt + 1)) as [[] | thrown].
      * apply (Hgo [Notified e (attempt + 1)]); reflexivity.
      * exact Hone.
    + apply (Hgo []); reflexivity.
Qed.

Lemma backoff_capped (n : nat) :
  backoff options (S n) <= given (maxDelay options) 10000.
Proof. cbn [backoff]. apply Z.le_min_r. Qed.

(** The settlement is never [undefined] once a turn is begun. *)
Lemma attempts_defined (turns : nat) :
  forall attempt delay last,
    turns <> O \/ last <> None ->
    snd (attempts fn options turns attempt delay last) <> RejectedUndefined.
Proof.
  induction turns as [| turns IH]; intros attempt delay last H; cbn [attempts].
  - destruct last; [discriminate | destruct H; contradiction].
  - destruct (fn attempt) as [v | e]; [discriminate |].
    destruct (attempt =? _); [discriminate |].
    destruct (negb (isRetriableError e)); [discriminate |].
    destruct (notify options e (attempt + 1)) as [seen [[] | thrown]]; [| discriminate].
    assert (Hs : Some e <> None) by discriminate.
    specialize (IH (attempt + 1)
                   (Z.min (delay * given (backoffMultiplier options) 2)
                          (given (maxDelay options) 10000))
                   (Some e) (or_intror Hs)).
    destruct (attempts fn options turns _ _ (Some e)) as [later settled]. exact IH.
Qed.

(** The call that decides: the first one that returns, or throws an
    error that is not retriable, or is the last one allowed. *)
Lemma attempts_decided (k : nat) :
  forall turns attempt delay last,
    attempt + Z.of_nat turns = given (maxRetries options) 3 + 1 ->
    (k < turns)%nat ->
    (forall callback, onRetry options = Some callback ->
                      forall e n, callback e n = Returned tt) ->
    (forall j, (j < k)%nat ->
               exists e, fn (attempt + Z.of_nat j) = Thrown e
                         /\ isRetriableError e = true) ->
    let r := attempts fn options turns attempt delay last in
    match fn (attempt + Z.of_nat k) with
    | Returned v => snd r = Resolved v /\ List.length (calls (fst r)) = S k
    | Thrown e =>
        isRetriableError e = false
        \/ attempt + Z.of_nat k = given (maxRetries options) 3 ->
        snd r = Rejected e /\ List.length (calls (fst r)) = S k
    end.
Proof.
  induction k as [| k IH]; intros turns attempt delay last Hsync Hk Hquiet Hbefore;
    (destruct turns as [| turns]; [lia |]); cbv zeta; cbn [attempts].
  - rewrite Z.add_0_r.
    destruct (fn attempt) as [v | e]; [simpl; auto |].
    intros Hdec.
    destruct (Z.eqb_spec attempt (given (maxRetries options) 3)) as [Heq | Hne];
      [simpl; auto |].
    destruct Hdec as [Hr | Heq]; [| contradiction].
    rewrite Hr. simpl. auto.
  - destruct (Hbefore O ltac:(lia)) as (e0 & He0 & Hr0). rewrite Z.add_0_r in He0.
    rewrite He0.
    destruct (Z.eqb_spec attempt (given (maxRetries options) 3)) as [Heq | Hne]; [lia |].
    rewrite Hr0. cbn [negb].
    assert (Hsync' : attempt + 1 + Z.of_nat turns = given (maxRetries options) 3 + 1)
      by lia.
    assert (Hbefore' : forall j, (j < k)%nat ->
                                 exists e, fn (attempt + 1 + Z.of_nat j) = Thrown e
                                           /\ isRetriableError e = true).
    { intros j Hj. destruct (Hbefore (S j) ltac:(lia)) as (e & He & Hr).
      exists e. split; [| exact Hr]. rewrite <- He. f_equal. lia. }
    specialize (IH turns (attempt + 1)
                   (Z.min (delay * given (backoffMultiplier options) 2)
                          (given (maxDelay options) 10000))
                   (Some e0) Hsync' ltac:(lia) Hquiet Hbefore').
    cbv zeta in IH.
    replace (attempt + Z.of_nat (S k)) with (attempt + 1 + Z.of_nat k) by lia.
    assert (Hlen : forall seen later,
               calls seen = [] ->
               List.length (calls later) = S k ->
               List.length (calls (Called attempt :: seen ++ Slept delay :: later))
               = S (S k)).
    { intros seen later Hs Hl.
      change (Called attempt :: seen ++ Slept delay :: later)
        with ([Called attempt] ++ seen ++ [Slept delay] ++ later).
      rewrite !calls_app, Hs, !length_app, Hl. reflexivity. }
    unfold notify. destruct (onRetry options) as [callback |] eqn:Hcb.
    + rewrite (Hquiet callback eq_refl).
      destruct (attempts fn options turns _ _ (Some e0)) as [later settled].
      cbn [fst snd] in *.
      destruct (fn (attempt + 1 + Z.of_nat k)) as [v | e].
      * destruct IH as [IH1 IH2]. split; [exact IH1 |]. apply Hlen; [reflexivity | exact IH2].
      * intros Hdec. destruct (IH Hdec) as [IH1 IH2].
        split; [exact IH1 |]. apply Hlen; [reflexivity | exact IH2].
    + destruct (attempts fn options turns _ _ (Some e0)) as [later settled].
      cbn [fst snd] in *.
      destruct (fn (attempt + 1 + Z.of_nat k)) as [v | e].
      * destruct IH as [IH1 IH2]. split; [exact IH1 |].
        apply (Hlen [] later); [reflexivity | exact IH2].
      * intros Hdec. destruct (IH Hdec) as [IH1 IH2].
        split; [exact IH1 |]. apply (Hlen [] later); [reflexivity | exact IH2].
Qed.

End Backoff.

Lemma retryWithBackoff_trace_numbering (T : Type) (fn : Z -> completion T)
      (options : RetryBackoff.RetryOptions) :
  let trace := fst (RetryBackoff.retryWithBackoff fn options) in
  RetryBackoff.calls trace
  = map Z.of_nat (seq 0 (List.length (RetryBackoff.calls trace))).
Proof.
  cbv zeta. unfold RetryBackoff.retryWithBackoff.
  set (budget := RetryBackoff.given (RetryBackoff.maxRetries options) 3).
  destruct (Z_lt_le_dec budget 0) as [Hlt | Hge].
  - replace (Z.to_nat (budget + 1)) with O by lia. reflexivity.
  - assert (Hsync : 0 + Z.of_nat (Z.to_nat (budget + 1)) = budget + 1) by lia.
    destruct (@attempts_trace T fn options (Z.to_nat (budget + 1)) 0 O None Hsync)
      as (H1 & _).
    change (RetryBackoff.backoff options 0)
      with (RetryBackoff.given (RetryBackoff.initialDelay options) 1000) in *.
    rewrite H1 at 1. apply map_ext. intros i. lia.
Qed.

(** X8.  retryWithBackoff calls fn in turns 0, 1, 2, ..., at most
    maxRetries + 1 times, and sleeps between two calls only: before the
    retry number n + 1 it waits initialDelay when n = 0 and otherwise
    min(previous delay * backoffMultiplier, maxDelay), so every wait but
    the first is at most maxDelay.  With a negative maxRetries fn is
    never called and the promise is rejected with undefined; otherwise
    it is never rejected with undefined. *)
Theorem retryWithBackoff_calls_and_waits :
  forall (T : Type) (fn : Z -> completion T) (options : RetryBackoff.RetryOptions),
    let trace := fst (RetryBackoff.retryWithBackoff fn options) in
    let n := List.length (RetryBackoff.calls trace) in
    let budget := RetryBackoff.given (RetryBackoff.maxRetries options) 3 in
    RetryBackoff.calls trace = map Z.of_nat (seq 0 n)
    /\ Z.of_nat n <= Z.max (budget + 1) 0
    /\ RetryBackoff.waits trace = map (RetryBackoff.backoff options) (seq 0 (Nat.pred n))
    /\ (forall ms, In ms (tl (RetryBackoff.waits trace)) ->
                   ms <= RetryBackoff.given (RetryBackoff.maxDelay options) 10000)
    /\ (budget < 0 ->
        RetryBackoff.retryWithBackoff fn options = ([], RetryBackoff.RejectedUndefined))
    /\ (0 <= budget ->
        snd (RetryBackoff.retryWithBackoff fn options) <> RetryBackoff.RejectedUndefined).
Proof.
  intros T fn options. cbv zeta. unfold RetryBackoff.retryWithBackoff.
  set (budget := RetryBackoff.given (RetryBackoff.maxRetries options) 3).
  assert (Hneg : budget < 0 ->
                 RetryBackoff.attempts fn options (Z.to_nat (budget + 1)) 0
                   (RetryBackoff.given (RetryBackoff.initialDelay options) 1000) None
                 = ([], RetryBackoff.RejectedUndefined)).
  { intros H. replace (Z.to_nat (budget + 1)) with O by lia. reflexivity. }
  destruct (Z_lt_le_dec budget 0) as [Hlt | Hge].
  - rewrite (Hneg Hlt). simpl.
    repeat split; auto; try lia; try (intros ms []); try (intros H; lia).
  - assert (Hsync : 0 + Z.of_nat (Z.to_nat (budget + 1)) = budget + 1) by lia.
    destruct (@attempts_trace T fn options (Z.to_nat (budget + 1)) 0 O None Hsync)
      as (H1 & H2 & _ & H4).
    change (RetryBackoff.backoff options 0)
      with (RetryBackoff.given (RetryBackoff.initialDelay options) 1000) in *.
    split; [| split; [| split; [| split; [| split]]]].
    + rewrite H1 at 1. apply map_ext. intros i. lia.
    + lia.
    + rewrite H4. apply map_ext. intros i. reflexivity.
    + rewrite H4. intros ms Hin.
      destruct (Nat.pred _) as [| m]; [destruct Hin |].
      cbn [seq map tl] in Hin. rewrite <- seq_shift, map_map in Hin.
      apply in_map_iff in Hin. destruct Hin as (i & <- & _).
      apply backoff_capped.
    + intros H. lia.
    + intros _. apply attempts_defined. left. lia.
Qed.

(** X9.  retryWithBackoff settles with the first call of fn that returns,
    that throws an error isRetriableError refuses, or that is call number
    maxRetries: when the calls before turn k all threw retriable errors
    (and onRetry, if given, returns), fn is called k + 1 times and the
    promise resolves with what call k returns, or is rejected with what
    call k throws if that error is not retriable or k = maxRetries. *)
Theorem retryWithBackoff_settles_with_the_deciding_call :
  forall (T : Type) (fn : Z -> completion T) (options : RetryBackoff.RetryOptions)
         (k : nat),
    Z.of_nat k <= RetryBackoff.given (RetryBackoff.maxRetries options) 3 ->
    (forall callback, RetryBackoff.onRetry options = Some callback ->
                      forall e n, callback e n = Returned tt) ->
    (forall j, (j < k)%nat ->
               exists e, fn (Z.of_nat j) = Thrown e /\ isRetriableError e = true) ->
    let r := RetryBackoff.retryWithBackoff fn options in
    match fn (Z.of_nat k) with
    | Returned v =>
        snd r = RetryBackoff.Resolved v
        /\ RetryBackoff.calls (fst r) = map Z.of_nat (seq 0 (S k))
    | Thrown e =>
        isRetriableError e = false
        \/ Z.of_nat k = RetryBackoff.given (RetryBackoff.maxRetries options) 3 ->
        snd r = RetryBackoff.Rejected e
        /\ RetryBackoff.calls (fst r) = map Z.of_nat (seq 0 (S k))
    end.
Proof.
  intros T fn options k Hk Hquiet Hbefore. cbv zeta.
  pose proof (@retryWithBackoff_trace_numbering T fn options) as Hnum. cbv zeta in Hnum.
  unfold RetryBackoff.retryWithBackoff in *.
  set (budget := RetryBackoff.given (RetryBackoff.maxRetries options) 3) in *.
  assert (Hsync : 0 + Z.of_nat (Z.to_nat (budget + 1)) = budget + 1) by lia.
  pose proof (@attempts_decided T fn options k (Z.to_nat (budget + 1)) 0
                (RetryBackoff.given (RetryBackoff.initialDelay options) 1000) None
                Hsync ltac:(lia) Hquiet Hbefore) as H.
  cbv zeta in H. rewrite Z.add_0_l in H.
  destruct (fn (Z.of_nat k)) as [v | e].
  - destruct H as [H1 H2]. split; [exact H1 | rewrite Hnum, H2; reflexivity].
  - intros Hdec. destruct (H Hdec) as [H1 H2].
    split; [exact H1 | rewrite Hnum, H2; reflexivity].
Qed.

Lemma retryWithBackoff_settles_with_the_deciding_call_witness :
  snd (RetryBackoff.retryWithBackoff Samples.flaky Samples.sieve_options)
  = RetryBackoff.Resolved "job-7"
  /\ RetryBackoff.calls (fst (RetryBackoff.retryWithBackoff Samples.flaky
                                                            Samples.sieve_options))
     = [0; 1; 2]
  /\ RetryBackoff.waits (fst (RetryBackoff.retryWithBackoff Samples.flaky
                                                            Samples.sieve_options))
     = [2000; 4000].
Proof.
  assert (Hk : Z.of_nat 2
               <= RetryBackoff.given (RetryBackoff.maxRetries Samples.sieve_options) 3)
    by (vm_compute; discriminate).
  assert (Hquiet : forall callback,
             RetryBackoff.onRetry Samples.sieve_options = Some callback ->
             forall e n, callback e n = Returned tt).
  { intros callback H e n. injection H as <-. reflexivity. }
  assert (Hbefore : forall j, (j < 2)%nat ->
                              exists e, Samples.flaky (Z.of_nat j) = Thrown e
                                        /\ isRetriableError e = true).
  { intros j Hj. exists (new_Error "Sieve API error: 503 - busy").
    destruct j as [| [| j]]; [| | lia]; split; vm_compute; reflexivity. }
  pose proof (@retryWithBackoff_settles_with_the_deciding_call
                string Samples.flaky Samples.sieve_options 2 Hk Hquiet Hbefore) as H.
  destruct H as [H1 H2].
  split; [exact H1 |]. split; [exact H2 |]. vm_compute. reflexivity.
Defined.

(** ** chunkText *)

Section ChunkText.
Import Chunking.
Variable maxTokens overlapTokens : Z.


Lemma run_of_grows (ws done more : list string) :
  run_of ws done -> run_of ws (done ++ more).
Proof.
  intros (a & b & ->). exists a, (b ++ more). rewrite <- !app_assoc. reflexivity.
Qed.

Lemma chained_snoc (wss : list (list string)) (c : list string) :
  chained overlapTokens wss ->
  (wss <> [] -> exists new, new <> []
                            /\ c = slice (- (overlapTokens / 4)) (last wss []) ++ new) ->
  chained overlapTokens (wss ++ [c]).
Proof.
  induction wss as [| a wss IH]; intros Hc Hl; [exact I |].
  destruct wss as [| b wss].
  - simpl. split; [| exact I]. apply Hl. discriminate.
  - destruct Hc as [Hab Hc]. change ((a :: b :: wss) ++ [c]) with (a :: (b :: wss) ++ [c]).
    cbn [chained app]. split; [exact Hab |].
    apply IH; [exact Hc |]. intros _. apply Hl. discriminate.
Qed.

Lemma chunked_step (done : list string) (st : chunking) (wss : list (list string))
      (w : string) :
  chunked overlapTokens done st wss ->
  exists wss', chunked overlapTokens (done ++ [w]) (add_word maxTokens overlapTokens st w) wss'.
Proof.
  intros (Hch & Hruns & (before & Hsuf) & Hne & Hcov & Hchain & Hlink).
  unfold add_word. cbv zeta.
  destruct ((maxTokens <? currentTokens st + estimateTokenCount w)
            && (0 <? List.length (currentChunk st))%nat) eqn:Hpush.
  - (* the current chunk is pushed *)
    apply andb_true_iff in Hpush. destruct Hpush as [_ Hlen].
    apply Nat.ltb_lt in Hlen.
    assert (Hcur : currentChunk st <> []).
    { intros E. rewrite E in Hlen. simpl in Hlen. lia. }
    exists (wss ++ [currentChunk st]). unfold chunked. cbn [chunks currentChunk].
    split; [| split; [| split; [| split; [| split; [| split]]]]].
    + rewrite map_app, Hch. reflexivity.
    + intros ws Hin. apply in_app_or in Hin. destruct Hin as [Hin | [<- | []]].
      * destruct (Hruns ws Hin) as [H1 H2]. split; [exact H1 | apply run_of_grows; exact H2].
      * split; [exact Hcur |]. exists before, [w]. rewrite Hsuf, <- app_assoc. reflexivity.
    + unfold slice. cbv zeta.
      set (k := Z.to_nat _).
      exists (before ++ firstn k (currentChunk st)).
      rewrite Hsuf, <- !app_assoc. f_equal.
      rewrite app_assoc, firstn_skipn. reflexivity.
    + intros _ E. apply app_eq_nil in E. destruct E as [_ E]. discriminate.
    + intros w' Hin. apply in_app_or in Hin. destruct Hin as [Hin | [<- | []]].
      * right. destruct (Hcov w' Hin) as [H | (ws & H1 & H2)].
        -- exists (currentChunk st). split; [apply in_or_app; right; left; reflexivity | exact H].
        -- exists ws. split; [apply in_or_app; left; exact H1 | exact H2].
      * left. apply in_or_app. right. left. reflexivity.
    + apply chained_snoc; assumption.
    + intros _. rewrite last_last. exists [w]. split; [discriminate | reflexivity].
  - (* the word joins the current chunk *)
    exists wss. unfold chunked. cbn [chunks currentChunk].
    split; [exact Hch |]. split; [| split; [| split; [| split; [| split]]]].
    + intros ws Hin. destruct (Hruns ws Hin) as [H1 H2].
      split; [exact H1 | apply run_of_grows; exact H2].
    + exists before. rewrite Hsuf, <- app_assoc. reflexivity.
    + intros _ E. apply app_eq_nil in E. destruct E as [_ E]. discriminate.
    + intros w' Hin. apply in_app_or in Hin. destruct Hin as [Hin | [<- | []]].
      * destruct (Hcov w' Hin) as [H | H]; [left; apply in_or_app; left; exact H | right; exact H].
      * left. apply in_or_app. right. left. reflexivity.
    + exact Hchain.
    + intros Hw. destruct (Hlink Hw) as (new & Hn & ->).
      exists (new ++ [w]). split.
      * intros E. apply app_eq_nil in E. destruct E as [_ E]. discriminate.
      * rewrite <- app_assoc. reflexivity.
Qed.

Lemma chunked_loop (ws : list string) :
  forall done st wss,
    chunked overlapTokens done st wss ->
    exists wss', chunked overlapTokens (done ++ ws) (fold_left (add_word maxTokens overlapTokens) ws st)
                         wss'.
Proof.
  induction ws as [| w ws IH]; intros done st wss H.
  - exists wss. rewrite app_nil_r. exact H.
  - destruct (chunked_step w H) as (wss1 & H1).
    destruct (IH _ _ _ H1) as (wss2 & H2).
    exists wss2. rewrite <- app_assoc in H2. exact H2.
Qed.

End ChunkText.

Lemma split_spaces_nonempty (inside : bool) (word s : list ascii) :
  Chunking.split_spaces inside word s <> [].
Proof.
  revert inside word. induction s as [| c s IH]; intros inside word; simpl;
    [discriminate |].
  destruct (is_space c); [destruct inside; [apply IH | discriminate] | apply IH].
Qed.

(** The chunks that chunkText returns, as lists of words. *)
Lemma chunkText_structure (text : string) (maxTokens overlapTokens : option Z) :
  let overlap := match overlapTokens with Some n => n | None => 50 end in
  exists wss,
    Chunking.chunkText text maxTokens overlapTokens = map (join " ") wss
    /\ wss <> []
    /\ (forall ws, In ws wss -> ws <> [] /\ run_of ws (Chunking.words text))
    /\ (forall w, In w (Chunking.words text) -> exists ws, In ws wss /\ In w ws)
    /\ chained overlap wss
    /\ (exists before, Chunking.words text = before ++ last wss []).
Proof.
  cbv zeta. unfold Chunking.chunkText. cbv zeta.
  set (maxT := match maxTokens with Some n => n | None => 500 end).
  set (ov := match overlapTokens with Some n => n | None => 50 end).
  set (init := {| Chunking.chunks := []; Chunking.currentChunk := [];
                  Chunking.currentTokens := 0 |}).
  assert (H0 : chunked ov [] init []).
  { unfold chunked, init. cbn [Chunking.chunks Chunking.currentChunk].
    split; [reflexivity |]. split; [intros ws [] |].
    split; [exists []; reflexivity |]. split; [intros H; contradiction |].
    split; [intros w [] |]. split; [exact I |]. intros H; contradiction. }
  destruct (chunked_loop maxT (Chunking.words text) H0) as (wss & H).
  cbn [app] in H.
  set (st := fold_left _ _ init) in *.
  destruct H as (Hch & Hruns & (before & Hsuf) & Hne & Hcov & Hchain & Hlink).
  assert (Hwords : Chunking.words text <> []) by apply split_spaces_nonempty.
  specialize (Hne Hwords).
  destruct (Chunking.currentChunk st) as [| w0 ws0] eqn:Ecur; [contradiction |].
  cbn [List.length Nat.ltb Nat.leb].
  exists (wss ++ [w0 :: ws0]).
  split; [rewrite map_app, Hch; reflexivity |].
  split; [intros E; apply app_eq_nil in E; destruct E; discriminate |].
  split; [| split; [| split]].
  - intros ws Hin. apply in_app_or in Hin. destruct Hin as [Hin | [<- | []]].
    + apply Hruns. exact Hin.
    + split; [discriminate |]. exists before, []. rewrite app_nil_r. exact Hsuf.
  - intros w Hin. destruct (Hcov w Hin) as [H | (ws & H1 & H2)].
    + exists (w0 :: ws0). split; [apply in_or_app; right; left; reflexivity | exact H].
    + exists ws. split; [apply in_or_app; left; exact H1 | exact H2].
  - apply chained_snoc; assumption.
  - rewrite last_last. exists before. exact Hsuf.
Qed.

Lemma chained_pairs (overlap : Z) (wss : list (list string)) :
  chained overlap wss ->
  forall l1 a b l2,
    wss = l1 ++ a :: b :: l2 ->
    exists new, new <> [] /\ b = Chunking.slice (- (overlap / 4)) a ++ new.
Proof.
  intros Hc l1. revert wss Hc. induction l1 as [| x l1 IH]; intros wss Hc a b l2 ->.
  - destruct Hc as [H _]. exact H.
  - assert (Hc' : chained overlap (l1 ++ a :: b :: l2)).
    { cbn [app] in Hc. destruct (l1 ++ a :: b :: l2) eqn:E.
      - destruct l1; discriminate.
      - destruct Hc as [_ Hc]. exact Hc. }
    exact (IH _ Hc' a b l2 eq_refl).
Qed.

(** X10.  chunkText loses no word and splits none: it returns at least
    one chunk, every chunk is one or more consecutive pieces of
    text.split(/\s+/) joined by single spaces, every piece is in some
    chunk, and the last chunk ends with the last piece.  maxTokens never
    cuts a piece, however long. *)
Theorem chunkText_keeps_every_word :
  forall (text : string) (maxTokens overlapTokens : option Z),
  exists wss,
    Chunking.chunkText text maxTokens overlapTokens = map (join " ") wss
    /\ wss <> []
    /\ (forall ws, In ws wss -> ws <> [] /\ run_of ws (Chunking.words text))
    /\ (forall w, In w (Chunking.words text) -> exists ws, In ws wss /\ In w ws)
    /\ (exists before, Chunking.words text = before ++ last wss []).
Proof.
  intros text maxTokens overlapTokens.
  destruct (chunkText_structure text maxTokens overlapTokens)
    as (wss & H1 & H2 & H3 & H4 & _ & H6).
  exists wss. auto.
Qed.

(** X11.  The overlap of chunkText is counted in words, not tokens: every
    chunk but the first begins with the last floor(overlapTokens / 4)
    words of the chunk before it (currentChunk.slice(-overlapWords): all
    its words when it has no more than that, or when overlapWords is 0),
    and then holds at least one further word. *)
Theorem chunkText_chunks_overlap :
  forall (text : string) (maxTokens overlapTokens : option Z),
    let overlap := match overlapTokens with Some n => n | None => 50 end in
    exists wss,
      Chunking.chunkText text maxTokens overlapTokens = map (join " ") wss
      /\ forall l1 a b l2,
          wss = l1 ++ a :: b :: l2 ->
          exists new, new <> [] /\ b = Chunking.slice (- (overlap / 4)) a ++ new.
Proof.
  intros text maxTokens overlapTokens. cbv zeta.
  destruct (chunkText_structure text maxTokens overlapTokens)
    as (wss & H1 & _ & _ & _ & H5 & _).
  exists wss. split; [exact H1 |]. apply chained_pairs. exact H5.
Qed.

(** With an overlap of less than one word nothing is dropped when a chunk
    is pushed: [slice(-0)] keeps the whole chunk. *)
Lemma slice_zero (A : Type) (l : list A) : Chunking.slice (- 0) l = l.
Proof.
  unfold Chunking.slice. cbv zeta. cbn [Z.opp Z.ltb Z.compare].
  rewrite Z.min_l by lia. reflexivity.
Qed.

Lemma firstn_within (A : Type) (k : nat) (l more : list A) :
  firstn k l = firstn (Nat.min k (List.length l)) (l ++ more).
Proof.
  rewrite firstn_app.
  replace (Nat.min k (List.length l) - List.length l)%nat with O by lia.
  rewrite firstn_O, app_nil_r.
  destruct (Nat.le_ge_cases k (List.length l)) as [H | H].
  - rewrite Nat.min_l by exact H. reflexivity.
  - rewrite Nat.min_r by exact H. rewrite !firstn_all2; auto.
Qed.

Lemma whole_chunk_loop (maxTokens overlapTokens : Z) (ws : list string) :
  overlapTokens / 4 = 0 ->
  forall done st,
    Chunking.currentChunk st = done ->
    (forall c, In c (Chunking.chunks st) -> exists k, c = join " " (firstn k done)) ->
    let st' := fold_left (Chunking.add_word maxTokens overlapTokens) ws st in
    Chunking.currentChunk st' = done ++ ws
    /\ (forall c, In c (Chunking.chunks st') ->
                  exists k, c = join " " (firstn k (done ++ ws))).
Proof.
  intros Hov. induction ws as [| w ws IH]; intros done st Hcur Hch; cbv zeta.
  - simpl. rewrite app_nil_r. auto.
  - cbn [fold_left].
    specialize (IH (done ++ [w]) (Chunking.add_word maxTokens overlapTokens st w)).
    cbv zeta in IH. rewrite <- app_assoc in IH. apply IH.
    + unfold Chunking.add_word. cbv zeta.
      destruct (_ && _); cbn [Chunking.currentChunk]; rewrite ?Hov, ?slice_zero, Hcur;
        reflexivity.
    + assert (Hold : forall c, In c (Chunking.chunks st) ->
                               exists k, c = join " " (firstn k (done ++ [w]))).
      { intros c Hin. destruct (Hch c Hin) as (k & ->).
        exists (Nat.min k (List.length done)). rewrite <- firstn_within. reflexivity. }
      unfold Chunking.add_word. cbv zeta.
      destruct (_ && _); cbn [Chunking.chunks]; [| exact Hold].
      intros c Hin. apply in_app_or in Hin. destruct Hin as [Hin | [<- | []]];
        [exact (Hold c Hin) |].
      exists (List.length done). rewrite Hcur, firstn_app, Nat.sub_diag, firstn_O,
                                 app_nil_r, firstn_all. reflexivity.
Qed.

(** X12.  With overlapTokens from 0 to 3 the overlap is zero words, and
    [slice(-0)] keeps every word: no chunk ever starts afresh.  Every
    chunk then begins at the first word of the text, and the last chunk
    is the whole text (its pieces joined by single spaces), whatever
    maxTokens is. *)
Theorem chunkText_with_an_overlap_below_four_never_starts_afresh :
  forall (text : string) (maxTokens : option Z) (overlapTokens : Z),
    0 <= overlapTokens < 4 ->
    (forall c, In c (Chunking.chunkText text maxTokens (Some overlapTokens)) ->
               exists k, c = join " " (firstn k (Chunking.words text)))
    /\ last (Chunking.chunkText text maxTokens (Some overlapTokens)) EmptyString
       = join " " (Chunking.words text).
Proof.
  intros text maxTokens overlapTokens Hov.
  assert (Hdiv : overlapTokens / 4 = 0) by (apply Z.div_small; exact Hov).
  unfold Chunking.chunkText. cbv zeta.
  set (maxT := match maxTokens with Some n => n | None => 500 end).
  set (init := {| Chunking.chunks := []; Chunking.currentChunk := [];
                  Chunking.currentTokens := 0 |}).
  destruct (@whole_chunk_loop maxT overlapTokens (Chunking.words text) Hdiv [] init
              eq_refl (fun c (H : In c []) => match H with end)) as [Hcur Hch].
  cbn [app] in Hcur, Hch. rewrite Hcur.
  pose proof (@split_spaces_nonempty false [] (chars text)) as Hne.
  fold (Chunking.words text) in Hne.
  destruct (Chunking.words text) as [| w0 ws0] eqn:E; [contradiction |].
  cbn [List.length Nat.ltb Nat.leb]. split.
  - intros c Hin. apply in_app_or in Hin. destruct Hin as [Hin | [<- | []]].
    + exact (Hch c Hin).
    + exists (List.length (w0 :: ws0)). rewrite firstn_all. reflexivity.
  - apply last_last.
Qed.

Lemma chunkText_with_an_overlap_below_four_never_starts_afresh_witness :
  0 <= 0 < 4
  /\ Chunking.chunkText "alpha beta  gamma delta" (Some 2) (Some 0)
     = ["alpha"; "alpha beta"; "alpha beta gamma"; "alpha beta gamma delta"]
  /\ last (Chunking.chunkText "alpha beta  gamma delta" (Some 2) (Some 0)) EmptyString
     = join " " (Chunking.words "alpha beta  gamma delta").
Proof.
  assert (H : 0 <= 0 < 4) by lia.
  split; [exact H |]. split; [vm_compute; reflexivity |].
  exact (proj2 (@chunkText_with_an_overlap_below_four_never_starts_afresh
                  "alpha beta  gamma delta" (Some 2) 0 H)).
Defined.

(** ** The logger *)

(** X13.  shouldLog lets a level through when its priority is at least
    that of LOG_LEVEL; a LOG_LEVEL that is not one of debug, info, warn
    and error (INFO, warning, ...) has no priority, every comparison
    with it is false, and nothing is logged at any level, errors
    included. *)
Theorem an_unknown_LOG_LEVEL_silences_every_level :
  forall (env : option string),
    ~ In (Logger.LOG_LEVEL env) ["debug"; "info"; "warn"; "error"] ->
    forall level, Logger.shouldLog env level = false.
Proof.
  intros env Hn level. unfold Logger.shouldLog.
  assert (E : assoc (Logger.LOG_LEVEL env) Logger.LEVEL_PRIORITY = None).
  { apply assoc_None. exact Hn. }
  unfold get at 2. rewrite E.
  destruct (get Logger.LEVEL_PRIORITY (Logger.level_text level)); try reflexivity.
  destruct (assoc (Logger.LOG_LEVEL env) Object_prototype); reflexivity.
Qed.

Lemma an_unknown_LOG_LEVEL_silences_every_level_witness :
  Logger.shouldLog (Some "INFO") Logger.error = false
  /\ Logger.shouldLog (Some "info") Logger.error = true
  /\ Logger.shouldLog None Logger.debug = false.
Proof.
  split; [| split; reflexivity].
  apply (@an_unknown_LOG_LEVEL_silences_every_level (Some "INFO")).
  simpl. intros [H | [H | [H | [H | []]]]]; discriminate.
Defined.

(** ** POST /api/generate *)

Lemma deductCredits_cases (amount : Z) (rpc : Api.Answer bool) (row : Api.Answer Z) :
  (Credits.deductCredits amount rpc row = Api.Done true
   /\ Api.error rpc = None /\ Api.data rpc = Some true)
  \/ (exists m, Credits.deductCredits amount rpc row
                = Api.Raise (Api.Other (new_Error m)))
  \/ (exists available,
         Credits.deductCredits amount rpc row
         = Api.Raise (Api.InsufficientCreditsError amount available)
         /\ Api.error rpc = None /\ Api.data rpc <> Some true).
Proof.
  unfold Credits.deductCredits.
  destruct (Api.error rpc) as [m |]; [right; left; eexists; reflexivity |].
  destruct (Api.data rpc) as [[|] |].
  - left. auto.
  - right. right. eexists. repeat split. discriminate.
  - right. right. eexists. repeat split. discriminate.
Qed.

(** X14.  POST /api/generate answers 200, 401, 500 or 503 and nothing
    else.  Its 402 branch is dead: deductCredits never returns false, it
    throws InsufficientCreditsError, which the handler answers like any
    unknown error, with 500 "Internal server error"; and a body that the
    schema refuses is answered 500 as well, since what the schema throws
    is not a ValidationError. *)
Theorem generate_route_never_answers_400_or_402 :
  forall (req : GenerateRoute.Request),
    In (Api.code (snd (GenerateRoute.POST req))) [200; 401; 500; 503]
    /\ (forall amount rpc row, Credits.deductCredits amount rpc row <> Api.Done false)
    /\ (forall effects required available,
           GenerateRoute.handle req
           = (effects, Api.Raise (Api.InsufficientCreditsError required available)) ->
           snd (GenerateRoute.POST req)
           = {| Api.code := 500; Api.error_text := Some "Internal server error" |})
    /\ (forall email user json e,
           GenerateRoute.session req = Returned (Some email) ->
           email <> EmptyString ->
           GenerateRoute.userProfile req = {| Api.data := Some user; Api.error := None |} ->
           Credits.isGenerationEnabled (GenerateRoute.flags req) = Api.Done true ->
           GenerateRoute.body req = Returned json ->
           GenerateRoute.schema req json = Thrown e ->
           GenerateRoute.POST req
           = ([], {| Api.code := 500; Api.error_text := Some "Internal server error" |})).
Proof.
  intros req.
  assert (Hd : forall amount rpc row,
             Credits.deductCredits amount rpc row <> Api.Done false).
  { intros amount rpc row.
    destruct (deductCredits_cases amount rpc row)
      as [(H & _) | [(m & H) | (a & H & _)]]; rewrite H; discriminate. }
  split; [| split; [exact Hd | split]].
  - unfold GenerateRoute.POST, GenerateRoute.handle.
    destruct (GenerateRoute.session req) as [email | e]; [| simpl; tauto].
    destruct (negb (truthy email)); [simpl; tauto |].
    destruct (Api.error (GenerateRoute.userProfile req)); [simpl; tauto |].
    destruct (Api.data (GenerateRoute.userProfile req)) as [user |]; [| simpl; tauto].
    destruct (Credits.isGenerationEnabled (GenerateRoute.flags req)) as [[|] | r] eqn:Hen.
    + destruct (GenerateRoute.body req) as [json | e]; [| simpl; tauto].
      destruct (GenerateRoute.schema req json) as [validated | e]; [| simpl; tauto].
      destruct (deductCredits_cases 1 (GenerateRoute.deduction req)
                                    (GenerateRoute.balance req))
        as [(H & _) | [(m & H) | (a & H & _)]]; rewrite H; [| simpl; tauto | simpl; tauto].
      destruct (Api.error (GenerateRoute.insertion req)); [simpl; tauto |].
      destruct (Api.data (GenerateRoute.insertion req)); simpl; tauto.
    + simpl. tauto.
    + unfold Credits.isGenerationEnabled in Hen.
      destruct (Api.error (GenerateRoute.flags req)); [discriminate |].
      destruct (Api.data (GenerateRoute.flags req)); [discriminate |].
      injection Hen as <-. simpl. tauto.
  - intros effects required available H. unfold GenerateRoute.POST. rewrite H. reflexivity.
  - intros email user json e Hs Hne Hu Hen Hb Hsc.
    unfold GenerateRoute.POST, GenerateRoute.handle.
    rewrite Hs, Hu, Hen, Hb, Hsc.
    assert (Ht : truthy (Some email) = true).
    { simpl. destruct (String.eqb_spec email EmptyString); [contradiction | reflexivity]. }
    rewrite Ht. reflexivity.
Qed.

Lemma generate_route_never_answers_400_or_402_witness :
  GenerateRoute.POST Samples.out_of_credits
  = ([GenerateRoute.DeductCredits "u-17" 1],
     {| Api.code := 500; Api.error_text := Some "Internal server error" |}).
Proof.
  assert (H : GenerateRoute.handle Samples.out_of_credits
              = ([GenerateRoute.DeductCredits "u-17" 1],
                 Api.Raise (Api.InsufficientCreditsError 1 0)))
    by (vm_compute; reflexivity).
  pose proof (proj1 (proj2 (proj2 (generate_route_never_answers_400_or_402
                                     Samples.out_of_credits))) _ _ _ H) as Hr.
  rewrite (surjective_pairing (GenerateRoute.POST Samples.out_of_credits)), Hr.
  f_equal.
Defined.

(** X15.  POST /api/generate deducts the credit before it creates the
    run, and gives nothing back: the handler calls deduct_credits at
    most once, inserts the run only after that call has answered true,
    and starts the processing only after the insertion has answered with
    a run; it answers 200 exactly when it has started the processing.
    When the credit is taken and the insertion fails, the answer is 500
    and the credit stays deducted.  A request that is answered 401 or 503
    has cost nothing. *)
Theorem generate_route_charges_before_it_creates :
  forall (req : GenerateRoute.Request),
    let effects := fst (GenerateRoute.POST req) in
    let response := snd (GenerateRoute.POST req) in
    (effects = []
     \/ (exists user, effects = [GenerateRoute.DeductCredits user 1]
                      /\ Api.code response = 500)
     \/ (exists user v,
            effects = [GenerateRoute.DeductCredits user 1;
                       GenerateRoute.InsertGeneration user v]
            /\ Api.data (GenerateRoute.deduction req) = Some true
            /\ Api.code response = 500)
     \/ (exists user v id,
            effects = [GenerateRoute.DeductCredits user 1;
                       GenerateRoute.InsertGeneration user v;
                       GenerateRoute.StartProcessing id]
            /\ Api.data (GenerateRoute.deduction req) = Some true
            /\ Api.data (GenerateRoute.insertion req) = Some id
            /\ Api.code response = 200))
    /\ (Api.code response = 200 ->
        exists id, In (GenerateRoute.StartProcessing id) effects)
    /\ (Api.code response = 401 \/ Api.code response = 503 -> effects = []).
Proof.
  intros req. cbv zeta. unfold GenerateRoute.POST, GenerateRoute.handle.
  assert (Hquiet : forall response,
             Api.code response <> 200 ->
             ([] = @nil GenerateRoute.effect
              \/ (exists user, [] = [GenerateRoute.DeductCredits user 1]
                               /\ Api.code response = 500)
              \/ (exists user v,
                     [] = [GenerateRoute.DeductCredits user 1;
                           GenerateRoute.InsertGeneration user v]
                     /\ Api.data (GenerateRoute.deduction req) = Some true
                     /\ Api.code response = 500)
              \/ (exists user v id,
                     [] = [GenerateRoute.DeductCredits user 1;
                           GenerateRoute.InsertGeneration user v;
                           GenerateRoute.StartProcessing id]
                     /\ Api.data (GenerateRoute.deduction req) = Some true
                     /\ Api.data (GenerateRoute.insertion req) = Some id
                     /\ Api.code response = 200))
             /\ (Api.code response = 200 ->
                 exists id, In (GenerateRoute.StartProcessing id) [])
             /\ (Api.code response = 401 \/ Api.code response = 503 ->
                 [] = @nil GenerateRoute.effect)).
  { intros response Hc. split; [left; reflexivity |].
    split; [intros H'; contradiction | intros _; reflexivity]. }
  destruct (GenerateRoute.session req) as [email | e];
    [| apply Hquiet; discriminate].
  destruct (negb (truthy email)); [apply Hquiet; discriminate |].
  destruct (Api.error (GenerateRoute.userProfile req)); [apply Hquiet; discriminate |].
  destruct (Api.data (GenerateRoute.userProfile req)) as [user |];
    [| apply Hquiet; discriminate].
  destruct (Credits.isGenerationEnabled (GenerateRoute.flags req)) as [[|] | r] eqn:Hen;
    [| apply Hquiet; discriminate |].
  - destruct (GenerateRoute.body req) as [json | e]; [| apply Hquiet; discriminate].
    destruct (GenerateRoute.schema req json) as [validated | e];
      [| apply Hquiet; discriminate].
    destruct (deductCredits_cases 1 (GenerateRoute.deduction req)
                                  (GenerateRoute.balance req))
      as [(H & _ & Hdata) | [(m & H) | (a & H & _)]]; rewrite H.
    + destruct (Api.error (GenerateRoute.insertion req)) as [m |].
      * simpl. split; [| split; [intros H'; discriminate H' | intros [H' | H']; discriminate H']].
        right. right. left. exists user, validated. auto.
      * destruct (Api.data (GenerateRoute.insertion req)) as [id |]; simpl.
        -- split; [| split; [intros _; exists id; tauto | intros [H' | H']; discriminate H']].
           right. right. right. exists user, validated, id. auto.
        -- split; [| split; [intros H'; discriminate H' | intros [H' | H']; discriminate H']].
           right. right. left. exists user, validated. auto.
    + simpl. split; [| split; [intros H'; discriminate H' | intros [H' | H']; discriminate H']].
      right. left. exists user. auto.
    + simpl. split; [| split; [intros H'; discriminate H' | intros [H' | H']; discriminate H']].
      right. left. exists user. auto.
  - unfold Credits.isGenerationEnabled in Hen.
    destruct (Api.error (GenerateRoute.flags req)); [discriminate |].
    destruct (Api.data (GenerateRoute.flags req)); [discriminate |].
    injection Hen as <-. apply Hquiet. discriminate.
Qed.

Lemma generate_route_charges_before_it_creates_witness :
  GenerateRoute.POST Samples.insertion_fails
  = ([GenerateRoute.DeductCredits "u-17" 1;
      GenerateRoute.InsertGeneration "u-17" Samples.validated],
     {| Api.code := 500; Api.error_text := Some "Internal server error" |})
  /\ (Api.code (snd (GenerateRoute.POST Samples.insertion_fails)) = 401
      \/ Api.code (snd (GenerateRoute.POST Samples.insertion_fails)) = 503 ->
      fst (GenerateRoute.POST Samples.insertion_fails) = []).
Proof.
  split; [vm_compute; reflexivity |].
  exact (proj2 (proj2 (generate_route_charges_before_it_creates Samples.insertion_fails))).
Defined.

(** ** POST /api/render/[id] *)

Lemma writes_of_same (s : Store) : writes_of s s = [].
Proof. unfold writes_of. apply skipn_all. Qed.

Ltac render_unfold :=
  cbv beta iota zeta delta
      [RenderRoute.render_media bind call ret throw updateStatus update_status
       completeGeneration failGeneration update select fst snd
       run written status error_message retry_count rag_query rag_chunks_used
       takeaway_plan script].

(** The inner [try] block and its [catch] clause, on a run that is ready. *)
Lemma render_media_cases parse req text s :
  (exists s', RenderRoute.render_media parse req text s = (s', Returned tt)
              /\ status (run s') = completed
              /\ script (run s') = script (run s)
              /\ retry_count (run s') = retry_count (run s)
              /\ written s' = written s ++ [rendering; completed])
  \/ (exists s' e,
         RenderRoute.render_media parse req text s = (s', Thrown e)
         /\ match RenderRoute.format req with
            | slides => match parse text with
                        | Thrown e' => Thrown e'
                        | Returned _ => RenderRoute.media req
                        end
            | _ => RenderRoute.media req
            end = Thrown e
         /\ let s'' := fst (failGeneration ("Rendering failed: " ++ message e)%string s') in
            status (run s'') = failed
            /\ error_message (run s'')
               = Some ("Rendering failed: " ++ message e)%string
            /\ script (run s'') = script (run s)
            /\ retry_count (run s'') = retry_count (run s)
            /\ written s'' = written s ++ [rendering; failed]).
Proof.
  open_store s. render_unfold.
  destruct (match RenderRoute.format req with
            | slides => match parse text with
                        | Thrown e' => Thrown e'
                        | Returned _ => RenderRoute.media req
                        end
            | _ => RenderRoute.media req
            end) as [[] | e].
  - left. eexists. split; [reflexivity |]. cbn. rewrite <- app_assoc. auto.
  - right. do 2 eexists. split; [reflexivity |]. split; [reflexivity |].
    cbn. rewrite <- app_assoc. auto.
Qed.

(** What the handler does, case by case. *)
Lemma render_handle_cases parse req s :
  (fst (RenderRoute.POST parse req s) = s
   /\ Api.code (snd (RenderRoute.POST parse req s)) <> 200)
  \/ (status (run s) = rendering /\ truthy (script (run s)) = true
      /\ ((exists s', RenderRoute.POST parse req s
                      = (s', {| Api.code := 200; Api.error_text := None |})
                      /\ status (run s') = completed
                      /\ script (run s') = script (run s)
                      /\ retry_count (run s') = retry_count (run s)
                      /\ written s' = written s ++ [rendering; completed])
          \/ (exists s' e,
                 RenderRoute.POST parse req s
                 = (s', {| Api.code := 500;
                           Api.error_text := Some "Internal server error" |})
                 /\ match RenderRoute.format req with
                    | slides => match parse (text_of (script (run s))) with
                                | Thrown e' => Thrown e'
                                | Returned _ => RenderRoute.media req
                                end
                    | _ => RenderRoute.media req
                    end = Thrown e
                 /\ status (run s') = failed
                 /\ error_message (run s')
                    = Some ("Rendering failed: " ++ message e)%string
                 /\ script (run s') = script (run s)
                 /\ retry_count (run s') = retry_count (run s)
                 /\ written s' = written s ++ [rendering; failed]))).
Proof.
  unfold RenderRoute.POST, RenderRoute.handle.
  destruct (RenderRoute.session req) as [email | e];
    [| left; split; [reflexivity | discriminate]].
  destruct (negb (truthy email)); [left; split; [reflexivity | discriminate] |].
  destruct (RenderRoute.userProfile req); [| left; split; [reflexivity | discriminate]].
  destruct (negb (RenderRoute.owned req)); [left; split; [reflexivity | discriminate] |].
  destruct (status (run s)) eqn:Hst; try (left; split; [reflexivity | discriminate]).
  destruct (truthy (script (run s))) eqn:Hsc; cbn [negb];
    [| left; split; [reflexivity | discriminate]].
  right. split; [reflexivity |]. split; [reflexivity |].
  destruct (render_media_cases parse req (text_of (script (run s))) s)
    as [(s' & H & H1 & H2 & H3 & H4) | (s' & e & H & He & H1 & H2 & H3 & H4 & H5)];
    rewrite H.
  - left. exists s'. split; [reflexivity |]. repeat split; assumption.
  - right. eexists. exists e. split; [reflexivity |]. repeat split; assumption.
Qed.

(** X16.  POST /api/render/[id] writes the status completed only to a
    run that it finds at rendering with a script that is not empty:
    when it answers 200 the run was at rendering, had such a script and
    is now completed, its script unchanged, after the status writes
    rendering and completed; the status completed is written in no other
    case; and a run that is not at rendering, or that has no script, is
    left as it is. *)
Theorem render_completes_only_a_run_at_rendering_with_a_script :
  forall (parse : string -> completion Json) (req : RenderRoute.Request) (s : Store),
    let s' := fst (RenderRoute.POST parse req s) in
    let response := snd (RenderRoute.POST parse req s) in
    (Api.code response = 200 ->
     status (run s) = rendering
     /\ truthy (script (run s)) = true
     /\ status (run s') = completed
     /\ script (run s') = script (run s)
     /\ writes_of s s' = [rendering; completed])
    /\ (In completed (writes_of s s') -> Api.code response = 200)
    /\ (status (run s) <> rendering \/ truthy (script (run s)) = false ->
        s' = s /\ Api.code response <> 200).
Proof.
  intros parse req s. cbv zeta.
  destruct (render_handle_cases parse req s)
    as [[Hs Hc] | (Hst & Hsc & [(s' & H & H1 & H2 & H3 & H4)
                               | (s' & e & H & He & H1 & H2 & H3 & H4 & H5)])].
  - rewrite Hs, writes_of_same. split; [intros H; contradiction |].
    split; [intros [] | auto].
  - rewrite H. cbn [fst snd Api.code]. unfold writes_of. rewrite H4, skipn_length_app.
    split; [auto |]. split; [auto |].
    intros [Hn | Hn]; [contradiction | congruence].
  - rewrite H. cbn [fst snd Api.code]. unfold writes_of. rewrite H5, skipn_length_app.
    split; [intros Hc; discriminate Hc |].
    split; [intros [Hc | [Hc | []]]; discriminate Hc |].
    intros [Hn | Hn]; [contradiction | congruence].
Qed.

Lemma render_completes_only_a_run_at_rendering_with_a_script_witness :
  Api.code (snd (RenderRoute.POST Examples.parse Samples.render_request Samples.ready))
  = 200
  /\ status (run (fst (RenderRoute.POST Examples.parse Samples.render_request
                                        Samples.ready))) = completed
  /\ fst (RenderRoute.POST Examples.parse Samples.render_request Examples.fresh)
     = Examples.fresh.
Proof.
  assert (Hc : Api.code (snd (RenderRoute.POST Examples.parse Samples.render_request
                                               Samples.ready)) = 200)
    by (vm_compute; reflexivity).
  assert (Hn : status (run Examples.fresh) <> rendering
               \/ truthy (script (run Examples.fresh)) = false)
    by (left; discriminate).
  split; [exact Hc |]. split.
  - exact (proj1 (proj2 (proj2 (proj1 (@render_completes_only_a_run_at_rendering_with_a_script
                                         Examples.parse Samples.render_request
                                         Samples.ready) Hc)))).
  - exact (proj1 (proj2 (proj2 (@render_completes_only_a_run_at_rendering_with_a_script
                                  Examples.parse Samples.render_request Examples.fresh))
                        Hn)).
Defined.

(** X17.  A failure of the rendering is final: when the media cannot be
    made (or, for slides, the script is not JSON), the handler marks the
    run failed with the message "Rendering failed: ..." and answers 500;
    retry_count is not touched and the run is not queued again, whether
    or not isRetriableError would accept the error. *)
Theorem a_rendering_failure_is_final :
  forall (parse : string -> completion Json) (req : RenderRoute.Request) (s : Store)
         (email user text : string) (e : JsError),
    RenderRoute.session req = Returned (Some email) -> email <> EmptyString ->
    RenderRoute.userProfile req = Some user ->
    RenderRoute.owned req = true ->
    status (run s) = rendering ->
    script (run s) = Some text -> text <> EmptyString ->
    match RenderRoute.format req with
    | slides => match parse text with
                | Thrown e' => Thrown e'
                | Returned _ => RenderRoute.media req
                end
    | _ => RenderRoute.media req
    end = Thrown e ->
    let s' := fst (RenderRoute.POST parse req s) in
    snd (RenderRoute.POST parse req s)
    = {| Api.code := 500; Api.error_text := Some "Internal server error" |}
    /\ status (run s') = failed
    /\ error_message (run s') = Some ("Rendering failed: " ++ message e)%string
    /\ retry_count (run s') = retry_count (run s)
    /\ writes_of s s' = [rendering; failed].
Proof.
  intros parse req s email user text e Hs Hne Hu Ho Hst Hsc Htext He. cbv zeta.
  assert (Ht : truthy (Some email) = true).
  { simpl. destruct (String.eqb_spec email EmptyString); [contradiction | reflexivity]. }
  assert (Ht' : truthy (script (run s)) = true).
  { rewrite Hsc. simpl.
    destruct (String.eqb_spec text EmptyString); [contradiction | reflexivity]. }
  unfold RenderRoute.POST, RenderRoute.handle.
  rewrite Hs, Ht, Hu, Ho, Hst, Ht'. cbn [negb].
  destruct (render_media_cases parse req (text_of (script (run s))) s)
    as [(s' & H & _) | (s' & e' & H & He' & H1 & H2 & H3 & H4 & H5)].
  - exfalso. rewrite Hsc in H. cbn [text_of] in H.
    revert H. destruct s as [[? ? ? ? ? ? ?] ?]. render_unfold. rewrite He.
    discriminate.
  - rewrite Hsc in He'. cbn [text_of] in He'. rewrite He in He'. injection He' as <-.
    rewrite H. cbn [fst snd]. unfold writes_of. rewrite H5, skipn_length_app. auto.
Qed.

Lemma a_rendering_failure_is_final_witness :
  isRetriableError
    (Polling.new_MediaRenderError
       "Failed to generate video: Sieve video generation timeout (5 minutes)") = true
  /\ status (run (fst (RenderRoute.POST Examples.parse Samples.render_timeout
                                        Samples.ready))) = failed
  /\ retry_count (run (fst (RenderRoute.POST Examples.parse Samples.render_timeout
                                             Samples.ready))) = 0.
Proof.
  split; [vm_compute; reflexivity |].
  assert (Hne1 : "pm@example.com" <> EmptyString) by discriminate.
  assert (Hne2 : "Three ideas to bring to your next customer call." <> EmptyString)
    by discriminate.
  destruct (@a_rendering_failure_is_final
              Examples.parse Samples.render_timeout Samples.ready
              "pm@example.com" "u-17" "Three ideas to bring to your next customer call."
              (Polling.new_MediaRenderError
                 "Failed to generate video: Sieve video generation timeout (5 minutes)")
              eq_refl Hne1 eq_refl eq_refl eq_refl eq_refl Hne2 eq_refl)
    as (_ & H1 & _ & H2 & _).
  split; [exact H1 | exact H2].
Defined.

(** ** From the request to the media *)

Lemma pipeline_script parse params w s s' g :
  pipeline parse params w s = (s', Returned g) ->
  exists text, generateScript (writer w) = Returned text
               /\ script (run s') = Some text
               /\ validateScript text (script_validator w) = Returned tt.
Proof.
  open_store s. monad_unfold. split_calls.
  all: intros H; inversion H; subst; clear H.
  eexists. split; [reflexivity |]. split; [reflexivity |].
  match goal with H : validateScript _ _ = Returned ?u |- _ => destruct u; exact H end.
Qed.

(** X18.  A completed run has a checked script: when generateTakeaway
    returns and the render handler then answers 200, the run is
    completed and its script is the text that generateScript returned,
    not empty, let through by validateScript and free of the prohibited
    patterns; the statuses written on the way are processing (four
    times), rendering, rendering and completed. *)
Theorem a_completed_run_has_a_checked_script :
  forall (parse : string -> completion Json) (params : GenerationParams)
         (w : Replies) (req : RenderRoute.Request) (s : Store) (g : Generation),
    snd (generateTakeaway parse params w s) = Returned g ->
    let s1 := fst (generateTakeaway parse params w s) in
    Api.code (snd (RenderRoute.POST parse req s1)) = 200 ->
    let s2 := fst (RenderRoute.POST parse req s1) in
    status (run s2) = completed
    /\ (exists text,
           script (run s2) = Some text
           /\ text <> EmptyString
           /\ generateScript (writer w) = Returned text
           /\ validateScript text (script_validator w) = Returned tt
           /\ clean text)
    /\ writes_of s s2
       = [processing; processing; processing; processing; rendering;
          rendering; completed].
Proof.
  intros parse params w req s g Hg. cbv zeta. intros Hc.
  rewrite generateTakeaway_eq in *.
  destruct (pipeline parse params w s) as [s1 [g' | e]] eqn:Hp.
  2: { exfalso. destruct (on_error_cases e s1) as [H | (s2 & H & _)];
       rewrite H in Hg; discriminate. }
  cbn [fst snd] in *.
  destruct (pipeline_script Hp) as (text & Hw & Hs & Hv).
  destruct (pipeline_returned Hp) as (_ & _ & _ & Hwr & _).
  destruct (render_handle_cases parse req s1)
    as [[_ Hn] | (Hst & Hsc & [(s2 & H & H1 & H2 & H3 & H4)
                              | (s2 & e & H & _)])].
  - contradiction.
  - rewrite H. cbn [fst]. split; [exact H1 |]. split.
    + exists text. rewrite H2. split; [exact Hs |].
      split; [| split; [exact Hw | split; [exact Hv |]]].
      * intros ->. rewrite Hs in Hsc. discriminate.
      * apply first_prohibited_None. rewrite validateScript_eq in Hv.
        destruct (first_prohibited text); [discriminate | reflexivity].
    + unfold writes_of. rewrite H4, Hwr, <- app_assoc, skipn_length_app. reflexivity.
  - rewrite H in Hc. discriminate.
Qed.

Lemma a_completed_run_has_a_checked_script_witness :
  status (run (fst (RenderRoute.POST
                      Examples.parse Samples.render_request
                      (fst (generateTakeaway Examples.parse Examples.params
                                             Examples.happy Examples.fresh)))))
  = completed.
Proof.
  assert (Hg : exists g, snd (generateTakeaway Examples.parse Examples.params
                                               Examples.happy Examples.fresh)
                         = Returned g)
    by (eexists; vm_compute; reflexivity).
  destruct Hg as (g & Hg).
  assert (Hc : Api.code (snd (RenderRoute.POST
                                Examples.parse Samples.render_request
                                (fst (generateTakeaway Examples.parse Examples.params
                                                       Examples.happy Examples.fresh))))
               = 200) by (vm_compute; reflexivity).
  exact (proj1 (@a_completed_run_has_a_checked_script
                  Examples.parse Examples.params Examples.happy Samples.render_request
                  Examples.fresh g Hg Hc)).
Defined.

(** X19.  A script of white space only blocks the run at rendering:
    generateScript trims what the model wrote, so a reply of white space
    only gives the empty script; when the pipeline goes on to return,
    the run is at rendering with the empty script stored, and every
    request to render it is refused and leaves it as it is. *)
Theorem an_empty_script_reaches_rendering_and_cannot_be_rendered :
  forall (parse : string -> completion Json) (params : GenerationParams)
         (w : Replies) (s : Store) (g : Generation),
    snd (generateTakeaway parse params w s) = Returned g ->
    generateScript (writer w) = Returned EmptyString ->
    let s1 := fst (generateTakeaway parse params w s) in
    status (run s1) = rendering
    /\ script (run s1) = Some EmptyString
    /\ forall req,
        fst (RenderRoute.POST parse req s1) = s1
        /\ Api.code (snd (RenderRoute.POST parse req s1)) <> 200.
Proof.
  intros parse params w s g Hg Hw. cbv zeta.
  rewrite generateTakeaway_eq in *.
  destruct (pipeline parse params w s) as [s1 [g' | e]] eqn:Hp.
  2: { exfalso. destruct (on_error_cases e s1) as [H | (s2 & H & _)];
       rewrite H in Hg; discriminate. }
  cbn [fst snd] in *.
  destruct (pipeline_script Hp) as (text & Hw' & Hs & _).
  rewrite Hw in Hw'. injection Hw' as <-.
  destruct (pipeline_returned Hp) as (-> & Hst & _).
  split; [exact Hst |]. split; [exact Hs |].
  intros req.
  destruct (render_handle_cases parse req s1) as [H | (_ & Hsc & _)]; [exact H |].
  rewrite Hs in Hsc. discriminate.
Qed.

Lemma an_empty_script_reaches_rendering_and_cannot_be_rendered_witness :
  generateScript (writer Samples.blank_script) = Returned EmptyString
  /\ status (run (fst (generateTakeaway Examples.parse Examples.params
                                        Samples.blank_script Examples.fresh)))
     = rendering
  /\ Api.code
       (snd (RenderRoute.POST
               Examples.parse Samples.render_request
               (fst (generateTakeaway Examples.parse Examples.params
                                      Samples.blank_script Examples.fresh))))
     <> 200.
Proof.
  assert (Hw : generateScript (writer Samples.blank_script) = Returned EmptyString)
    by (vm_compute; reflexivity).
  assert (Hg : exists g, snd (generateTakeaway Examples.parse Examples.params
                                               Samples.blank_script Examples.fresh)
                         = Returned g)
    by (eexists; vm_compute; reflexivity).
  destruct Hg as (g & Hg).
  destruct (@an_empty_script_reaches_rendering_and_cannot_be_rendered
              Examples.parse Examples.params Samples.blank_script Examples.fresh g Hg Hw)
    as (H1 & _ & H3).
  split; [exact Hw |]. split; [exact H1 |].
  exact (proj2 (H3 Samples.render_request)).
Defined.

(** ** Polling the media providers *)

Section PollingLoop.
Import Polling.
Variable svc : service.
Variable replies : Z -> reply.

Lemma poll_thrown (turns : nat) :
  forall attempt e,
    0 <= pollInterval svc ->
    attempt + Z.of_nat turns = Z.of_nat (maxAttempts svc) ->
    snd (poll svc replies turns attempt) = Thrown e ->
    let trace := fst (poll svc replies turns attempt) in
    checks trace = turns
    /\ pollInterval svc * (Z.of_nat turns - 1) <= slept trace
       <= pollInterval svc * Z.of_nat turns.
Proof.
  induction turns as [| turns IH]; intros attempt e Hi Hsync; cbv zeta; cbn [poll].
  - intros _. simpl. split; [reflexivity | lia].
  - assert (Hnext : snd (poll svc replies turns (attempt + 1)) = Thrown e ->
                    let r := poll svc replies turns (attempt + 1) in
                    checks (Checked attempt :: Slept (pollInterval svc) :: fst r)
                    = S turns
                    /\ pollInterval svc * (Z.of_nat (S turns) - 1)
                       <= slept (Checked attempt :: Slept (pollInterval svc) :: fst r)
                       <= pollInterval svc * Z.of_nat (S turns)).
    { intros H. cbv zeta.
      destruct (IH (attempt + 1) e Hi ltac:(lia) H) as [H1 H2].
      unfold checks, slept in *. cbn [filter List.length fold_right].
      split; [rewrite H1; reflexivity | lia]. }
    destruct (check svc replies attempt) as [[url |] | error].
    + discriminate.
    + destruct (poll svc replies turns (attempt + 1)) as [later settled] eqn:E.
      cbn [fst snd] in *. exact Hnext.
    + destruct (Z.eqb_spec attempt (Z.of_nat (maxAttempts svc) - 1)) as [Hlast | Hnot].
      * intros _. assert (turns = O) by lia. subst turns.
        unfold checks, slept. cbn [fst filter List.length fold_right].
        split; [reflexivity | lia].
      * destruct (poll svc replies turns (attempt + 1)) as [later settled] eqn:E.
        cbn [fst snd] in *. exact Hnext.
Qed.

Lemma poll_returns (k : nat) :
  forall turns attempt url,
    attempt + Z.of_nat turns = Z.of_nat (maxAttempts svc) ->
    (k < turns)%nat ->
    check svc replies (attempt + Z.of_nat k) = Returned (Some url) ->
    (forall j, (j < k)%nat ->
               forall u, check svc replies (attempt + Z.of_nat j) <> Returned (Some u)) ->
    let r := poll svc replies turns attempt in
    snd r = Returned url
    /\ checks (fst r) = S k
    /\ slept (fst r) = pollInterval svc * Z.of_nat k.
Proof.
  induction k as [| k IH]; intros turns attempt url Hsync Hk Hat Hbefore;
    (destruct turns as [| turns]; [lia |]); cbv zeta; cbn [poll].
  - rewrite Z.add_0_r in Hat. rewrite Hat. simpl. repeat split. lia.
  - assert (Hnext : let r := poll svc replies turns (attempt + 1) in
                    snd r = Returned url
                    /\ checks (Checked attempt :: Slept (pollInterval svc) :: fst r)
                       = S (S k)
                    /\ slept (Checked attempt :: Slept (pollInterval svc) :: fst r)
                       = pollInterval svc * Z.of_nat (S k)).
    { cbv zeta.
      destruct (IH turns (attempt + 1) url ltac:(lia) ltac:(lia)) as (H1 & H2 & H3).
      - rewrite <- Hat. f_equal. lia.
      - intros j Hj u. replace (attempt + 1 + Z.of_nat j) with (attempt + Z.of_nat (S j))
          by lia.
        apply Hbefore. lia.
      - unfold checks, slept in *. cbn [filter List.length fold_right].
        split; [exact H1 |]. split; [rewrite H2; reflexivity | lia]. }
    pose proof (Hbefore O ltac:(lia)) as H0. rewrite Z.add_0_r in H0.
    destruct (check svc replies attempt) as [[u |] | error].
    + exfalso. exact (H0 u eq_refl).
    + destruct (poll svc replies turns (attempt + 1)) as [later settled].
      cbn [fst snd] in *. exact Hnext.
    + destruct (Z.eqb_spec attempt (Z.of_nat (maxAttempts svc) - 1)) as [Hlast | Hnot];
        [lia |].
      destruct (poll svc replies turns (attempt + 1)) as [later settled].
      cbn [fst snd] in *. exact Hnext.
Qed.

End PollingLoop.

(** X20.  The polling loops of the media providers never give up early:
    an error of a status check, an answer that is not ok, a job that the
    provider reports as failed, a finished job without a URL - each is
    caught inside the loop and followed by a sleep and the next check.
    Whenever the polling throws, it has made all its checks (60 for
    Sieve and HeyGen, 40 for Gamma) and slept the interval after each of
    them but possibly the last. *)
Theorem polling_gives_up_only_after_the_last_check :
  forall (svc : Polling.service) (replies : Z -> Polling.reply) (e : JsError),
    0 <= Polling.pollInterval svc ->
    snd (Polling.pollForCompletion svc replies) = Thrown e ->
    let trace := fst (Polling.pollForCompletion svc replies) in
    Polling.checks trace = Polling.maxAttempts svc
    /\ Polling.pollInterval svc * (Z.of_nat (Polling.maxAttempts svc) - 1)
       <= Polling.slept trace
       <= Polling.pollInterval svc * Z.of_nat (Polling.maxAttempts svc).
Proof.
  intros svc replies e Hi H. unfold Polling.pollForCompletion in *.
  apply (@poll_thrown svc replies (Polling.maxAttempts svc) 0 e Hi); [lia | exact H].
Qed.

Lemma polling_gives_up_only_after_the_last_check_witness :
  snd (Polling.pollForVideoCompletion Samples.failed_job)
  = Thrown (Polling.new_MediaRenderError "Sieve video generation failed")
  /\ Polling.checks (fst (Polling.pollForVideoCompletion Samples.failed_job)) = 60%nat
  /\ 295000 <= Polling.slept (fst (Polling.pollForVideoCompletion Samples.failed_job)).
Proof.
  assert (H : snd (Polling.pollForCompletion Polling.sieve Samples.failed_job)
              = Thrown (Polling.new_MediaRenderError "Sieve video generation failed"))
    by (vm_compute; reflexivity).
  assert (Hi : 0 <= Polling.pollInterval Polling.sieve) by (vm_compute; discriminate).
  destruct (@polling_gives_up_only_after_the_last_check
              Polling.sieve Samples.failed_job _ Hi H) as [H1 [H2 _]].
  split; [exact H |]. split; [exact H1 | exact H2].
Defined.

(** X21.  The polling returns the URL of the first check that finds the
    job finished with a URL, whatever the checks before it found: when
    check number k is the first such check and k is below the number of
    checks allowed, the URL is returned after k + 1 checks and k sleeps
    of the interval. *)
Theorem polling_returns_the_first_finished_job :
  forall (svc : Polling.service) (replies : Z -> Polling.reply) (k : nat)
         (status : option string) (url : string),
    (k < Polling.maxAttempts svc)%nat ->
    replies (Z.of_nat k) = Polling.Job status (Some url) ->
    Polling.is_one_of status (Polling.finished svc) = true ->
    url <> EmptyString ->
    (forall j st u, (j < k)%nat ->
                    replies (Z.of_nat j) = Polling.Job st (Some u) ->
                    Polling.is_one_of st (Polling.finished svc) = true ->
                    u = EmptyString) ->
    let r := Polling.pollForCompletion svc replies in
    snd r = Returned url
    /\ Polling.checks (fst r) = S k
    /\ Polling.slept (fst r) = Polling.pollInterval svc * Z.of_nat k.
Proof.
  intros svc replies k status url Hk Hat Hfin Hne Hbefore.
  unfold Polling.pollForCompletion.
  apply (@poll_returns svc replies k (Polling.maxAttempts svc) 0 url); [lia | exact Hk | |].
  - rewrite Z.add_0_l. unfold Polling.check. rewrite Hat, Hfin. simpl.
    destruct (String.eqb_spec url EmptyString); [contradiction | reflexivity].
  - intros j Hj u. rewrite Z.add_0_l. unfold Polling.check.
    destruct (replies (Z.of_nat j)) as [e | code | st url'] eqn:E; try discriminate.
    destruct (Polling.is_one_of st (Polling.finished svc)) eqn:Hf.
    + destruct url' as [u' |]; [| simpl; discriminate].
      rewrite (Hbefore j st u' Hj E Hf). simpl. discriminate.
    + destruct (Polling.is_one_of st (Polling.broken svc)); discriminate.
Qed.

Lemma polling_returns_the_first_finished_job_witness :
  snd (Polling.pollForVideoCompletion Samples.slow_job)
  = Returned "https://cdn.example.com/v.mp4"
  /\ Polling.checks (fst (Polling.pollForVideoCompletion Samples.slow_job)) = 3%nat
  /\ Polling.slept (fst (Polling.pollForVideoCompletion Samples.slow_job)) = 10000.
Proof.
  assert (Hk : (2 < Polling.maxAttempts Polling.sieve)%nat) by (vm_compute; lia).
  assert (Hne : "https://cdn.example.com/v.mp4" <> EmptyString) by discriminate.
  assert (Hbefore : forall j st u,
             (j < 2)%nat ->
             Samples.slow_job (Z.of_nat j) = Polling.Job st (Some u) ->
             Polling.is_one_of st (Polling.finished Polling.sieve) = true ->
             u = EmptyString).
  { intros j st u Hj H. destruct j as [| [| j]]; [discriminate H | discriminate H | lia]. }
  exact (@polling_returns_the_first_finished_job
           Polling.sieve Samples.slow_job 2 (Some "finished")
           "https://cdn.example.com/v.mp4" Hk eq_refl eq_refl Hne Hbefore).
Defined.

(** ** The reason given with a violation *)

Lemma or_else_filled (a b : string) : b <> EmptyString -> or_else a b <> EmptyString.
Proof.
  unfold or_else. intros Hb. destruct (String.eqb_spec a EmptyString); assumption.
Qed.

Lemma second_stage_reason (tag fallback : string) (content : option string) (e : JsError) :
  fallback <> EmptyString ->
  second_stage tag fallback (Returned content) = Thrown e ->
  cls e = GuardrailViolation /\ message e <> EmptyString.
Proof.
  intros Hf. unfold second_stage, try_catch, chat.
  destruct content as [content |]; [| simpl; discriminate].
  destruct (String.eqb content EmptyString); [simpl; discriminate |].
  unfold verdict. destruct (startsWith (trim content) tag); [| discriminate].
  cbn. intros H. injection H as <-. split; [reflexivity |].
  apply or_else_filled. exact Hf.
Qed.

(** X22.  A violation always comes with a reason: whatever the model
    answers, an error thrown by validateExtraInstruction, validatePlan or
    validateScript is a GuardrailViolation whose message is not empty -
    the description of the pattern found, the reason the model gave, or
    the fixed fallback text when the model gave none. *)
Theorem a_violation_always_comes_with_a_reason :
  forall (instruction : option string) (plan : Json) (script : string)
         (content : option string) (e : JsError),
    validateExtraInstruction instruction (Returned content) = Thrown e
    \/ validatePlan plan (Returned content) = Thrown e
    \/ validateScript script (Returned content) = Thrown e ->
    cls e = GuardrailViolation /\ message e <> EmptyString.
Proof.
  intros instruction plan script content e [H | [H | H]].
  - unfold validateExtraInstruction in H.
    destruct instruction as [text |]; [| discriminate].
    destruct (_ || _); [discriminate |].
    apply (second_stage_reason (tag := "BLOCKED")
                               (fallback := "Instruction violates content policy")
                               (content := content)); [discriminate | exact H].
  - rewrite validatePlan_eq in H.
    destruct (first_prohibited (stringify plan)) as [p |].
    + injection H as <-. split; [reflexivity | discriminate].
    + apply (second_stage_reason (tag := "VIOLATION")
                                 (fallback := "Content policy violation")
                                 (content := content)); [discriminate | exact H].
  - rewrite validateScript_eq in H.
    destruct (first_prohibited script) as [p |].
    + injection H as <-. split; [reflexivity | discriminate].
    + apply (second_stage_reason (tag := "VIOLATION")
                                 (fallback := "Content policy violation")
                                 (content := content)); [discriminate | exact H].
Qed.

Lemma a_violation_always_comes_with_a_reason_witness :
  validatePlan Examples.good_plan (Returned (Some "  VIOLATION:  "))
  = Thrown (new_GuardrailViolation "Content policy violation")
  /\ message (new_GuardrailViolation "Content policy violation") <> EmptyString.
Proof.
  assert (H : validatePlan Examples.good_plan (Returned (Some "  VIOLATION:  "))
              = Thrown (new_GuardrailViolation "Content policy violation"))
    by (vm_compute; reflexivity).
  split; [exact H |].
  exact (proj2 (@a_violation_always_comes_with_a_reason
                  None Examples.good_plan EmptyString (Some "  VIOLATION:  ") _
                  (or_intror (or_introl H)))).
Defined.

(** ** The edges of the retrieval *)

Lemma not_plain_labels (chunks : list RAGChunk) :
  ~ plain_labels chunks <-> exists c, In c chunks /\ inherited (theme c) = true.
Proof.
  split.
  - induction chunks as [| c chunks IH]; intros Hn.
    + exfalso. apply Hn. intros x [].
    + destruct (inherited (theme c)) eqn:Hc.
      * exists c. split; [left; reflexivity | exact Hc].
      * destruct IH as (x & Hx & Hi).
        -- intros Hp. apply Hn. intros y [<- | Hy]; auto.
        -- exists x. split; [right; exact Hx | exact Hi].
  - intros (c & Hc & Hi) Hp. rewrite (Hp c Hc) in Hi. discriminate.
Qed.

(** X23.  diversifyByTheme throws exactly when the topic of some
    candidate names something that every plain object inherits
    (constructor, toString, __proto__, ...), and what it throws is then
    the TypeError of the push on the inherited value, whatever the limit
    and the other candidates; the selection loop itself never throws. *)
Theorem diversifyByTheme_throws_exactly_on_an_inherited_topic :
  forall (candidates : list RAGChunk) (limit : Z) (e : JsError),
    diversifyByTheme candidates limit = Thrown e
    <-> (e = new_TypeError "themeGroups[chunk.theme].push is not a function"
         /\ exists c, In c candidates /\ inherited (theme c) = true).
Proof.
  intros candidates limit e. split.
  - intros H. destruct (plain_labels_dec candidates) as [Hp | Hn].
    + destruct (diversifyByTheme_spec limit Hp) as (out & Hout & _).
      rewrite Hout in H. discriminate.
    + unfold diversifyByTheme in H.
      rewrite (group_chunks_throws (o := []) (Forall_nil _) Hn) in H.
      injection H as <-. split; [reflexivity | apply not_plain_labels; exact Hn].
  - intros [-> Hc]. apply not_plain_labels in Hc.
    unfold diversifyByTheme.
    rewrite (group_chunks_throws (o := []) (Forall_nil _) Hc). reflexivity.
Qed.

Lemma sum_of_tokens (l : list RAGChunk) (a : Z) :
  fold_left (fun sum chunk => sum + token_count chunk) l a
  = a + fold_right Z.add 0 (map token_count l).
Proof.
  revert a. induction l as [| x l IH]; intros a; simpl; [lia |].
  rewrite IH. lia.
Qed.

(** X24.  A context that retrieveRelevantContext returns is never built
    from nothing: the search answered without error and with at least
    one candidate, the context holds min(topK, number of candidates)
    chunks, all of them candidates, so at least one and at most 10 with
    the default topK, and total_tokens is the sum of their token
    counts. *)
Theorem a_returned_context_is_never_empty :
  forall (params : RetrievalParams) (embedding : completion unit) (reply : RpcReply)
         (context : RAGContext),
    retrieveRelevantContext params embedding reply = Returned context ->
    let k := match topK params with Some k => k | None => TOP_K_CHUNKS end in
    exists candidates,
      data reply = Some candidates /\ error reply = None /\ candidates <> []
      /\ Z.of_nat (List.length (chunks context))
         = Z.min (Z.max k 0) (Z.of_nat (List.length candidates))
      /\ (exists rest, Permutation (chunks context ++ rest) candidates)
      /\ (1 <= k -> chunks context <> [])
      /\ total_tokens context = fold_right Z.add 0 (map token_count (chunks context)).
Proof.
  intros params embedding reply context H. cbv zeta.
  unfold retrieveRelevantContext in H.
  destruct embedding as [[] | e]; [| discriminate].
  destruct (error reply) as [m |]; [discriminate |].
  destruct (data reply) as [[| c candidates] |]; try discriminate.
  destruct (diversifyByTheme (c :: candidates) _) as [out | e] eqn:E; [| discriminate].
  injection H as <-. cbn [chunks total_tokens].
  exists (c :: candidates).
  pose proof (diversifyByTheme_size E) as Hlen.
  destruct Hlen as [Hlen Hrest].
  repeat (split; [first [reflexivity | discriminate | assumption] |]).
  split.
  - intros Hk E'. rewrite E' in Hlen. simpl in Hlen. lia.
  - rewrite sum_of_tokens. reflexivity.
Qed.

Lemma a_returned_context_is_never_empty_witness :
  exists context,
    retrieveRelevantContext
      {| userProfile := Examples.profile; Rag.format := video;
         Rag.customization := Examples.custom; topK := None |}
      (Returned tt) Examples.found = Returned context
    /\ chunks context <> [].
Proof.
  eexists. split; [vm_compute; reflexivity |].
  match goal with
  | |- chunks ?c <> [] =>
      assert (H : retrieveRelevantContext
                    {| userProfile := Examples.profile; Rag.format := video;
                       Rag.customization := Examples.custom; topK := None |}
                    (Returned tt) Examples.found = Returned c)
        by (vm_compute; reflexivity)
  end.
  destruct (a_returned_context_is_never_empty H) as (cs & _ & _ & _ & _ & _ & Hne & _).
  apply Hne. vm_compute. discriminate.
Defined.

(** ** Errors that are wrapped on their way to the orchestrator *)

Lemma chars_app (a b : string) : chars (a ++ b) = chars a ++ chars b.
Proof.
  unfold chars. induction a as [| c a IH]; simpl; [reflexivity |].
  rewrite IH. reflexivity.
Qed.

Lemma exec_lits_mismatch (p : list ascii) :
  forall cs rest prev k,
    mismatch p cs = true -> exec (lits p) prev (cs ++ rest) k = false.
Proof.
  induction p as [| a p IH]; intros cs rest prev k H; [discriminate |].
  destruct cs as [| c cs]; [discriminate |].
  cbn [mismatch] in H.
  destruct p as [| b p].
  - cbn [lits exec app]. destruct (same_ci a c); [| reflexivity].
    destruct cs; discriminate.
  - change (lits (a :: b :: p)) with (Cat (Lit a) (lits (b :: p))).
    cbn [exec app]. destruct (same_ci a c); [| reflexivity].
    apply IH. exact H.
Qed.

Lemma exec_lits_prev (p : list ascii) :
  p <> [] ->
  forall prev prev' s k, exec (lits p) prev s k = exec (lits p) prev' s k.
Proof.
  intros Hp prev prev' s k.
  destruct p as [| a [| b p]]; [contradiction | reflexivity |].
  change (lits (a :: b :: p)) with (Cat (Lit a) (lits (b :: p))).
  cbn [exec]. reflexivity.
Qed.

Lemma search_lits_prev (p : list ascii) :
  p <> [] ->
  forall s prev prev', Regex.search (lits p) prev s = Regex.search (lits p) prev' s.
Proof.
  intros Hp s. induction s as [| c s IH]; intros prev prev'; cbn [Regex.search];
    rewrite (exec_lits_prev Hp prev prev'); reflexivity.
Qed.

(** A text before the message that no pattern text can match in, or
    across the end of, does not change what is found. *)
Lemma search_after_clear_text (p : list ascii) :
  p <> [] ->
  forall q rest prev,
    clear_of p q = true ->
    Regex.search (lits p) prev (q ++ rest) = Regex.search (lits p) None rest.
Proof.
  intros Hp q. induction q as [| c q IH]; intros rest prev H.
  - apply search_lits_prev. exact Hp.
  - cbn [clear_of] in H. destruct (mismatch p (c :: q)) eqn:Hm; [| discriminate].
    change ((c :: q) ++ rest) with (c :: (q ++ rest)).
    cbn [Regex.search].
    change (c :: (q ++ rest)) with ((c :: q) ++ rest).
    rewrite (exec_lits_mismatch rest prev (fun _ _ => true) Hm).
    apply IH. exact H.
Qed.

Lemma retriable_text_after (q m : string) :
  forallb (fun t => negb (Nat.eqb (String.length t) 0) && clear_of (chars t) (chars q))
          retriable_texts = true ->
  retriable_text (q ++ m) = retriable_text m.
Proof.
  intros H. unfold retriable_text.
  change retriablePatterns with (map text retriable_texts).
  revert H. induction retriable_texts as [| t l IH]; intros H; [reflexivity |].
  cbn [forallb existsb map] in *. apply andb_true_iff in H. destruct H as [Ht Hl].
  apply andb_true_iff in Ht. destruct Ht as [Hne Hc].
  rewrite (IH Hl). f_equal.
  unfold test, text. rewrite chars_app.
  apply search_after_clear_text; [| exact Hc].
  intros E. unfold chars in E. destruct t; [discriminate Hne | discriminate E].
Qed.

Lemma isRetriableError_by_message (e : JsError) :
  message e <> EmptyString -> isRetriableError e = retriable_text (message e).
Proof.
  intros H. unfold isRetriableError, retriable_text, or_else. cbv zeta.
  destruct (String.eqb_spec (message e) EmptyString); [contradiction | reflexivity].
Qed.

Lemma wrapped_retriable (q m : string) :
  q <> EmptyString ->
  forallb (fun t => negb (Nat.eqb (String.length t) 0) && clear_of (chars t) (chars q))
          retriable_texts = true ->
  isRetriableError (new_Error (q ++ m)) = retriable_text m.
Proof.
  intros Hq H. rewrite isRetriableError_by_message.
  - apply retriable_text_after. exact H.
  - cbn [message new_Error]. destruct q; [contradiction | discriminate].
Qed.

(** X25.  generateScript and generateTakeawayPlan wrap whatever fails in
    them, and retrieveRelevantContext wraps the error that the search
    answers with: what is thrown is a plain Error whose message is
    "Failed to generate script: ", "Failed to generate takeaway plan: "
    or "Failed to retrieve context: " followed by the message of the
    cause; the class of the cause is lost.  The wrapping changes nothing
    for the retry policy: isRetriableError accepts the wrapped error
    exactly when the message of the cause holds a retriable pattern, so
    a cause with a message is retriable after the wrapping exactly when
    it was before.  retrieveRelevantContext wraps
    nothing else: what createEmbedding throws and what diversifyByTheme
    throws leave it as they are. *)
Theorem wrapping_an_error_keeps_its_retriability :
  forall (parse : string -> completion Json) (reply : create_reply),
    (forall e', generateScript reply = Thrown e' ->
                cls e' = PlainError
                /\ exists m, message e' = ("Failed to generate script: " ++ m)%string
                             /\ isRetriableError e' = retriable_text m)
    /\ (forall e', generateTakeawayPlan parse reply = Thrown e' ->
                   cls e' = PlainError
                   /\ exists m,
                       message e' = ("Failed to generate takeaway plan: " ++ m)%string
                       /\ isRetriableError e' = retriable_text m)
    /\ (forall params found m e',
           error found = Some m ->
           retrieveRelevantContext params (Returned tt) found = Thrown e' ->
           cls e' = PlainError
           /\ message e' = ("Failed to retrieve context: " ++ m)%string
           /\ isRetriableError e' = retriable_text m)
    /\ (forall e, chat reply = Thrown e -> message e <> EmptyString ->
                  exists e1 e2,
                    generateScript reply = Thrown e1
                    /\ generateTakeawayPlan parse reply = Thrown e2
                    /\ isRetriableError e1 = isRetriableError e
                    /\ isRetriableError e2 = isRetriableError e)
    /\ (forall params found e,
           retrieveRelevantContext params (Thrown e) found = Thrown e)
    /\ (forall params found candidates e,
           error found = None -> data found = Some candidates ->
           diversifyByTheme candidates
                            (match topK params with Some k => k | None => TOP_K_CHUNKS end)
           = Thrown e ->
           retrieveRelevantContext params (Returned tt) found = Thrown e).
Proof.
  intros parse reply.
  assert (Hs : forall m, isRetriableError (new_Error ("Failed to generate script: " ++ m))
                         = retriable_text m).
  { intros m. apply wrapped_retriable; [discriminate | vm_compute; reflexivity]. }
  assert (Hp : forall m,
             isRetriableError (new_Error ("Failed to generate takeaway plan: " ++ m))
             = retriable_text m).
  { intros m. apply wrapped_retriable; [discriminate | vm_compute; reflexivity]. }
  assert (Hr : forall m, isRetriableError (new_Error ("Failed to retrieve context: " ++ m))
                         = retriable_text m).
  { intros m. apply wrapped_retriable; [discriminate | vm_compute; reflexivity]. }
  split; [| split; [| split; [| split; [| split]]]].
  - intros e' H. unfold generateScript in H.
    destruct (chat reply) as [content | e]; [discriminate |].
    injection H as <-. split; [reflexivity |].
    exists (message e). split; [reflexivity | apply Hs].
  - intros e' H. unfold generateTakeawayPlan in H.
    match type of H with
    | match ?body with _ => _ end = _ => destruct body as [plan | e]
    end; [discriminate |].
    injection H as <-. split; [reflexivity |].
    exists (message e). split; [reflexivity | apply Hp].
  - intros params found m e' Hm H. unfold retrieveRelevantContext in H.
    rewrite Hm in H. injection H as <-.
    split; [reflexivity |]. split; [reflexivity | apply Hr].
  - intros e Hc Hne.
    exists (new_Error ("Failed to generate script: " ++ message e)),
           (new_Error ("Failed to generate takeaway plan: " ++ message e)).
    unfold generateScript, generateTakeawayPlan. rewrite Hc.
    split; [reflexivity |]. split; [reflexivity |].
    rewrite Hs, Hp, (isRetriableError_by_message Hne). auto.
  - intros params found e. reflexivity.
  - intros params found candidates e He Hd Hdiv.
    unfold retrieveRelevantContext. rewrite He, Hd.
    destruct candidates as [| c rest].
    { assert (Hplain : plain_labels []) by (intros x []).
      destruct (proj2 (diversifyByTheme_returns_iff []
                         (match topK params with Some k => k | None => TOP_K_CHUNKS end))
                      Hplain) as (out & Hout).
      rewrite Hout in Hdiv. discriminate Hdiv. }
    rewrite Hdiv. reflexivity.
Qed.

Lemma wrapping_an_error_keeps_its_retriability_witness :
  exists e1,
      generateScript (Thrown {| cls := Foreign "RateLimitError";
                                message := "429 Rate limit reached for requests" |})
      = Thrown e1
      /\ isRetriableError e1 = true.
Proof.
  assert (Hc : chat (Thrown {| cls := Foreign "RateLimitError";
                               message := "429 Rate limit reached for requests" |})
               = Thrown {| cls := Foreign "RateLimitError";
                           message := "429 Rate limit reached for requests" |})
    by reflexivity.
  assert (Hne : message {| cls := Foreign "RateLimitError";
                           message := "429 Rate limit reached for requests" |}
                <> EmptyString) by discriminate.
  destruct (proj1 (proj2 (proj2 (proj2 (wrapping_an_error_keeps_its_retriability
                                          Examples.parse
                                          (Thrown {| cls := Foreign "RateLimitError";
                                                     message := "429 Rate limit reached for requests" |})))))
                  _ Hc Hne) as (e1 & e2 & H1 & _ & H3 & _).
  exists e1. split; [exact H1 |]. rewrite H3. vm_compute. reflexivity.
Defined.

(** ** Letter case *)

Lemma code_canonicalize (c : ascii) :
  code (canonicalize c) = if between 97 122 c then (code c - 32)%nat else code c.
Proof.
  unfold canonicalize. destruct (between 97 122 c) eqn:E; [| reflexivity].
  unfold code. apply nat_ascii_embedding.
  pose proof (nat_ascii_bounded c). lia.
Qed.

Lemma between_spec (lo hi : nat) (c : ascii) :
  between lo hi c = true <-> (lo <= code c <= hi)%nat.
Proof.
  unfold between. rewrite andb_true_iff, !Nat.leb_le. tauto.
Qed.

Lemma between_false (lo hi : nat) (c : ascii) :
  between lo hi c = false <-> ~ (lo <= code c <= hi)%nat.
Proof.
  rewrite <- between_spec. destruct (between lo hi c); split; congruence.
Qed.

(** Two characters that fold onto the same one are equal or are two
    letters. *)
Lemma alike_cases (a b : ascii) :
  alike a b ->
  a = b \/ (letter_code a /\ letter_code b).
Proof.
  unfold alike, letter_code. intros H.
  pose proof (f_equal code H) as Hc. rewrite !code_canonicalize in Hc.
  destruct (between 97 122 a) eqn:Ea; destruct (between 97 122 b) eqn:Eb.
  - right. apply between_spec in Ea, Eb. lia.
  - right. apply between_spec in Ea. lia.
  - right. apply between_spec in Eb. lia.
  - left. unfold canonicalize in H. rewrite Ea, Eb in H. exact H.
Qed.

Lemma letter_is_word (c : ascii) : letter_code c -> is_word c = true.
Proof.
  unfold is_word. intros [H | H].
  - rewrite (proj2 (between_spec 65 90 c) H). reflexivity.
  - rewrite (proj2 (between_spec 97 122 c) H), orb_true_r. reflexivity.
Qed.

Lemma letter_between (lo hi : nat) (c : ascii) :
  (hi < 65)%nat -> letter_code c -> between lo hi c = false.
Proof. unfold letter_code. intros Hhi H. apply between_false. lia. Qed.

Lemma letter_is_digit (c : ascii) : letter_code c -> is_digit c = false.
Proof. apply letter_between. lia. Qed.

Lemma letter_is_space (c : ascii) : letter_code c -> is_space c = false.
Proof.
  intros H. unfold is_space. rewrite (letter_between 9 (hi := 13)); [| lia | exact H].
  unfold letter_code in H.
  rewrite (proj2 (Nat.eqb_neq (code c) 32)) by lia.
  rewrite (proj2 (Nat.eqb_neq (code c) 160)) by lia.
  reflexivity.
Qed.

Lemma alike_is_digit (a b : ascii) : alike a b -> is_digit a = is_digit b.
Proof.
  intros H. destruct (alike_cases H) as [-> | [Ha Hb]]; [reflexivity |].
  rewrite !letter_is_digit; auto.
Qed.

Lemma alike_is_space (a b : ascii) : alike a b -> is_space a = is_space b.
Proof.
  intros H. destruct (alike_cases H) as [-> | [Ha Hb]]; [reflexivity |].
  rewrite !letter_is_space; auto.
Qed.

Lemma alike_is_word (a b : ascii) : alike a b -> is_word a = is_word b.
Proof.
  intros H. destruct (alike_cases H) as [-> | [Ha Hb]]; [reflexivity |].
  rewrite !letter_is_word; auto.
Qed.

Lemma alike_between (lo hi : nat) (a b : ascii) :
  (hi < 65)%nat -> alike a b -> between lo hi a = between lo hi b.
Proof.
  intros Hhi H. destruct (alike_cases H) as [-> | [Ha Hb]]; [reflexivity |].
  rewrite !(letter_between lo Hhi); auto.
Qed.

Lemma alike_same_ci (c a b : ascii) : alike a b -> same_ci c a = same_ci c b.
Proof. unfold alike, same_ci. intros ->. reflexivity. Qed.

Lemma alike_is_word_at (p q : option ascii) :
  alike_before p q -> is_word_at p = is_word_at q.
Proof.
  destruct p as [a |], q as [b |]; simpl; try contradiction; auto.
  apply alike_is_word.
Qed.

Lemma alike_hd (s t : list ascii) :
  Forall2 alike s t -> alike_before (hd_error s) (hd_error t).
Proof. intros [| a b s' t' H _]; simpl; auto. Qed.

(** A match does not depend on the letter case of the text. *)
Lemma exec_alike (r : regex) :
  caseless r = true ->
  forall prev prev' s s' k k',
    alike_before prev prev' -> Forall2 alike s s' ->
    (forall p p' t t', alike_before p p' -> Forall2 alike t t' -> k p t = k' p' t') ->
    exec r prev s k = exec r prev' s' k'.
Proof.
  induction r as [| c | | | lo hi | cs | r1 IH1 r2 IH2 | r1 IH1 r2 IH2 | r1 IH1 | r1 IH1 |];
    intros Hr prev prev' s s' k k' Hp Hs Hk; cbn [caseless] in Hr.
  - cbn [exec]. auto.
  - cbn [exec]. destruct Hs as [| a b s s' Hab Hs]; [reflexivity |].
    rewrite (alike_same_ci c Hab). destruct (same_ci c b); [| reflexivity].
    apply Hk; simpl; auto.
  - cbn [exec]. destruct Hs as [| a b s s' Hab Hs]; [reflexivity |].
    rewrite (alike_is_digit Hab). destruct (is_digit b); [| reflexivity].
    apply Hk; simpl; auto.
  - cbn [exec]. destruct Hs as [| a b s s' Hab Hs]; [reflexivity |].
    rewrite (alike_is_space Hab). destruct (is_space b); [| reflexivity].
    apply Hk; simpl; auto.
  - cbn [exec]. destruct Hs as [| a b s s' Hab Hs]; [reflexivity |].
    apply Nat.ltb_lt in Hr.
    rewrite (alike_between (code lo) Hr Hab).
    destruct (between (code lo) (code hi) b); [| reflexivity].
    apply Hk; simpl; auto.
  - cbn [exec]. destruct Hs as [| a b s s' Hab Hs]; [reflexivity |].
    assert (E : existsb (fun c => same_ci c a) cs = existsb (fun c => same_ci c b) cs).
    { clear - Hab. induction cs as [| c cs IH]; simpl; [reflexivity |].
      rewrite (alike_same_ci c Hab), IH. reflexivity. }
    rewrite E. clear E. destruct (existsb _ cs); [| reflexivity].
    apply Hk; simpl; auto.
  - apply andb_true_iff in Hr. destruct Hr as [H1 H2]. cbn [exec].
    apply (IH1 H1); [assumption | assumption |].
    intros p p' t t' Hpp Htt. apply (IH2 H2); assumption.
  - apply andb_true_iff in Hr. destruct Hr as [H1 H2]. cbn [exec].
    rewrite (IH1 H1 prev prev' s s' k k' Hp Hs Hk), (IH2 H2 prev prev' s s' k k' Hp Hs Hk).
    reflexivity.
  - cbn [exec]. rewrite (IH1 Hr prev prev' s s' k k' Hp Hs Hk), (Hk _ _ _ _ Hp Hs).
    reflexivity.
  - cbn [exec]. rewrite (Forall2_length Hs).
    generalize (List.length s') as n. intros n.
    revert prev prev' s s' Hp Hs.
    induction n as [| n IHn]; intros prev prev' s s' Hp Hs.
    + apply Hk; assumption.
    + rewrite (Hk _ _ _ _ Hp Hs).
      match goal with
      | |- (if ?x then _ else _) = (if ?y then _ else _) => replace x with y; [reflexivity |]
      end.
      symmetry. apply (IH1 Hr); [assumption | assumption |].
      intros p p' t t' Hpp Htt.
      rewrite (Forall2_length Htt), (Forall2_length Hs).
      destruct (_ <? _)%nat; [| reflexivity].
      apply IHn; assumption.
  - cbn [exec]. rewrite (alike_is_word_at Hp), (alike_is_word_at (alike_hd Hs)).
    destruct (xorb _ _); [| reflexivity]. apply Hk; assumption.
Qed.

Lemma search_alike (r : regex) :
  caseless r = true ->
  forall s s' prev prev',
    alike_before prev prev' -> Forall2 alike s s' ->
    Regex.search r prev s = Regex.search r prev' s'.
Proof.
  intros Hr s s' prev prev' Hp Hs. revert prev prev' Hp.
  induction Hs as [| a b s s' Hab Hs IH]; intros prev prev' Hp; cbn [Regex.search].
  - rewrite (exec_alike Hr (k := fun _ _ => true) (k' := fun _ _ => true) Hp
                        (Forall2_nil _)); auto.
  - rewrite (exec_alike Hr (k := fun _ _ => true) (k' := fun _ _ => true) Hp
                        (Forall2_cons _ _ Hab Hs)); auto.
    rewrite (IH (Some a) (Some b) Hab). reflexivity.
Qed.

Lemma same_up_to_case_alike (s t : list ascii) :
  map canonicalize s = map canonicalize t -> Forall2 alike s t.
Proof.
  revert t. induction s as [| a s IH]; intros [| b t] H; simpl in H;
    try discriminate; constructor.
  - injection H as H _. exact H.
  - apply IH. injection H as _ H. exact H.
Qed.

Lemma test_alike (r : regex) (s t : string) :
  caseless r = true -> same_up_to_case s t -> test r s = test r t.
Proof.
  intros Hr H. unfold test. apply search_alike; [exact Hr | exact I |].
  apply same_up_to_case_alike. exact H.
Qed.

(** X26.  Both lists of patterns are matched without regard to letter
    case: two texts that differ by the case of their letters only are
    treated alike by the pattern stage of the guardrails, which finds
    the same prohibited pattern in both or in neither, and by the test
    of isRetriableError on a message. *)
Theorem the_patterns_ignore_letter_case :
  forall (s t : string),
    same_up_to_case s t ->
    first_prohibited s = first_prohibited t
    /\ (clean s <-> clean t)
    /\ retriable_text s = retriable_text t.
Proof.
  intros s t H.
  assert (Hp : forall p, In p PROHIBITED_PATTERNS ->
                         test (pattern p) s = test (pattern p) t).
  { intros p Hp. apply test_alike; [| exact H].
    assert (Hall : forallb (fun q => caseless (pattern q)) PROHIBITED_PATTERNS = true)
      by (vm_compute; reflexivity).
    rewrite forallb_forall in Hall. exact (Hall p Hp). }
  assert (Hf : first_prohibited s = first_prohibited t).
  { unfold first_prohibited. revert Hp. generalize PROHIBITED_PATTERNS as l.
    induction l as [| p l IH]; intros Hp; simpl; [reflexivity |].
    rewrite (Hp p (or_introl eq_refl)). destruct (test (pattern p) t); [reflexivity |].
    apply IH. intros q Hq. apply Hp. right. exact Hq. }
  split; [exact Hf |]. split.
  - rewrite <- !first_prohibited_None, Hf. tauto.
  - unfold retriable_text.
    assert (Hall : forallb caseless retriablePatterns = true) by (vm_compute; reflexivity).
    rewrite forallb_forall in Hall. revert Hall.
    generalize retriablePatterns as l.
    induction l as [| p l IH]; intros Hall; simpl; [reflexivity |].
    rewrite (test_alike (Hall p (or_introl eq_refl)) H), IH; [reflexivity |].
    intros q Hq. apply Hall. right. exact Hq.
Qed.

Lemma the_patterns_ignore_letter_case_witness :
  same_up_to_case "It is on our ROADMAP, Guaranteed." "it is on our roadmap, guaranteed."
  /\ first_prohibited "It is on our ROADMAP, Guaranteed."
     = first_prohibited "it is on our roadmap, guaranteed."
  /\ exists p, first_prohibited "it is on our roadmap, guaranteed." = Some p
               /\ description p = "Forward-looking statements".
Proof.
  assert (H : same_up_to_case "It is on our ROADMAP, Guaranteed."
                              "it is on our roadmap, guaranteed.")
    by (vm_compute; reflexivity).
  split; [exact H |].
  split; [exact (proj1 (the_patterns_ignore_letter_case H)) |].
  eexists. split; vm_compute; reflexivity.
Defined.
